(** * ark-agent-cli: knowledge-graph queries and the searchInSurroundings tool

    A shallow embedding of
      - [src/db/queries.ts]            (relational store, Drizzle/PostgreSQL),
      - [src/parquet-tools/queries.ts] (parquet files read through DuckDB),
      - [tools.ts]                     (the tool facade, both variants),
      - [scripts/export-data.ts]       (the export of a database to parquet),
    followed by the properties of neighbour expansion, surroundings ranking
    and two-leg path finding, and by further properties of the stores, the
    tools and the export.

    Modelling conventions.
      - A table is the list of its rows in storage order; a [WHERE] clause is
        a [filter] on that list, [UNION ALL] is concatenation, an inner join
        enumerates the left operand first.  [DISTINCT] and JavaScript's [Set]
        both keep the first occurrence of every value.  Drizzle's
        [inArray(col, values)] is membership, false for an empty list.
      - [number] graph ids are [Z]; JavaScript strings are [string]; a
        nullable column or an optional argument is an [option].  Where a
        property depends on a graph id being a JavaScript number on both
        sides, it asks for the id to fit 32 bits ([fitsInt32]).
      - No query orders its rows, so the storage order of the model is a
        convention: properties that compare two reads, two stores or an
        answer with the tables are stated up to the order of the lists.
      - [throw new Error(msg)] is [Throw e] in the [Result] monad, one
        constructor of [Error] per message.  A query that the engine
        rejects for what it says fails; failures of the engines themselves
        (a lost connection, an unreadable file) are not modelled.
      - [toLowerCase] acts on the letters A-Z; text is taken to be ASCII. *)

From stdpp Require Import base option list strings gmap pretty.
From Stdlib Require Import Ascii ZArith Lia Permutation Sorted.

Local Open Scope Z_scope.

(** ** JavaScript values *)

(** Truthiness of an optional string: [undefined], [null] and [""] are
    falsy. *)
Definition truthy (o : option string) : bool :=
  match o with
  | Some s => if decide (s = "") then false else true
  | None => false
  end.

Section JsSet.
Context {A : Type} `{EqDecision A}.

(** [Set.prototype.add]: insertion order is kept, a present value is not
    added again. *)
Definition Set_add (s : list A) (x : A) : list A :=
  if decide (x ∈ s) then s else s ++ [x].

(** [new Set(iterable)], read back with the spread operator. *)
Definition new_Set (l : list A) : list A := foldl Set_add [] l.

End JsSet.

(** ** Errors *)

Inductive Error : Type :=
| UnknownGraphId (id : Z)        (* Error(`Unknown graph id=${id}`) *)
| EmptyFromClause                (* DuckDB parser error on [FROM ()] *)
| KMustBe1Or2                    (* Error("k must be 1 or 2"), never thrown *)
| EdgeTypeWithK2                 (* Error("Filtering by edge type is not supported when k=2") *)
| NodeNotFound (nodeId : string) (* Error(`Node with id ${nodeId} not found.`) *)
| FailedToFindPaths              (* Error("Failed to find paths") *).

Inductive Result (A : Type) : Type :=
| Ok (a : A)
| Throw (e : Error).
Arguments Ok {A} a.
Arguments Throw {A} e.

#[global] Instance Result_ret : MRet Result := fun A a => Ok a.
#[global] Instance Result_bind : MBind Result := fun A B f m =>
  match m with
  | Ok a => f a
  | Throw e => Throw e
  end.

(** [const x = await m; k]: a rejected promise skips the rest. *)
Notation "'await' x ← m ; k" := (mbind (M := Result) (fun x => k) m)
  (at level 20, x name, m at level 100, k at level 200, only parsing).

(** ** Rows *)

Module Node.
Record t : Type := mk {
  knowledgeGraphId : Z;
  id : string;
  name : option string;
  type : option string;
  properties : option string
}.
End Node.

Module Edge.
Record t : Type := mk {
  knowledgeGraphId : Z;
  from : string;
  to : string;
  type : option string;
  properties : option string
}.
End Edge.

#[global] Instance Node_eq_dec : EqDecision Node.t.
Proof. solve_decision. Defined.
#[global] Instance Edge_eq_dec : EqDecision Edge.t.
Proof. solve_decision. Defined.

(** [k: 1 | 2] *)
Inductive Hops : Type := K1 | K2.

#[global] Instance Hops_eq_dec : EqDecision Hops.
Proof. solve_decision. Defined.

(** ** Paths ([Path] in both query modules) *)

Record Leg : Type := mkLeg {
  tailNode : Node.t;
  edgeType : string;
  headNode : Node.t
}.

Record Path : Type := mkPath { legs : list Leg }.

(** One row of the inner join in [findPaths]. *)
Record IntermediateInfo : Type := mkInfo {
  intermediateNodeId : string;
  sourceEdgeType : option string;
  destinationEdgeType : option string
}.

(** ** The code shared by the two query modules *)

Module Common.

(** [CASE WHEN e."from" = nodeId THEN e."to" ELSE e."from" END], also
    [row.from === nodeId ? row.to : row.from]. *)
Definition otherEnd (nodeId : string) (from to : string) : string :=
  if decide (from = nodeId) then to else from.

(** The edge-type condition of [getNeighbors]: absent when [edgeType] is
    falsy; a [NULL] type never equals the filter. *)
Definition typeFilter (edgeType : option string) (ty : option string) : Prop :=
  match edgeType with
  | Some x => if decide (x = "") then True else ty = Some x
  | None => True
  end.

#[global] Instance typeFilter_dec edgeType ty : Decision (typeFilter edgeType ty).
Proof. unfold typeFilter. destruct edgeType; [case_decide|]; apply _. Defined.

(** [(e.from = nodeId OR e.to = nodeId)] *)
Definition touches (nodeId : string) (e : Edge.t) : Prop :=
  Edge.from e = nodeId ∨ Edge.to e = nodeId.

#[global] Instance touches_dec nodeId e : Decision (touches nodeId e).
Proof. unfold touches. apply _. Defined.

(** The rows of [source_neighbors] / [destination_neighbors]. *)
Definition neighborRows (nodeId : string) (es : list Edge.t)
  : list (string * option string) :=
  (fun e => (otherEnd nodeId (Edge.from e) (Edge.to e), Edge.type e))
    <$> filter (touches nodeId) es.

(** [FROM source_neighbors s INNER JOIN destination_neighbors d
     ON s.neighborId = d.neighborId] *)
Definition innerJoin (ss ds : list (string * option string))
  : list IntermediateInfo :=
  s ← ss; d ← ds;
  if decide (s.1 = d.1) then [mkInfo s.1 s.2 d.2] else [].

(** [new Map(nodesInfo.map((n) => [n.id, n]))]: a later row with the same
    id replaces an earlier one. *)
Definition nodesMapOf (nodesInfo : list Node.t) : gmap string Node.t :=
  foldl (fun m n => <[Node.id n := n]> m) ∅ nodesInfo.

(** The callback of the final [.map(...)] of [findPaths]; [None] is the
    [null] that the following [.filter] removes. *)
Definition pathOf (nodesMap : gmap string Node.t)
    (sourceNode destinationNode : Node.t) (info : IntermediateInfo)
  : option Path :=
  match nodesMap !! intermediateNodeId info,
        sourceEdgeType info, destinationEdgeType info with
  | Some intermediateNode, Some st, Some dt =>
      if truthy (Some st) && truthy (Some dt) then
        Some (mkPath [ mkLeg sourceNode st intermediateNode;
                       mkLeg intermediateNode dt destinationNode ])
      else None
  | _, _, _ => None
  end.

(** [findPaths] from the point where the node rows have been fetched. *)
Definition pathsFrom (intermediateNodesInfo : list IntermediateInfo)
    (nodesInfo : list Node.t) (sourceNodeId destinationNodeId : string)
  : list Path :=
  let nodesMap := nodesMapOf nodesInfo in
  match nodesMap !! sourceNodeId, nodesMap !! destinationNodeId with
  | Some sourceNode, Some destinationNode =>
      omap (pathOf nodesMap sourceNode destinationNode) intermediateNodesInfo
  | _, _ => []
  end.

(** The ids handed to the node lookup of [findPaths]. *)
Definition nodeIdsToFetch (intermediateNodesInfo : list IntermediateInfo)
    (sourceNodeId destinationNodeId : string) : list string :=
  new_Set (sourceNodeId :: destinationNodeId
           :: (intermediateNodeId <$> intermediateNodesInfo)).

(** A leg read from head to tail, and a path walked backwards: the legs in
    reverse order, each read the other way. *)
Definition flipLeg (l : Leg) : Leg :=
  mkLeg (headNode l) (edgeType l) (tailNode l).

Definition reversePath (p : Path) : Path :=
  mkPath (reverse (flipLeg <$> legs p)).

(** A join row with its two edge types exchanged. *)
Definition swapInfo (info : IntermediateInfo) : IntermediateInfo :=
  mkInfo (intermediateNodeId info) (destinationEdgeType info)
         (sourceEdgeType info).

Section KHop.
(** [getKHopNeighborIds] has the same text in both modules; it is written
    once over the module's own [getNeighbors]. *)
Variable getNeighbors : list Z → string → option string → Result (list string).

(** [twoHopNeighborId !== nodeId
     && !oneHopNeighbors.includes(twoHopNeighborId)] *)
Definition isNew (nodeId : string) (oneHopNeighbors : list string)
    (twoHopNeighborId : string) : Prop :=
  twoHopNeighborId ≠ nodeId ∧ twoHopNeighborId ∉ oneHopNeighbors.

#[global] Instance isNew_dec nodeId oneHopNeighbors x :
  Decision (isNew nodeId oneHopNeighbors x).
Proof. unfold isNew. apply _. Defined.

(** The inner [for] loop: the ids that pass the test are added to the set. *)
Definition addTwoHop (nodeId : string) (oneHopNeighbors : list string)
    (twoHopNeighbors neighborsOfNeighbor : list string) : list string :=
  foldl (fun acc twoHopNeighborId =>
           if decide (isNew nodeId oneHopNeighbors twoHopNeighborId)
           then Set_add acc twoHopNeighborId else acc)
        twoHopNeighbors neighborsOfNeighbor.

(** The outer [for] loop over the one-hop neighbours still to visit. *)
Fixpoint twoHopLoop (knowledgeGraphIds : list Z) (nodeId : string)
    (oneHopNeighbors : list string) (todo : list string)
    (twoHopNeighbors : list string) : Result (list string) :=
  match todo with
  | [] => Ok twoHopNeighbors
  | neighborId :: rest =>
      await neighborsOfNeighbor ← getNeighbors knowledgeGraphIds neighborId None;
      twoHopLoop knowledgeGraphIds nodeId oneHopNeighbors rest
        (addTwoHop nodeId oneHopNeighbors twoHopNeighbors neighborsOfNeighbor)
  end.

Definition getKHopNeighborIds (knowledgeGraphIds : list Z) (nodeId : string)
    (k : Hops) (edgeType : option string) : Result (list string) :=
  match k with
  | K1 => getNeighbors knowledgeGraphIds nodeId edgeType
  | K2 =>
      if truthy edgeType then Ok []
      else
        await oneHopNeighbors ← getNeighbors knowledgeGraphIds nodeId None;
        await twoHopNeighbors ←
          twoHopLoop knowledgeGraphIds nodeId oneHopNeighbors oneHopNeighbors [];
        Ok (oneHopNeighbors ++ twoHopNeighbors)
  end.

End KHop.

(** What a successful two-hop expansion looks like over a given
    [getNeighbors]: the one-hop list [N1], then the ids met while expanding
    the members of [N1] in order, each kept at its first discovery. *)
Definition twoHopContract
    (getNeighbors : list Z → string → option string → Result (list string))
    (knowledgeGraphIds : list Z) (nodeId : string) (edgeType : option string)
  : Prop :=
  ∃ nb : string → list string,
    (∀ m, getNeighbors knowledgeGraphIds m None = Ok (nb m))
    ∧ let N1 := nb nodeId in
      let N2 := new_Set (filter (isNew nodeId N1) (N1 ≫= nb)) in
      getKHopNeighborIds getNeighbors knowledgeGraphIds nodeId K1 None = Ok N1
      ∧ getKHopNeighborIds getNeighbors knowledgeGraphIds nodeId K2 edgeType
        = Ok (N1 ++ N2)
      ∧ NoDup N2
      ∧ (∀ x, x ∈ N2 → x ≠ nodeId ∧ x ∉ N1)
      ∧ (∀ x, x ≠ nodeId → x ∉ N1 → (∃ m, m ∈ N1 ∧ x ∈ nb m) → x ∈ N2).

End Common.

(** ** [src/db/queries.ts] *)

Module Db.

(** The tables [node] and [edge] of [schema.ts]. *)
Record Store : Type := mkStore {
  node : list Node.t;
  edge : list Edge.t
}.

Section Queries.
(** PostgreSQL's [col ILIKE pattern] on a nullable column. *)
Variable ilike : option string → string → bool.
Variable db : Store.

(** The [where] clause of [searchNodesByName]: each condition is left out
    ([undefined]) when its guard fails. *)
Definition nameSearchWhere (name : string) (knowledgeGraphIds : option (list Z))
    (n : Node.t) : Prop :=
  (if truthy (Some name)
   then ilike (Node.name n) ("%" +:+ name +:+ "%") = true else True)
  ∧ match knowledgeGraphIds with
    | Some ((_ :: _) as ids) => Node.knowledgeGraphId n ∈ ids
    | _ => True
    end.

#[global] Instance nameSearchWhere_dec name ids n :
  Decision (nameSearchWhere name ids n).
Proof.
  unfold nameSearchWhere. destruct (truthy (Some name)), ids as [[|]|]; apply _.
Defined.

Definition searchNodesByName (name : string)
    (knowledgeGraphIds : option (list Z)) (limit : nat) : Result (list Node.t) :=
  Ok (take limit (filter (nameSearchWhere name knowledgeGraphIds) (node db))).

Definition getNodesByIds (knowledgeGraphIds : list Z) (nodeIds : list string)
  : Result (list Node.t) :=
  match nodeIds with
  | [] => Ok []
  | _ =>
      Ok (filter (fun n => Node.knowledgeGraphId n ∈ knowledgeGraphIds
                           ∧ Node.id n ∈ nodeIds) (node db))
  end.

Definition getEdgesBetweenNodes (knowledgeGraphIds : list Z)
    (node1Id node2Id : string) : Result (list Edge.t) :=
  Ok (filter (fun e => Edge.knowledgeGraphId e ∈ knowledgeGraphIds
                       ∧ ((Edge.from e = node1Id ∧ Edge.to e = node2Id)
                          ∨ (Edge.from e = node2Id ∧ Edge.to e = node1Id)))
             (edge db)).

Definition getNeighbors (knowledgeGraphIds : list Z) (nodeId : string)
    (edgeType : option string) : Result (list string) :=
  let results :=
    new_Set ((fun e => (Edge.from e, Edge.to e))
               <$> filter (fun e => Edge.knowledgeGraphId e ∈ knowledgeGraphIds
                                    ∧ Common.touches nodeId e
                                    ∧ Common.typeFilter edgeType (Edge.type e))
                          (edge db)) in
  let neighborIdsSet :=
    new_Set ((fun row => Common.otherEnd nodeId row.1 row.2) <$> results) in
  Ok neighborIdsSet.

Definition getKHopNeighborIds :=
  Common.getKHopNeighborIds getNeighbors.

End Queries.

(** *** The join of [findPaths]

    How the outer query refers to a field of a sub-select, as Drizzle
    writes it: a table column by the sub-select's name and the column's
    name, a field built with [sql`...`.as(alias)] by its alias alone. *)
Inductive FieldRef : Type :=
| ColumnOf (subquery column : string)
| AliasOnly (alias : string).

(** A relation of the [FROM] clause: its name and its column names. *)
Definition Relation : Type := string * list string.

(** The two sub-selects; both name their computed column [neighborId],
    and [edgeType] is the table column [type]. *)
Definition source_neighbors : Relation :=
  ("source_neighbors", ["neighborId"; "type"]).
Definition destination_neighbors : Relation :=
  ("destination_neighbors", ["neighborId"; "type"]).

(** PostgreSQL's name resolution: a qualified reference needs that column
    in that relation, an unqualified one needs the column in exactly one
    relation of the [FROM] clause (with more than one the statement is
    rejected: the column reference is ambiguous). *)
Definition resolves (relations : list Relation) (r : FieldRef) : bool :=
  match r with
  | ColumnOf q c =>
      bool_decide (Exists (fun rel => rel.1 = q ∧ c ∈ rel.2) relations)
  | AliasOnly a =>
      bool_decide (length (filter (fun rel => a ∈ rel.2) relations) = 1%nat)
  end.

(** The fields the join selects and the two sides of its [ON] clause:
    [sourceNeighbors.neighborId], [sourceNeighbors.edgeType],
    [destinationNeighbors.edgeType], and
    [eq(sourceNeighbors.neighborId, destinationNeighbors.neighborId)]. *)
Definition intermediateNodesInfoRefs : list FieldRef :=
  [ AliasOnly "neighborId";
    ColumnOf "source_neighbors" "type";
    ColumnOf "destination_neighbors" "type";
    AliasOnly "neighborId"; AliasOnly "neighborId" ].

Section FindPaths.
Variable db : Store.

(** The body of [try]: the join is sent first, and the rest runs only if
    the engine accepts it; [catch] turns every failure into
    [Failed to find paths]. *)
Definition findPaths (knowledgeGraphIds : list Z)
    (sourceNodeId destinationNodeId : string) : Result (list Path) :=
  if forallb (resolves [source_neighbors; destination_neighbors])
             intermediateNodesInfoRefs
  then
    let authorized :=
      filter (fun e => Edge.knowledgeGraphId e ∈ knowledgeGraphIds) (edge db) in
    let sourceNeighbors := Common.neighborRows sourceNodeId authorized in
    let destinationNeighbors :=
      Common.neighborRows destinationNodeId authorized in
    let intermediateNodesInfo :=
      Common.innerJoin sourceNeighbors destinationNeighbors in
    match intermediateNodesInfo with
    | [] => Ok []
    | _ =>
        let ids := Common.nodeIdsToFetch intermediateNodesInfo
                     sourceNodeId destinationNodeId in
        let nodesInfo :=
          filter (fun n => Node.knowledgeGraphId n ∈ knowledgeGraphIds
                           ∧ Node.id n ∈ ids) (node db) in
        Ok (Common.pathsFrom intermediateNodesInfo nodesInfo
              sourceNodeId destinationNodeId)
    end
  else Throw FailedToFindPaths.

End FindPaths.
End Db.

(** ** [src/parquet-tools/queries.ts] *)

Module Parquet.

(** The columns of [nodes.parquet] and [edges.parquet]. *)
Record NodeRow : Type := mkNodeRow {
  id : string;
  name : option string;
  type : option string;
  properties : option string
}.

Record EdgeRow : Type := mkEdgeRow {
  from : string;
  to : string;
  etype : option string;
  eproperties : option string
}.

Record GraphFiles : Type := mkGraphFiles {
  knowledgeGraphId : Z;
  nodesPath : string;
  edgesPath : string
}.

(** [SELECT <id> AS "knowledgeGraphId", * FROM read_parquet(...)] *)
Definition tagNode (kg : Z) (r : NodeRow) : Node.t :=
  Node.mk kg (id r) (name r) (type r) (properties r).

Definition tagEdge (kg : Z) (r : EdgeRow) : Edge.t :=
  Edge.mk kg (from r) (to r) (etype r) (eproperties r).

(** The loop of the [GraphLoader] constructor over the graph directories
    that hold all three files: [(meta.id, nodesPath, edgesPath)]. *)
Definition loadFiles (entries : list (Z * string * string))
  : gmap Z GraphFiles :=
  foldl (fun files e => <[e.1.1 := mkGraphFiles e.1.1 e.1.2 e.2]> files)
        ∅ entries.

(** Every requested graph id is registered, and there is at least one. *)
Definition allKnown (files : gmap Z GraphFiles) (knowledgeGraphIds : list Z)
  : Prop :=
  knowledgeGraphIds ≠ []
  ∧ Forall (fun id => is_Some (files !! id)) knowledgeGraphIds.

#[global] Instance allKnown_dec files ids : Decision (allKnown files ids).
Proof. unfold allKnown. apply _. Defined.

(** Each entry of [files] is stored under its own graph id, as
    [GraphLoader] stores it. *)
Definition consistent (files : gmap Z GraphFiles) : Prop :=
  map_Forall (fun id f => knowledgeGraphId f = id) files.

(** [UNION ALL] of the registered graphs' parts, in the order asked. *)
Definition unionAll {R : Type} (files : gmap Z GraphFiles)
    (part : GraphFiles → list R) (knowledgeGraphIds : list Z) : list R :=
  mjoin ((fun id => from_option part [] (files !! id)) <$> knowledgeGraphIds).

Section Queries.
(** DuckDB's [col ILIKE pattern]. *)
Variable ilike : option string → string → bool.
(** [read_parquet(path)] for node and for edge files. *)
Variable read_nodes : string → list NodeRow.
Variable read_edges : string → list EdgeRow.
Variable files : gmap Z GraphFiles.

(** The relation a [...Source] expression denotes.  With no graph id the
    expression is [()], on which every query fails to parse. *)
Definition sourceOf {R : Type} (part : GraphFiles → list R)
    (knowledgeGraphIds : list Z) : Result (list R) :=
  let lookup (id : Z) : Result (list R) :=
    match files !! id with
    | Some f => Ok (part f)
    | None => Throw (UnknownGraphId id)
    end in
  match knowledgeGraphIds with
  | [id] => lookup id
  | _ =>
      await parts ← mapM lookup knowledgeGraphIds;
      match parts with
      | [] => Throw EmptyFromClause
      | _ => Ok (mjoin parts)
      end
  end.

(** [SELECT ${f.knowledgeGraphId} AS "knowledgeGraphId", *
     FROM read_parquet('${f.nodesPath}')], and the same for edges. *)
Definition nodesPart (f : GraphFiles) : list Node.t :=
  tagNode (knowledgeGraphId f) <$> read_nodes (nodesPath f).

Definition edgesPart (f : GraphFiles) : list Edge.t :=
  tagEdge (knowledgeGraphId f) <$> read_edges (edgesPath f).

Definition nodesSource : list Z → Result (list Node.t) := sourceOf nodesPart.

Definition edgesSource : list Z → Result (list Edge.t) := sourceOf edgesPart.

(** When [knowledgeGraphIds] is left out all registered graphs are
    searched; the order of [files.keys()] is not modelled, and the tools
    always pass the list. *)
Definition searchNodesByName (name : string)
    (knowledgeGraphIds : option (list Z)) (limit : nat) : Result (list Node.t) :=
  let kgIds := default (map_to_list files).*1 knowledgeGraphIds in
  match kgIds with
  | [] => Ok []
  | _ =>
      await src ← nodesSource kgIds;
      Ok (take limit
            (filter (fun n => ilike (Node.name n) ("%" +:+ name +:+ "%") = true)
                    src))
  end.

Definition getNodesByIds (knowledgeGraphIds : list Z) (nodeIds : list string)
  : Result (list Node.t) :=
  match nodeIds with
  | [] => Ok []
  | _ =>
      await src ← nodesSource knowledgeGraphIds;
      Ok (filter (fun n => Node.id n ∈ nodeIds) src)
  end.

Definition getEdgesBetweenNodes (knowledgeGraphIds : list Z)
    (node1Id node2Id : string) : Result (list Edge.t) :=
  await src ← edgesSource knowledgeGraphIds;
  Ok (filter (fun e => (Edge.from e = node1Id ∧ Edge.to e = node2Id)
                       ∨ (Edge.from e = node2Id ∧ Edge.to e = node1Id)) src).

Definition getNeighbors (knowledgeGraphIds : list Z) (nodeId : string)
    (edgeType : option string) : Result (list string) :=
  await src ← edgesSource knowledgeGraphIds;
  let rows :=
    new_Set ((fun e => Common.otherEnd nodeId (Edge.from e) (Edge.to e))
               <$> filter (fun e => Common.touches nodeId e
                                    ∧ Common.typeFilter edgeType (Edge.type e))
                          src) in
  Ok rows.

Definition getKHopNeighborIds :=
  Common.getKHopNeighborIds getNeighbors.

Definition findPaths (knowledgeGraphIds : list Z)
    (sourceNodeId destinationNodeId : string) : Result (list Path) :=
  await edgeSrc ← edgesSource knowledgeGraphIds;
  await nodeSrc ← nodesSource knowledgeGraphIds;
  let intermediateNodesInfo :=
    Common.innerJoin (Common.neighborRows sourceNodeId edgeSrc)
                     (Common.neighborRows destinationNodeId edgeSrc) in
  match intermediateNodesInfo with
  | [] => Ok []
  | _ =>
      let allNodeIds := Common.nodeIdsToFetch intermediateNodesInfo
                          sourceNodeId destinationNodeId in
      await nodesInfo ← getNodesByIds knowledgeGraphIds allNodeIds;
      Ok (Common.pathsFrom intermediateNodesInfo nodesInfo
            sourceNodeId destinationNodeId)
  end.

End Queries.
End Parquet.

(** ** JavaScript string methods used by the tool *)

Module JsString.

Definition lowerChar (c : ascii) : ascii :=
  let n := Ascii.nat_of_ascii c in
  if (65 <=? n)%nat && (n <=? 90)%nat then Ascii.ascii_of_nat (n + 32) else c.

(** [s.toLowerCase()] *)
Fixpoint toLowerCase (s : string) : string :=
  match s with
  | EmptyString => EmptyString
  | String c s' => String (lowerChar c) (toLowerCase s')
  end.

(** [s.includes(sub)] *)
Fixpoint includes (s sub : string) : bool :=
  String.prefix sub s
  || match s with
     | EmptyString => false
     | String _ s' => includes s' sub
     end.

(** [s.replace(pat, rep)] with one-character strings [pat] and [rep]: only
    the first occurrence is replaced. *)
Fixpoint replace (pat rep : ascii) (s : string) : string :=
  match s with
  | EmptyString => EmptyString
  | String c s' =>
      if decide (c = pat) then String rep s' else String c (replace pat rep s')
  end.

(** [s.replaceAll(pat, rep)] with one-character strings. *)
Fixpoint replaceAll (pat rep : ascii) (s : string) : string :=
  match s with
  | EmptyString => EmptyString
  | String c s' =>
      String (if decide (c = pat) then rep else c) (replaceAll pat rep s')
  end.

(** [s.split(sep)] with a one-character separator; the pieces between
    two adjacent separators are empty strings. *)
Fixpoint split (sep : ascii) (s : string) : list string :=
  match s with
  | EmptyString => [EmptyString]
  | String c s' =>
      if decide (c = sep) then EmptyString :: split sep s'
      else match split sep s' with
           | piece :: pieces => String c piece :: pieces
           | [] => [String c EmptyString]
           end
  end.

(** The number of occurrences of a character. *)
Fixpoint countChar (c : ascii) (s : string) : nat :=
  match s with
  | EmptyString => 0
  | String c' s' => (if decide (c' = c) then 1 else 0) + countChar c s'
  end.

(** [words.join(sep)] *)
Fixpoint join (sep : string) (words : list string) : string :=
  match words with
  | [] => EmptyString
  | [w] => w
  | w :: ws => w +:+ sep +:+ join sep ws
  end.

End JsString.

(** [Array.prototype.sort(compare)]: a stable sort; an element moves in
    front of another only when [compare] is positive for the pair in their
    current order. *)
Section ArraySort.
Context {A : Type} (compare : A → A → Z).

Fixpoint sortInsert (x : A) (l : list A) : list A :=
  match l with
  | [] => [x]
  | y :: l' => if decide (compare x y ≤ 0) then x :: l else y :: sortInsert x l'
  end.

Definition Array_sort (l : list A) : list A := foldr sortInsert [] l.

End ArraySort.

(** ** [tools.ts] *)

Module Tools.

(** [ReturnType<typeof createQueries>], which the functions exported by
    [db/queries.ts] implement as well. *)
Record Queries : Type := mkQueries {
  searchNodesByName : string → option (list Z) → nat → Result (list Node.t);
  getNodesByIds : list Z → list string → Result (list Node.t);
  getEdgesBetweenNodes : list Z → string → string → Result (list Edge.t);
  getNeighbors : list Z → string → option string → Result (list string);
  getKHopNeighborIds :
    list Z → string → Hops → option string → Result (list string);
  findPaths : list Z → string → string → Result (list Path)
}.

Definition STOPWORDS : list string :=
  [ "the"; "a"; "an"; "and"; "or"; "but"; "in"; "on"; "at"; "to"; "for";
    "of"; "with"; "by"; "is"; "are"; "was"; "were"; "be"; "been"; "have";
    "has"; "had"; "do"; "does"; "did"; "will"; "would"; "could"; "should";
    "may"; "might"; "can"; "must"; "shall"; "this"; "that"; "these";
    "those"; "i"; "you"; "he"; "she"; "it"; "we"; "they"; "me"; "him";
    "her"; "us"; "them" ].

(** The argument object of [execute]; [k] has passed the schema
    [z.enum(["1", "2"]).optional()], so the guard [hops !== 1 && hops !== 2]
    never fires. *)
Record Input : Type := mkInput {
  nodeId : string;
  query : option string;
  nodeType : option string;
  edgeType : option string;
  k : option Hops
}.

(** An element of [candidatesWithQuery] and of the returned [neighbors]:
    the five node columns and whichever further fields the object has. *)
Record Neighbor : Type := mkNeighbor {
  node : Node.t;
  relevance : option nat;
  appearingWords : option (list string);
  matchExplanation : option string;
  edgesToCandidate : option (list (option string));
  edgesFromCandidate : option (list (option string))
}.

Record Response : Type := mkResponse {
  mainNode : Node.t;
  neighbors : list Neighbor
}.

(** An object with the node columns only. *)
Definition bare (n : Node.t) : Neighbor :=
  mkNeighbor n None None None None None.

(** [query.replace("-", " ").split(" ").map((w) => w.toLowerCase())
     .filter((w) => !STOPWORDS.includes(w))] *)
Definition queryWords (query : string) : list string :=
  filter (fun w => w ∉ STOPWORDS)
    (JsString.toLowerCase
       <$> JsString.split " " (JsString.replace "-" " " query)).

(** [c.name?.toLowerCase().includes(query.toLowerCase())] *)
Definition inName (query : string) (c : Node.t) : bool :=
  match Node.name c with
  | Some name =>
      JsString.includes (JsString.toLowerCase name) (JsString.toLowerCase query)
  | None => false
  end.

(** [c.properties?.toLowerCase().includes(qw)] *)
Definition inProperties (c : Node.t) (qw : string) : bool :=
  match Node.properties c with
  | Some p => JsString.includes (JsString.toLowerCase p) qw
  | None => false
  end.

(** [queryWords.filter((qw) => c.properties?.toLowerCase().includes(qw))] *)
Definition appearingWordsOf (queryWords : list string) (c : Node.t)
  : list string :=
  filter (fun qw => inProperties c qw = true) queryWords.

(** The tokenization as the specification words it: every hyphen becomes
    a space, the text is lower-cased and split at white space, and the stop
    words are removed.  White space is the space, tab, line feed, vertical
    tab, form feed and carriage return; a piece ends at each of them. *)
Definition isWhitespace (c : ascii) : bool :=
  bool_decide (c ∈ [" "; "009"; "010"; "011"; "012"; "013"]%char).

Fixpoint splitWhitespace (s : string) : list string :=
  match s with
  | EmptyString => [EmptyString]
  | String c s' =>
      if isWhitespace c then EmptyString :: splitWhitespace s'
      else match splitWhitespace s' with
           | piece :: pieces => String c piece :: pieces
           | [] => [String c EmptyString]
           end
  end.

Definition tokenizeSpec (query : string) : list string :=
  filter (fun w => w ∉ STOPWORDS)
    (splitWhitespace
       (JsString.toLowerCase (JsString.replaceAll "-" " " query))).

(** [{ ...c, relevance: appearingWords.length, appearingWords }] *)
Definition withRelevance (queryWords : list string) (c : Node.t) : Neighbor :=
  let appearingWords := appearingWordsOf queryWords c in
  mkNeighbor c (Some (length appearingWords)) (Some appearingWords)
             None None None.

Definition relevanceOf (c : Neighbor) : nat := default 0%nat (relevance c).

(** [`${c.relevance} match${c.relevance === 1 ? "" : "es"}:
      ${c.appearingWords.join(", ")}`] *)
Definition explanation (c : Neighbor) : string :=
  pretty (relevanceOf c) +:+ " match"
  +:+ (if decide (relevanceOf c = 1%nat) then "" else "es")
  +:+ ": " +:+ JsString.join ", " (default [] (appearingWords c)).

(** [{ ...c, matchExplanation }] *)
Definition withExplanation (c : Neighbor) : Neighbor :=
  mkNeighbor (node c) (relevance c) (appearingWords c) (Some (explanation c))
             (edgesToCandidate c) (edgesFromCandidate c).

(** [(a, b) => b.relevance - a.relevance] *)
Definition byRelevance (a b : Neighbor) : Z :=
  Z.of_nat (relevanceOf b) - Z.of_nat (relevanceOf a).

Definition candidatesInName (query : string) (candidates : list Node.t)
  : list Node.t :=
  filter (fun c => inName query c = true) candidates.

Definition candidatesInProperties (query : string) (candidates : list Node.t)
  : list Neighbor :=
  let named := candidatesInName query candidates in
  withExplanation
    <$> Array_sort byRelevance
          (filter (fun c => (0 < relevanceOf c)%nat)
             (withRelevance (queryWords query)
                <$> (filter (fun c => (Node.id c ∉ Node.id <$> named)
                                      ∧ truthy (Node.properties c) = true)
                            candidates))).

(** The body of [if (query) { ... }]. *)
Definition rankCandidates (query : string) (candidates : list Node.t)
  : list Neighbor :=
  (bare <$> candidatesInName query candidates)
  ++ candidatesInProperties query candidates.

(** The callback of [Promise.all(candidatesWithQuery.map(...))]. *)
Definition withEdges (edges : list Edge.t) (nodeId : string)
    (candidate : Neighbor) : Neighbor :=
  mkNeighbor (node candidate) (relevance candidate) (appearingWords candidate)
    (matchExplanation candidate)
    (Some (Edge.type <$> filter (fun e => Edge.from e = nodeId) edges))
    (Some (Edge.type <$> filter (fun e => Edge.to e = nodeId) edges)).

(** [if (nodeType) candidates = candidates.filter((c) => c.type === nodeType)] *)
Definition byNodeType (nodeType : option string) (fetched : list Node.t)
  : list Node.t :=
  if truthy nodeType
  then filter (fun c => Node.type c = nodeType) fetched
  else fetched.

(** [candidatesWithQuery]: the candidates as fetched, or ranked when
    [query] is truthy. *)
Definition withQuery (query : option string) (candidates : list Node.t)
  : list Neighbor :=
  match query with
  | Some q =>
      if truthy (Some q) then rankCandidates q candidates
      else bare <$> candidates
  | None => bare <$> candidates
  end.

(** The objects of the two-hop response: [({ type, name, id,
    knowledgeGraphId, properties }) => ({ type, name, id, knowledgeGraphId,
    properties })]. *)
Definition nodeFieldsOnly (c : Neighbor) : Neighbor := bare (node c).

Section SearchInSurroundings.
Variable knowledgeGraphIds : list Z.
Variable queries : Queries.

(** [makeSearchInSurroundingsTool(knowledgeGraphIds, queries).execute] *)
Definition execute (input : Input) : Result Response :=
  let hops := default K1 (k input) in
  if bool_decide (hops = K2) && truthy (edgeType input)
  then Throw EdgeTypeWithK2
  else
    await mainNodes ← getNodesByIds queries knowledgeGraphIds [nodeId input];
    match mainNodes with
    | [] => Throw (NodeNotFound (nodeId input))
    | mainNode :: _ =>
        await neighborIds ←
          getKHopNeighborIds queries knowledgeGraphIds (nodeId input) hops
            (edgeType input);
        await fetched ← getNodesByIds queries knowledgeGraphIds neighborIds;
        let candidates := byNodeType (nodeType input) fetched in
        let candidatesWithQuery := withQuery (query input) candidates in
        match hops with
        | K1 =>
            await candidatesWithEdges ←
              mapM (fun candidate =>
                      await edges ←
                        getEdgesBetweenNodes queries knowledgeGraphIds
                          (nodeId input) (Node.id (node candidate));
                      Ok (withEdges edges (nodeId input) candidate))
                   candidatesWithQuery;
            Ok (mkResponse mainNode candidatesWithEdges)
        | K2 =>
            Ok (mkResponse mainNode (nodeFieldsOnly <$> candidatesWithQuery))
        end
    end.

(** [makeFindNodesByNameTool(knowledgeGraphIds, queries).execute] *)
Definition findNodesByName (name : string) : Result (list Node.t) :=
  searchNodesByName queries name (Some knowledgeGraphIds) 10.

(** [makeGetNeighborsByNodeIdTool(knowledgeGraphIds, queries).execute] *)
Definition getNeighborsByNodeId (nodeId : string) (edgeType : option string)
  : Result (list string) :=
  getNeighbors queries knowledgeGraphIds nodeId edgeType.

End SearchInSurroundings.

(** The query functions of the two stores as [Queries]. *)
Definition dbQueries (ilike : option string → string → bool) (db : Db.Store)
  : Queries :=
  mkQueries (Db.searchNodesByName ilike db) (Db.getNodesByIds db)
    (Db.getEdgesBetweenNodes db) (Db.getNeighbors db)
    (Db.getKHopNeighborIds db) (Db.findPaths db).

Definition createQueries (ilike : option string → string → bool)
    (read_nodes : string → list Parquet.NodeRow)
    (read_edges : string → list Parquet.EdgeRow)
    (files : gmap Z Parquet.GraphFiles) : Queries :=
  mkQueries (Parquet.searchNodesByName ilike read_nodes files)
    (Parquet.getNodesByIds read_nodes files)
    (Parquet.getEdgesBetweenNodes read_edges files)
    (Parquet.getNeighbors read_edges files)
    (Parquet.getKHopNeighborIds read_edges files)
    (Parquet.findPaths read_nodes read_edges files).

End Tools.

(** ** Records of authorized graphs *)

Definition authorizedNode (g : list Z) (n : Node.t) : Prop :=
  Node.knowledgeGraphId n ∈ g.

Definition authorizedEdge (g : list Z) (e : Edge.t) : Prop :=
  Edge.knowledgeGraphId e ∈ g.

Definition authorizedPath (g : list Z) (p : Path) : Prop :=
  Forall (fun l => authorizedNode g (tailNode l)
                   ∧ authorizedNode g (headNode l)) (legs p).

Definition authorizedResponse (g : list Z) (r : Tools.Response) : Prop :=
  authorizedNode g (Tools.mainNode r)
  ∧ Forall (fun c => authorizedNode g (Tools.node c)) (Tools.neighbors r).

(** ** A small store, in both representations

    Graph 1: Metformin -treats-> Diabetes -involves-> Enzyme X, a second
    edge Metformin -affects-> Diabetes, Insulin -treats-> Diabetes and a
    loop on Enzyme X.  Graph 2 holds one more node and edge. *)

Module Example.

Definition rowA : Parquet.NodeRow :=
  Parquet.mkNodeRow "A" (Some "Metformin") (Some "drug") None.
Definition rowB : Parquet.NodeRow :=
  Parquet.mkNodeRow "B" (Some "Diabetes") (Some "disease")
    (Some "{note: treats metformin response}").
Definition rowC : Parquet.NodeRow :=
  Parquet.mkNodeRow "C" (Some "Enzyme X") (Some "protein")
    (Some "{note: Glucose uptake, insulin response}").
Definition rowD : Parquet.NodeRow :=
  Parquet.mkNodeRow "D" (Some "Insulin") (Some "drug")
    (Some "{note: lowers glucose}").
Definition rowE : Parquet.NodeRow :=
  Parquet.mkNodeRow "E" (Some "Aspirin") (Some "drug") None.

Definition edgeAB : Parquet.EdgeRow :=
  Parquet.mkEdgeRow "A" "B" (Some "treats") None.
Definition edgeBC : Parquet.EdgeRow :=
  Parquet.mkEdgeRow "B" "C" (Some "involves") None.
Definition edgeAB' : Parquet.EdgeRow :=
  Parquet.mkEdgeRow "A" "B" (Some "affects") None.
Definition edgeDB : Parquet.EdgeRow :=
  Parquet.mkEdgeRow "D" "B" (Some "treats") None.
Definition edgeCC : Parquet.EdgeRow :=
  Parquet.mkEdgeRow "C" "C" (Some "binds") None.
Definition edgeEA : Parquet.EdgeRow :=
  Parquet.mkEdgeRow "E" "A" (Some "replaces") None.

Definition nodes1 : list Parquet.NodeRow := [rowA; rowB; rowC; rowD].
Definition edges1 : list Parquet.EdgeRow :=
  [edgeAB; edgeBC; edgeAB'; edgeDB; edgeCC].
Definition nodes2 : list Parquet.NodeRow := [rowE; rowA].
Definition edges2 : list Parquet.EdgeRow := [edgeEA].

Definition db : Db.Store :=
  Db.mkStore
    ((Parquet.tagNode 1 <$> nodes1) ++ (Parquet.tagNode 2 <$> nodes2))
    ((Parquet.tagEdge 1 <$> edges1) ++ (Parquet.tagEdge 2 <$> edges2)).

Definition files : gmap Z Parquet.GraphFiles :=
  Parquet.loadFiles
    [ (1, "data/g1/nodes.parquet", "data/g1/edges.parquet");
      (2, "data/g2/nodes.parquet", "data/g2/edges.parquet") ].

Definition read_nodes (path : string) : list Parquet.NodeRow :=
  if decide (path = "data/g1/nodes.parquet") then nodes1
  else if decide (path = "data/g2/nodes.parquet") then nodes2
  else [].

Definition read_edges (path : string) : list Parquet.EdgeRow :=
  if decide (path = "data/g1/edges.parquet") then edges1
  else if decide (path = "data/g2/edges.parquet") then edges2
  else [].

(** A stand-in for the engines' [ILIKE]: the pattern without its two [%]
    is looked for in the lower-cased column. *)
Definition ilike (col : option string) (pattern : string) : bool :=
  match col with
  | Some s =>
      JsString.includes (JsString.toLowerCase s)
        (JsString.toLowerCase
           (String.substring 1 (String.length pattern - 2) pattern))
  | None => false
  end.

(** Two words separated by a tab. *)
Definition tabbedQuery : string := "heart" +:+ String "009" "attack".

(** Around Diabetes, one hop, looking for "insulin": Insulin matches by
    name, Enzyme X by its properties. *)
Definition oneHopInput : Tools.Input :=
  Tools.mkInput "B" (Some "insulin") None None None.

(** Around Metformin, two hops, looking for "glucose insulin": Enzyme X
    and Insulin match by their properties. *)
Definition twoHopInput : Tools.Input :=
  Tools.mkInput "A" (Some "glucose insulin") None None (Some K2).

Definition dbQueries : Tools.Queries := Tools.dbQueries ilike db.
Definition parquetQueries : Tools.Queries :=
  Tools.createQueries ilike read_nodes read_edges files.

End Example.

(** ** A second store, for the ranking

    Around the hub [M] of graph 1: [N] matches the query
    "kinase inhibitor" by name; [P1], [P2], [P3] mention one, both and one
    of its two words in their properties and [P4] none; [P] and [Q] serve
    the query "x1 x1 x1 y1 z1"; and the id [X] is used in both graphs, by
    a node named after a kinase in graph 1 and by one that only mentions
    it in its properties in graph 2. *)

Module RankingExample.

Definition hub : Parquet.NodeRow :=
  Parquet.mkNodeRow "M" (Some "Hub") (Some "gene") None.
Definition rowN : Parquet.NodeRow :=
  Parquet.mkNodeRow "N" (Some "Kinase inhibitor 7") (Some "drug")
    (Some "{note: approved}").
Definition rowP1 : Parquet.NodeRow :=
  Parquet.mkNodeRow "P1" (Some "Alpha") (Some "protein")
    (Some "{note: a kinase}").
Definition rowP2 : Parquet.NodeRow :=
  Parquet.mkNodeRow "P2" (Some "Beta") (Some "protein")
    (Some "{note: Kinase inhibitor target}").
Definition rowP3 : Parquet.NodeRow :=
  Parquet.mkNodeRow "P3" (Some "Gamma") (Some "protein")
    (Some "{note: inhibitor}").
Definition rowP4 : Parquet.NodeRow :=
  Parquet.mkNodeRow "P4" (Some "Delta") (Some "protein")
    (Some "{note: unrelated}").
Definition rowP : Parquet.NodeRow :=
  Parquet.mkNodeRow "P" (Some "Rho") (Some "protein") (Some "{note: x1}").
Definition rowQ : Parquet.NodeRow :=
  Parquet.mkNodeRow "Q" (Some "Sigma") (Some "protein")
    (Some "{note: y1 with z1}").
Definition rowX1 : Parquet.NodeRow :=
  Parquet.mkNodeRow "X" (Some "Kinase A") (Some "protein") None.
Definition rowX2 : Parquet.NodeRow :=
  Parquet.mkNodeRow "X" (Some "Other") (Some "protein")
    (Some "{note: kinase pathway}").

Definition linked (id : string) : Parquet.EdgeRow :=
  Parquet.mkEdgeRow "M" id (Some "linked") None.

Definition db : Db.Store :=
  Db.mkStore
    ((Parquet.tagNode 1
        <$> [hub; rowN; rowP1; rowP2; rowP3; rowP4; rowP; rowQ; rowX1])
     ++ (Parquet.tagNode 2 <$> [hub; rowX2]))
    ((Parquet.tagEdge 1
        <$> (linked <$> ["N"; "P1"; "P2"; "P3"; "P4"; "P"; "Q"; "X"]))
     ++ [Parquet.tagEdge 2 (linked "X")]).

Definition queries : Tools.Queries := Tools.dbQueries Example.ilike db.

(** One hop around the hub with the given query. *)
Definition input (query : string) : Tools.Input :=
  Tools.mkInput "M" (Some query) None None None.

End RankingExample.

(** ** [scripts/export-data.ts] *)

Module ExportData.

(** A character of the class [[a-z0-9]]. *)
Definition isAlnum (c : ascii) : bool :=
  let n := Ascii.nat_of_ascii c in
  ((97 <=? n)%nat && (n <=? 122)%nat) || ((48 <=? n)%nat && (n <=? 57)%nat).

(** [s.trim()], as [trimEnd] after [trimStart]. *)
Fixpoint trimStart (s : string) : string :=
  match s with
  | EmptyString => EmptyString
  | String c s' => if Tools.isWhitespace c then trimStart s' else s
  end.

Fixpoint trimEnd (s : string) : string :=
  match s with
  | EmptyString => EmptyString
  | String c s' =>
      let rest := trimEnd s' in
      if Tools.isWhitespace c && bool_decide (rest = EmptyString)
      then EmptyString else String c rest
  end.

Definition trim (s : string) : string := trimEnd (trimStart s).

(** [s.replace(/[^a-z0-9]+/g, "-")]: every maximal run of other characters
    becomes one hyphen; [inRun] tells that such a run is being skipped. *)
Fixpoint hyphenate (inRun : bool) (s : string) : string :=
  match s with
  | EmptyString => EmptyString
  | String c s' =>
      if isAlnum c then String c (hyphenate false s')
      else if inRun then hyphenate true s'
      else String "-" (hyphenate true s')
  end.

(** [s.replace(/^-+|-+$/g, "")] *)
Fixpoint dropLeadingHyphens (s : string) : string :=
  match s with
  | EmptyString => EmptyString
  | String c s' => if decide (c = "-"%char) then dropLeadingHyphens s' else s
  end.

Fixpoint dropTrailingHyphens (s : string) : string :=
  match s with
  | EmptyString => EmptyString
  | String c s' =>
      let rest := dropTrailingHyphens s' in
      if bool_decide (c = "-"%char) && bool_decide (rest = EmptyString)
      then EmptyString else String c rest
  end.

Definition slugify (name : string) : string :=
  dropTrailingHyphens
    (dropLeadingHyphens
       (hyphenate false (trim (JsString.toLowerCase name)))).

(** The shape of a slug: letters and digits in groups that single hyphens
    separate.  [afterAlnum] tells that the previous character was a letter
    or a digit, which a hyphen and the end of the text both need. *)
Fixpoint slugFrom (afterAlnum : bool) (s : string) : bool :=
  match s with
  | EmptyString => afterAlnum
  | String c s' =>
      if isAlnum c then slugFrom true s'
      else bool_decide (c = "-"%char) && afterAlnum && slugFrom false s'
  end.

Definition isSlug (s : string) : bool :=
  bool_decide (s = EmptyString) || slugFrom false s.

(** [escapeSQL], and [esc] of the parquet queries: [s.replace(/'/g, "''")] *)
Fixpoint escapeSQL (s : string) : string :=
  match s with
  | EmptyString => EmptyString
  | String c s' =>
      if decide (c = "'"%char)
      then String "'" (String "'" (escapeSQL s'))
      else String c (escapeSQL s')
  end.

(** How SQL reads a single-quoted literal whose opening quote has been
    consumed: two quotes stand for one, a lone quote ends the literal.
    The result is the value and the text that follows the literal. *)
Fixpoint readLiteral (s : string) : option (string * string) :=
  match s with
  | EmptyString => None
  | String c s' =>
      if decide (c = "'"%char) then
        match s' with
        | String c' s'' =>
            if decide (c' = "'"%char)
            then (fun r => (String "'" r.1, r.2)) <$> readLiteral s''
            else Some (EmptyString, s')
        | EmptyString => Some (EmptyString, s')
        end
      else (fun r => (String c r.1, r.2)) <$> readLiteral s'
  end.

(** [SELECT id, name, type, properties FROM pg.node
     WHERE "knowledgeGraphId" = ${graph.id}], and the same for edges. *)
Definition exportedNodes (db : Db.Store) (graphId : Z)
  : list Parquet.NodeRow :=
  (fun n => Parquet.mkNodeRow (Node.id n) (Node.name n) (Node.type n)
              (Node.properties n))
    <$> filter (fun n => Node.knowledgeGraphId n = graphId) (Db.node db).

Definition exportedEdges (db : Db.Store) (graphId : Z)
  : list Parquet.EdgeRow :=
  (fun e => Parquet.mkEdgeRow (Edge.from e) (Edge.to e) (Edge.type e)
              (Edge.properties e))
    <$> filter (fun e => Edge.knowledgeGraphId e = graphId) (Db.edge db).

Record ExportProgress : Type := mkProgress {
  nodesComplete : bool;
  edgesComplete : bool
}.

Definition emptyProgress : ExportProgress := mkProgress false false.

(** A row of [pg.knowledge_graph]. *)
Record KnowledgeGraph : Type := mkKnowledgeGraph {
  id : Z;
  name : string;
  description : string
}.

(** The files of one graph directory; [None] is a missing file, and for
    the progress file also one that does not parse. *)
Record GraphDir : Type := mkGraphDir {
  progressFile : option ExportProgress;
  graphJson : option KnowledgeGraph;
  nodesParquet : option (list Parquet.NodeRow);
  edgesParquet : option (list Parquet.EdgeRow)
}.

(** A directory as [mkdir] creates it. *)
Definition emptyDir : GraphDir := mkGraphDir None None None None.

Definition loadProgress (dir : GraphDir) : ExportProgress :=
  default emptyProgress (progressFile dir).

(** The body of the loop over the graphs, from [loadProgress] on. *)
Definition exportGraph (db : Db.Store) (graph : KnowledgeGraph)
    (dir : GraphDir) : GraphDir :=
  let progress := loadProgress dir in
  if nodesComplete progress && edgesComplete progress then dir
  else
    let dir1 :=
      mkGraphDir (progressFile dir) (Some graph)
                 (nodesParquet dir) (edgesParquet dir) in
    let progress2 :=
      if nodesComplete progress then progress
      else mkProgress true (edgesComplete progress) in
    let dir2 :=
      if nodesComplete progress then dir1
      else mkGraphDir (Some progress2) (graphJson dir1)
                      (Some (exportedNodes db (id graph)))
                      (edgesParquet dir1) in
    if edgesComplete progress2 then dir2
    else mkGraphDir (Some (mkProgress (nodesComplete progress2) true))
                    (graphJson dir2) (nodesParquet dir2)
                    (Some (exportedEdges db (id graph))).

(** The loop of [main] over the graphs; the data directory maps a slug to
    its graph directory.  [None] is the error for an empty slug, which ends
    the run; what was written before it is not part of the result. *)
Fixpoint exportAll (db : Db.Store) (graphs : list KnowledgeGraph)
    (data : gmap string GraphDir) : option (gmap string GraphDir) :=
  match graphs with
  | [] => Some data
  | graph :: rest =>
      let slug := slugify (name graph) in
      if decide (slug = EmptyString) then None
      else
        let dir := default emptyDir (data !! slug) in
        exportAll db rest (<[slug := exportGraph db graph dir]> data)
  end.

End ExportData.

(** ** Vocabulary for the properties of the queries *)

(** An edge that runs between [a] and [b], in either direction: the
    condition of [getEdgesBetweenNodes]. *)
Definition joins (e : Edge.t) (a b : string) : Prop :=
  (Edge.from e = a ∧ Edge.to e = b) ∨ (Edge.from e = b ∧ Edge.to e = a).

#[global] Instance joins_dec e a b : Decision (joins e a b).
Proof. unfold joins. apply _. Defined.

(** The primary key of the [node] table, [(knowledgeGraphId, id)]. *)
Definition nodeKey (n : Node.t) : Z * string :=
  (Node.knowledgeGraphId n, Node.id n).

(** ** The tool set: [makeGraphTools] of [src/parquet-tools/tools.ts] *)

Module GraphTools.


(** An element of the answer of [getNodeDetails]: the node columns and
    [knowledgeGraphName]. *)
Record NodeDetails : Type := mkNodeDetails {
  node : Node.t;
  knowledgeGraphName : string
}.

(** An element of the answer of [listAvailableGraphs]. *)
Record GraphInfo : Type := mkGraphInfo {
  graphId : string;
  graphName : string;
  graphDescription : string;
  graphCategory : option string;
  graphShortDescription : option string
}.

(** The [execute] functions of the four querying tools. *)
Record QueryingTools : Type := mkQueryingTools {
  findNodesByName : string → Result (list Node.t);
  getNodeDetails : string → Result (list NodeDetails);
  getNeighborsByNodeId : string → option string → Result (list string);
  searchInSurroundings : Tools.Input → Result Tools.Response
}.

(** The object [makeGraphTools] returns; [queryingTools] is [None] when
    the four querying tools are left out. *)
Record t : Type := mk {
  listAvailableGraphs : list GraphInfo;
  queryingTools : option QueryingTools
}.






End GraphTools.


(** The relevance as the specification words it: the number of distinct
    query tokens found in the properties text. *)
Definition relevanceSpec (query : string) (c : Node.t) : nat :=
  length (new_Set (filter (fun t => Tools.inProperties c t = true)
                          (Tools.tokenizeSpec query))).

(** A property match as the specification words it: a candidate that is not
    a name match itself, with a non-empty properties text in which at least
    one query token occurs. *)
Definition propertyMatchSpec (query : string) (c : Node.t) : Prop :=
  Tools.inName query c = false
  ∧ truthy (Node.properties c) = true
  ∧ (0 < relevanceSpec query c)%nat.

(** The graph ids that reach JavaScript as numbers from either engine:
    DuckDB types an integer literal within 32 bits as [INTEGER] and hands
    it back as a number, a larger one as a [BigInt]. *)
Definition fitsInt32 (id : Z) : Prop := -2147483648 ≤ id ≤ 2147483647.

(** The rows of a store that belong to the graphs [g], in storage order. *)
Definition dbEdges (db : Db.Store) (g : list Z) : list Edge.t :=
  filter (fun e => Edge.knowledgeGraphId e ∈ g) (Db.edge db).

Definition dbNodes (db : Db.Store) (g : list Z) : list Node.t :=
  filter (fun n => Node.knowledgeGraphId n ∈ g) (Db.node db).

Definition parquetEdges (read_edges : string → list Parquet.EdgeRow)
    (files : gmap Z Parquet.GraphFiles) (g : list Z) : list Edge.t :=
  Parquet.unionAll files (Parquet.edgesPart read_edges) g.

Definition parquetNodes (read_nodes : string → list Parquet.NodeRow)
    (files : gmap Z Parquet.GraphFiles) (g : list Z) : list Node.t :=
  Parquet.unionAll files (Parquet.nodesPart read_nodes) g.

(** What both [findPaths] compute once the edge rows [E] and the node
    rows [N] of the requested graphs are at hand. *)
Definition twoLegPaths (E : list Edge.t) (N : list Node.t) (a b : string)
  : list Path :=
  let info :=
    Common.innerJoin (Common.neighborRows a E) (Common.neighborRows b E) in
  Common.pathsFrom info
    (filter (fun n => Node.id n ∈ Common.nodeIdsToFetch info a b) N) a b.

(** The foreign keys of the [edge] table, read within the graphs at hand:
    both ends of every edge have a node row. *)
Definition endpointsExist (E : list Edge.t) (N : list Node.t) : Prop :=
  Forall (fun e => Edge.from e ∈ Node.id <$> N ∧ Edge.to e ∈ Node.id <$> N) E.

(** Every edge carries a non-empty type. *)
Definition typed (E : list Edge.t) : Prop :=
  Forall (fun e => truthy (Edge.type e) = true) E.

(** The directories of the given graphs are all complete. *)
Definition allExported (graphs : list ExportData.KnowledgeGraph)
    (data : gmap string ExportData.GraphDir) : Prop :=
  Forall (fun graph =>
            ExportData.slugify (ExportData.name graph) ≠ EmptyString
            ∧ ∃ dir, data !! ExportData.slugify (ExportData.name graph)
                     = Some dir
                     ∧ ExportData.loadProgress dir
                       = ExportData.mkProgress true true)
         graphs.

(** What [hyphenate] leaves: letters, digits and hyphens, no two hyphens
    in a row; [afterHyphen] tells that the previous character was one. *)
Fixpoint hyphenated (afterHyphen : bool) (s : string) : bool :=
  match s with
  | EmptyString => true
  | String c s' =>
      if ExportData.isAlnum c then hyphenated false s'
      else bool_decide (c = "-"%char) && negb afterHyphen && hyphenated true s'
  end.

(** Some character of the text is of the class [[a-z0-9]]. *)
Fixpoint containsAlnum (s : string) : bool :=
  match s with
  | EmptyString => false
  | String c s' => ExportData.isAlnum c || containsAlnum s'
  end.

(** * Properties *)

(** ** Sets kept in insertion order *)

Section JsSetFacts.
Context {A : Type} `{EqDecision A}.
Implicit Types (s l : list A) (x : A).

Lemma elem_of_Set_add s x y : y ∈ Set_add s x ↔ y ∈ s ∨ y = x.
Proof.
  unfold Set_add. case_decide as Hx.
  - split; [by left|]. intros [?| ->]; done.
  - rewrite elem_of_app, list_elem_of_singleton. done.
Qed.

Lemma NoDup_Set_add s x : NoDup s → NoDup (Set_add s x).
Proof.
  intros Hs. unfold Set_add. case_decide as Hx; [done|].
  apply NoDup_app. split_and!; [done| |apply NoDup_singleton].
  intros y Hy ->%list_elem_of_singleton. done.
Qed.

Lemma elem_of_foldl_Set_add l s y : y ∈ foldl Set_add s l ↔ y ∈ s ∨ y ∈ l.
Proof.
  revert s. induction l as [|x l IH]; intros s; simpl.
  - rewrite elem_of_nil. tauto.
  - rewrite IH, elem_of_Set_add, elem_of_cons. tauto.
Qed.

Lemma NoDup_foldl_Set_add l s : NoDup s → NoDup (foldl Set_add s l).
Proof.
  revert s. induction l as [|x l IH]; intros s Hs; simpl; [done|].
  by apply IH, NoDup_Set_add.
Qed.

Lemma elem_of_new_Set l y : y ∈ new_Set l ↔ y ∈ l.
Proof.
  unfold new_Set. rewrite elem_of_foldl_Set_add, elem_of_nil. tauto.
Qed.

Lemma NoDup_new_Set l : NoDup (new_Set l).
Proof. apply NoDup_foldl_Set_add, NoDup_nil_2. Qed.

End JsSetFacts.

(** ** The monad of results *)

Lemma mapM_Ok {A B : Type} (f : A → Result B) (g : A → B) (l : list A) :
  (∀ x, x ∈ l → f x = Ok (g x)) → mapM f l = Ok (g <$> l).
Proof.
  induction l as [|x l IH]; intros Hf; [done|].
  simpl. rewrite (Hf x) by left. simpl.
  rewrite IH by (intros; apply Hf; by right). done.
Qed.

Lemma mapM_Ok_inv {A B : Type} (f : A → Result B) (l : list A) (k : list B) :
  mapM f l = Ok k → Forall2 (fun x y => f x = Ok y) l k.
Proof.
  revert k. induction l as [|x l IH]; intros k; simpl.
  - intros [= <-]. constructor.
  - destruct (f x) as [y|e] eqn:Hx; simpl; [|done].
    destruct (mapM f l) as [k'|e] eqn:Hl; simpl; [|done].
    intros [= <-]. constructor; [done|]. by apply IH.
Qed.

(** ** Neighbour expansion over any [getNeighbors] *)

Section KHopFacts.
Variable getNeighbors : list Z → string → option string → Result (list string).
Variable knowledgeGraphIds : list Z.
Variable nodeId : string.
Variable oneHopNeighbors : list string.

Local Abbreviation isNew := (Common.isNew nodeId oneHopNeighbors).

Lemma addTwoHop_filter acc l :
  Common.addTwoHop nodeId oneHopNeighbors acc l
  = foldl Set_add acc (filter isNew l).
Proof.
  unfold Common.addTwoHop. revert acc.
  induction l as [|x l IH]; intros acc; [done|].
  simpl. rewrite IH, filter_cons. by case_decide.
Qed.

Lemma twoHopLoop_collect (nb : string → list string) todo acc :
  (∀ m, m ∈ todo → getNeighbors knowledgeGraphIds m None = Ok (nb m)) →
  Common.twoHopLoop getNeighbors knowledgeGraphIds nodeId oneHopNeighbors
    todo acc
  = Ok (foldl Set_add acc (filter isNew (todo ≫= nb))).
Proof.
  revert acc. induction todo as [|m todo IH]; intros acc Hnb; [done|].
  simpl. rewrite (Hnb m) by left. simpl.
  rewrite IH by (intros; apply Hnb; by right).
  by rewrite addTwoHop_filter, filter_app, foldl_app.
Qed.

End KHopFacts.

Lemma getKHopNeighborIds_two_hops getNeighbors g n edgeType
    (nb : string → list string) :
  truthy edgeType = false →
  (∀ m, getNeighbors g m None = Ok (nb m)) →
  Common.getKHopNeighborIds getNeighbors g n K2 edgeType
  = Ok (nb n ++ new_Set (filter (Common.isNew n (nb n)) (nb n ≫= nb))).
Proof.
  intros Hty Hnb. unfold Common.getKHopNeighborIds. rewrite Hty, Hnb. simpl.
  by rewrite (twoHopLoop_collect _ _ _ _ nb) by auto.
Qed.

Lemma twoHopContract_intro getNeighbors g n edgeType
    (nb : string → list string) :
  truthy edgeType = false →
  (∀ m, getNeighbors g m None = Ok (nb m)) →
  Common.twoHopContract getNeighbors g n edgeType.
Proof.
  intros Hty Hnb. exists nb. split; [done|]. simpl. split_and!.
  - apply Hnb.
  - by apply getKHopNeighborIds_two_hops.
  - apply NoDup_new_Set.
  - intros x [[??] _]%elem_of_new_Set%list_elem_of_filter. done.
  - intros x ?? (m & ? & ?). apply elem_of_new_Set, list_elem_of_filter.
    split; [done|]. apply list_elem_of_bind. eauto.
Qed.

(** ** The parquet sources *)

Section ParquetSources.
Context {R : Type}.
Variable files : gmap Z Parquet.GraphFiles.
Variable part : Parquet.GraphFiles → list R.

Lemma elem_of_unionAll g x :
  x ∈ Parquet.unionAll files part g
  ↔ ∃ id f, id ∈ g ∧ files !! id = Some f ∧ x ∈ part f.
Proof.
  unfold Parquet.unionAll. rewrite list_elem_of_join. split.
  - intros (l & Hx & (id & -> & Hid)%list_elem_of_fmap).
    destruct (files !! id) as [f|] eqn:Hf; simpl in Hx.
    + eauto 6.
    + by apply elem_of_nil in Hx.
  - intros (id & f & Hid & Hf & Hx).
    exists (part f). split; [done|]. apply list_elem_of_fmap.
    exists id. by rewrite Hf.
Qed.

Lemma sourceOf_known g :
  Parquet.allKnown files g →
  Parquet.sourceOf files part g = Ok (Parquet.unionAll files part g).
Proof.
  intros [Hne Hall].
  assert (Hlookup : ∀ id, id ∈ g →
    match files !! id with
    | Some f => Ok (part f)
    | None => Throw (UnknownGraphId id)
    end = Ok (from_option part [] (files !! id))).
  { intros id Hid. rewrite Forall_forall in Hall.
    by destruct (Hall id Hid) as [f ->]. }
  unfold Parquet.sourceOf, Parquet.unionAll.
  destruct g as [|id [|id' g]]; [done| |].
  - rewrite Hlookup by left. simpl. by rewrite app_nil_r.
  - rewrite (mapM_Ok _ _ _ Hlookup). done.
Qed.

Lemma sourceOf_Ok_known g rows :
  Parquet.sourceOf files part g = Ok rows → Parquet.allKnown files g.
Proof.
  unfold Parquet.sourceOf, Parquet.allKnown.
  destruct g as [|id [|id' g]].
  - done.
  - destruct (files !! id) eqn:Hf; [|done]. intros _. split; [done|].
    repeat constructor. by rewrite Hf.
  - set (l := id :: id' :: g).
    destruct (mapM _ l) as [parts|e] eqn:Hm; [|done].
    intros _. split; [done|].
    apply mapM_Ok_inv in Hm. clear -Hm.
    induction Hm as [|x y l k Hx _ IH]; constructor; [|done].
    by destruct (files !! x).
Qed.

(** A source fails exactly when an id is missing, with the first missing
    id in the message. *)
Lemma sourceOf_unknown g i id :
  list_find (fun id => files !! id = None) g = Some (i, id) →
  Parquet.sourceOf files part g = Throw (UnknownGraphId id).
Proof.
  intros Hfind.
  assert (Hm : mapM (M := Result) (fun id =>
            match files !! id with
            | Some f => Ok (part f)
            | None => Throw (UnknownGraphId id)
            end) g = Throw (UnknownGraphId id)).
  { revert i Hfind. induction g as [|x g IH]; intros i; [done|].
    simpl. case_decide as Hx.
    - intros [= <- <-]. by rewrite Hx.
    - destruct (list_find _ g) as [[j y]|] eqn:Hg; [|done].
      simpl. intros [= <- <-].
      destruct (files !! x); [|done]. simpl. by rewrite (IH j). }
  unfold Parquet.sourceOf. destruct g as [|x [|x' g]].
  - done.
  - simpl in Hm.
    destruct (files !! x); simpl in Hm; cbv [mret Result_ret] in Hm;
      by simplify_eq.
  - by rewrite Hm.
Qed.

End ParquetSources.

(** ** One-hop neighbours *)

Lemma otherEnd_self n e :
  Common.touches n e →
  Common.otherEnd n (Edge.from e) (Edge.to e) = n
  ↔ Edge.from e = n ∧ Edge.to e = n.
Proof.
  unfold Common.touches, Common.otherEnd. intros Ht.
  case_decide; intuition congruence.
Qed.

Lemma otherEnd_endpoint n e :
  Common.otherEnd n (Edge.from e) (Edge.to e) = Edge.from e
  ∨ Common.otherEnd n (Edge.from e) (Edge.to e) = Edge.to e.
Proof. unfold Common.otherEnd. case_decide; auto. Qed.

(** The relational [getNeighbors] never fails; its result lists, without
    repetition, the far ends of the authorized edges at [n]. *)
Lemma Db_getNeighbors_spec db g n edgeType :
  ∃ l, Db.getNeighbors db g n edgeType = Ok l
       ∧ NoDup l
       ∧ ∀ x, x ∈ l ↔
              ∃ e, e ∈ Db.edge db ∧ Edge.knowledgeGraphId e ∈ g
                   ∧ Common.touches n e
                   ∧ Common.typeFilter edgeType (Edge.type e)
                   ∧ x = Common.otherEnd n (Edge.from e) (Edge.to e).
Proof.
  unfold Db.getNeighbors. cbv zeta.
  eexists. split; [reflexivity|]. split; [apply NoDup_new_Set|].
  intros x. rewrite elem_of_new_Set, list_elem_of_fmap. split.
  - intros ([a b] & -> & Hrow). rewrite elem_of_new_Set in Hrow.
    apply list_elem_of_fmap in Hrow as (e & [= -> ->] & He).
    apply list_elem_of_filter in He as [(? & ? & ?) ?]. eauto 10.
  - intros (e & He & Hg & Ht & Hty & ->).
    exists (Edge.from e, Edge.to e). split; [done|].
    apply elem_of_new_Set, list_elem_of_fmap. exists e. split; [done|].
    by apply list_elem_of_filter.
Qed.

(** The parquet [getNeighbors] fails only for a bad list of graph ids;
    otherwise it lists the far ends of the edges at [n] in the files of the
    requested graphs. *)
Lemma Parquet_getNeighbors_spec read_edges files g n edgeType :
  match Parquet.getNeighbors read_edges files g n edgeType with
  | Ok l =>
      Parquet.allKnown files g ∧ NoDup l
      ∧ ∀ x, x ∈ l ↔
             ∃ id f r, id ∈ g ∧ files !! id = Some f
                       ∧ r ∈ read_edges (Parquet.edgesPath f)
                       ∧ (Parquet.from r = n ∨ Parquet.to r = n)
                       ∧ Common.typeFilter edgeType (Parquet.etype r)
                       ∧ x = Common.otherEnd n (Parquet.from r) (Parquet.to r)
  | Throw _ => ¬ Parquet.allKnown files g
  end.
Proof.
  unfold Parquet.getNeighbors, Parquet.edgesSource.
  destruct (Parquet.sourceOf files _ g) as [src|e] eqn:Hsrc; simpl.
  - pose proof (sourceOf_Ok_known _ _ _ _ Hsrc) as Hk.
    rewrite (sourceOf_known _ _ _ Hk) in Hsrc. injection Hsrc as <-.
    split; [done|]. split; [apply NoDup_new_Set|].
    intros x. rewrite elem_of_new_Set, list_elem_of_fmap. split.
    + intros (e & -> & [[Ht Hty] He]%list_elem_of_filter).
      apply elem_of_unionAll in He as (id & f & Hid & Hf & He).
      apply list_elem_of_fmap in He as (r & -> & Hr).
      exists id, f, r. done.
    + intros (id & f & r & Hid & Hf & Hr & Ht & Hty & ->).
      exists (Parquet.tagEdge (Parquet.knowledgeGraphId f) r).
      split; [done|]. apply list_elem_of_filter. split; [done|].
      apply elem_of_unionAll. exists id, f. split_and!; [done..|].
      by apply list_elem_of_fmap_2.
  - intros Hk. by rewrite (sourceOf_known _ _ _ Hk) in Hsrc.
Qed.

(** C5. The one-hop neighbour list of [n] contains [n] itself exactly when
    an authorized edge runs from [n] to [n] (and passes the edge-type filter,
    if one is given); without such an edge [n] is not its own neighbour.
    The relational store always answers; the parquet store answers unless
    the list of graph ids is empty or names an unregistered graph. *)
Theorem one_hop_has_self_iff_self_loop
    (db : Db.Store) (read_edges : string → list Parquet.EdgeRow)
    (files : gmap Z Parquet.GraphFiles)
    (g : list Z) (n : string) (edgeType : option string) :
  (∃ l, Db.getNeighbors db g n edgeType = Ok l
        ∧ (n ∈ l ↔ ∃ e, e ∈ Db.edge db ∧ Edge.knowledgeGraphId e ∈ g
                        ∧ Edge.from e = n ∧ Edge.to e = n
                        ∧ Common.typeFilter edgeType (Edge.type e)))
  ∧ match Parquet.getNeighbors read_edges files g n edgeType with
    | Ok l =>
        n ∈ l ↔ ∃ id f r, id ∈ g ∧ files !! id = Some f
                          ∧ r ∈ read_edges (Parquet.edgesPath f)
                          ∧ Parquet.from r = n ∧ Parquet.to r = n
                          ∧ Common.typeFilter edgeType (Parquet.etype r)
    | Throw _ => ¬ Parquet.allKnown files g
    end.
Proof.
  split.
  - destruct (Db_getNeighbors_spec db g n edgeType) as (l & Hl & _ & Hin).
    exists l. split; [done|]. rewrite Hin. split.
    + intros (e & ? & ? & Ht & ? & Hself). symmetry in Hself.
      apply otherEnd_self in Hself as [??]; [|done]. eauto 10.
    + intros (e & ? & ? & Hf & Hto & ?). exists e.
      assert (Common.touches n e) by (by left).
      split_and!; [done..|]. symmetry. by apply otherEnd_self.
  - pose proof (Parquet_getNeighbors_spec read_edges files g n edgeType) as H.
    destruct (Parquet.getNeighbors _ _ _ _ _) as [l|e]; [|done].
    destruct H as (_ & _ & Hin). rewrite Hin. split.
    + intros (id & f & r & ? & ? & ? & Ht & ? & Hself). symmetry in Hself.
      exists id, f, r. split_and!; try done.
      all: unfold Common.otherEnd in Hself; case_decide; intuition congruence.
    + intros (id & f & r & ? & ? & ? & Hf & Hto & ?).
      exists id, f, r. split_and!; [done..|by left|done|].
      unfold Common.otherEnd. by rewrite decide_True.
Qed.

(** ** Two-hop expansion *)

Lemma Db_getNeighbors_total db g :
  ∃ nb, ∀ m, Db.getNeighbors db g m None = Ok (nb m).
Proof.
  exists (fun m => match Db.getNeighbors db g m None with
                   | Ok l => l
                   | Throw _ => []
                   end).
  done.
Qed.

Lemma Parquet_getNeighbors_total read_edges files g :
  Parquet.allKnown files g →
  ∃ nb, ∀ m, Parquet.getNeighbors read_edges files g m None = Ok (nb m).
Proof.
  intros Hk.
  exists (fun m => match Parquet.getNeighbors read_edges files g m None with
                   | Ok l => l
                   | Throw _ => []
                   end).
  intros m.
  pose proof (Parquet_getNeighbors_spec read_edges files g m None) as H.
  by destruct (Parquet.getNeighbors _ _ _ _ _).
Qed.

(** C1, as the code has it.  The query function answers a two-hop request
    that carries a non-empty edge type with the empty list, whatever the
    store holds and whichever graph ids are given; it is the tool that
    rejects the request, before any read.  (An empty edge-type string counts
    as no filter.) *)
Theorem two_hops_with_edge_type_is_empty
    (db : Db.Store) (read_edges : string → list Parquet.EdgeRow)
    (files : gmap Z Parquet.GraphFiles) (queries : Tools.Queries)
    (g : list Z) (n ty : string)
    (query nodeType : option string) :
  ty ≠ "" →
  Db.getKHopNeighborIds db g n K2 (Some ty) = Ok []
  ∧ Parquet.getKHopNeighborIds read_edges files g n K2 (Some ty) = Ok []
  ∧ Tools.execute g queries
      (Tools.mkInput n query nodeType (Some ty) (Some K2))
    = Throw EdgeTypeWithK2.
Proof.
  intros Hty.
  assert (truthy (Some ty) = true) as Ht by (simpl; by case_decide).
  unfold Db.getKHopNeighborIds, Parquet.getKHopNeighborIds,
    Common.getKHopNeighborIds, Tools.execute.
  simpl Tools.edgeType. simpl Tools.k. by rewrite Ht.
Qed.

Lemma two_hops_with_edge_type_is_empty_witness :
  Db.getKHopNeighborIds Example.db [1] "A" K2 (Some "treats") = Ok []
  ∧ Parquet.getKHopNeighborIds Example.read_edges Example.files [1] "A" K2
      (Some "treats") = Ok []
  ∧ Tools.execute [1] Example.dbQueries
      (Tools.mkInput "A" None None (Some "treats") (Some K2))
    = Throw EdgeTypeWithK2.
Proof.
  apply (two_hops_with_edge_type_is_empty Example.db Example.read_edges
           Example.files Example.dbQueries [1] "A" "treats" None None).
  discriminate.
Defined.

(** C1 as stated does not hold: a two-hop expansion with an edge type is
    not rejected by the query functions. *)
Lemma two_hops_with_edge_type_not_rejected :
  ¬ (∀ (db : Db.Store) (g : list Z) (n ty : string),
       ∃ e, Db.getKHopNeighborIds db g n K2 (Some ty) = Throw e)
  ∧ ¬ (∀ read_edges files (g : list Z) (n ty : string),
         ∃ e, Parquet.getKHopNeighborIds read_edges files g n K2 (Some ty)
              = Throw e).
Proof.
  split.
  - intros H. by destruct (H Example.db [1] "A" "treats") as [e He].
  - intros H.
    by destruct (H Example.read_edges Example.files [1] "A" "treats")
      as [e He].
Qed.

(** C3. Without an edge-type filter the two-hop expansion of [n] succeeds
    and returns the one-hop list [N1] followed by [N2], where [N2] holds,
    once each and in order of first discovery, the ids found by expanding
    the members of [N1] that are neither [n] nor in [N1].  (For the parquet
    store the graph ids must be registered, else the read fails.) *)
Theorem two_hops_is_one_hop_then_new
    (db : Db.Store) (read_edges : string → list Parquet.EdgeRow)
    (files : gmap Z Parquet.GraphFiles)
    (g : list Z) (n : string) (edgeType : option string) :
  truthy edgeType = false →
  Common.twoHopContract (Db.getNeighbors db) g n edgeType
  ∧ (Parquet.allKnown files g →
     Common.twoHopContract (Parquet.getNeighbors read_edges files)
       g n edgeType).
Proof.
  intros Hty. split.
  - destruct (Db_getNeighbors_total db g) as [nb Hnb].
    by apply (twoHopContract_intro _ _ _ _ nb).
  - intros Hk.
    destruct (Parquet_getNeighbors_total read_edges files g Hk) as [nb Hnb].
    by apply (twoHopContract_intro _ _ _ _ nb).
Qed.

Lemma two_hops_is_one_hop_then_new_witness :
  Db.getKHopNeighborIds Example.db [1; 2] "A" K2 None
    = Ok (["B"; "E"] ++ ["C"; "D"])
  ∧ Common.twoHopContract (Db.getNeighbors Example.db) [1; 2] "A" None
  ∧ Parquet.allKnown Example.files [1; 2]
  ∧ Common.twoHopContract
      (Parquet.getNeighbors Example.read_edges Example.files) [1; 2] "A" None.
Proof.
  destruct (two_hops_is_one_hop_then_new Example.db Example.read_edges
              Example.files [1; 2] "A" None eq_refl) as [Hdb Hpq].
  assert (Hk : Parquet.allKnown Example.files [1; 2])
    by (apply (bool_decide_unpack _); by vm_compute).
  split; [by vm_compute|]. split; [exact Hdb|].
  split; [exact Hk|]. exact (Hpq Hk).
Defined.

(** ** Unregistered graph ids *)

Section UnknownGraph.
Variable ilike : option string → string → bool.
Variable read_nodes : string → list Parquet.NodeRow.
Variable read_edges : string → list Parquet.EdgeRow.
Variable files : gmap Z Parquet.GraphFiles.
Variables (g : list Z) (i : nat) (id : Z).
Hypothesis first_unknown :
  list_find (fun id => files !! id = None) g = Some (i, id).

Lemma nodesSource_unknown :
  Parquet.nodesSource read_nodes files g = Throw (UnknownGraphId id).
Proof. by apply (sourceOf_unknown _ _ _ i). Qed.

Lemma edgesSource_unknown :
  Parquet.edgesSource read_edges files g = Throw (UnknownGraphId id).
Proof. by apply (sourceOf_unknown _ _ _ i). Qed.

Lemma getNeighbors_unknown n edgeType :
  Parquet.getNeighbors read_edges files g n edgeType
  = Throw (UnknownGraphId id).
Proof. unfold Parquet.getNeighbors. by rewrite edgesSource_unknown. Qed.

Lemma getNodesByIds_unknown ids :
  ids ≠ [] →
  Parquet.getNodesByIds read_nodes files g ids = Throw (UnknownGraphId id).
Proof.
  unfold Parquet.getNodesByIds. rewrite nodesSource_unknown.
  by destruct ids.
Qed.

Lemma getKHopNeighborIds_unknown n k edgeType :
  k = K1 ∨ truthy edgeType = false →
  Parquet.getKHopNeighborIds read_edges files g n k edgeType
  = Throw (UnknownGraphId id).
Proof.
  unfold Parquet.getKHopNeighborIds, Common.getKHopNeighborIds.
  destruct k.
  - intros _. apply getNeighbors_unknown.
  - intros [?| ->]; [done|]. by rewrite getNeighbors_unknown.
Qed.

End UnknownGraph.

Lemma first_unregistered (files : gmap Z Parquet.GraphFiles)
    (known : list Z) (bad : Z) (rest : list Z) :
  Forall (fun id => is_Some (files !! id)) known →
  files !! bad = None →
  list_find (fun id => files !! id = None) (known ++ bad :: rest)
  = Some (length known, bad).
Proof.
  intros Hknown Hbad. induction Hknown as [|id known [f Hf] _ IH]; simpl.
  - by rewrite decide_True.
  - rewrite decide_False by (by rewrite Hf). by rewrite IH.
Qed.

Lemma filter_none {A : Type} (P : A → Prop) `{!∀ x, Decision (P x)}
    (l : list A) :
  Forall (fun x => ¬ P x) l → filter P l = [].
Proof.
  induction 1 as [|x l Hx _ IH]; [done|].
  by rewrite filter_cons, decide_False.
Qed.

(** C6, as the code has it.  When the list of graph ids names a graph that
    is not registered, the parquet queries that read a source fail with
    [Unknown graph id=<id>] for the first such id - the one that only
    registered ids precede: [getNeighbors], [getEdgesBetweenNodes],
    [findPaths], [searchNodesByName], [getNodesByIds] on at least one id,
    [getKHopNeighborIds] unless it is asked for two hops with an edge type,
    and the tool unless it rejects that same combination first.
    [getNodesByIds] on no ids and the two-hop expansion with an edge type
    return the empty list without looking at the graph ids.  The relational
    store has no such check: for graph ids that none of its rows carries,
    its queries return the empty list. *)
Theorem unregistered_graph_id_fails
    (ilike : option string → string → bool)
    (read_nodes : string → list Parquet.NodeRow)
    (read_edges : string → list Parquet.EdgeRow)
    (files : gmap Z Parquet.GraphFiles)
    (known : list Z) (bad : Z) (rest : list Z) :
  Forall (fun id => is_Some (files !! id)) known →
  files !! bad = None →
  let g := known ++ bad :: rest in
  (∀ n edgeType,
     Parquet.getNeighbors read_edges files g n edgeType
     = Throw (UnknownGraphId bad))
  ∧ (∀ a b,
       Parquet.getEdgesBetweenNodes read_edges files g a b
       = Throw (UnknownGraphId bad))
  ∧ (∀ a b,
       Parquet.findPaths read_nodes read_edges files g a b
       = Throw (UnknownGraphId bad))
  ∧ (∀ name limit,
       Parquet.searchNodesByName ilike read_nodes files name (Some g) limit
       = Throw (UnknownGraphId bad))
  ∧ (∀ ids, ids ≠ [] →
       Parquet.getNodesByIds read_nodes files g ids
       = Throw (UnknownGraphId bad))
  ∧ (∀ n k edgeType, k = K1 ∨ truthy edgeType = false →
       Parquet.getKHopNeighborIds read_edges files g n k edgeType
       = Throw (UnknownGraphId bad))
  ∧ (∀ input,
       Tools.k input ≠ Some K2 ∨ truthy (Tools.edgeType input) = false →
       Tools.execute g
         (Tools.createQueries ilike read_nodes read_edges files) input
       = Throw (UnknownGraphId bad))
  ∧ Parquet.getNodesByIds read_nodes files g [] = Ok []
  ∧ (∀ n edgeType, truthy edgeType = true →
       Parquet.getKHopNeighborIds read_edges files g n K2 edgeType = Ok [])
  ∧ (∀ (db : Db.Store) (g' : list Z),
       Forall (fun n => Node.knowledgeGraphId n ∉ g') (Db.node db) →
       Forall (fun e => Edge.knowledgeGraphId e ∉ g') (Db.edge db) →
       (∀ n edgeType, Db.getNeighbors db g' n edgeType = Ok [])
       ∧ (∀ a b, Db.getEdgesBetweenNodes db g' a b = Ok [])
       ∧ (∀ ids, Db.getNodesByIds db g' ids = Ok [])
       ∧ (∀ n k edgeType, Db.getKHopNeighborIds db g' n k edgeType = Ok [])).
Proof.
  intros Hknown Hbad g.
  pose proof (first_unregistered files known bad rest Hknown Hbad) as Hfind.
  fold g in Hfind. set (i := length known) in Hfind.
  split_and!.
  - intros. by apply (getNeighbors_unknown _ _ _ i).
  - intros. unfold Parquet.getEdgesBetweenNodes.
    by rewrite (edgesSource_unknown _ _ _ i bad).
  - intros. unfold Parquet.findPaths.
    by rewrite (edgesSource_unknown _ _ _ i bad).
  - intros. unfold Parquet.searchNodesByName. simpl.
    rewrite (nodesSource_unknown _ _ _ i bad) by done.
    unfold g. by destruct known.
  - intros. by apply (getNodesByIds_unknown _ _ _ i).
  - intros. by apply (getKHopNeighborIds_unknown _ _ _ i).
  - intros input Hin. unfold Tools.execute.
    assert (bool_decide (default K1 (Tools.k input) = K2)
            && truthy (Tools.edgeType input) = false) as ->.
    { destruct Hin as [Hk| ->]; [|by rewrite andb_false_r].
      destruct (Tools.k input) as [[]|]; simpl; done. }
    unfold Tools.createQueries. cbn [Tools.getNodesByIds].
    by rewrite (getNodesByIds_unknown _ _ _ i bad).
  - done.
  - intros n edgeType Hty.
    unfold Parquet.getKHopNeighborIds, Common.getKHopNeighborIds.
    by rewrite Hty.
  - intros db g' Hnodes Hedges.
    assert (Hnb : ∀ n edgeType, Db.getNeighbors db g' n edgeType = Ok []).
    { intros n edgeType. unfold Db.getNeighbors. cbv zeta.
      rewrite filter_none; [done|].
      eapply Forall_impl; [exact Hedges|]. intros e He [? _]. done. }
    split_and!.
    + exact Hnb.
    + intros a b. unfold Db.getEdgesBetweenNodes.
      rewrite filter_none; [done|].
      eapply Forall_impl; [exact Hedges|]. intros e He [? _]. done.
    + intros ids. unfold Db.getNodesByIds. destruct ids; [done|].
      rewrite filter_none; [done|].
      eapply Forall_impl; [exact Hnodes|]. intros n Hn [? _]. done.
    + intros n k edgeType.
      unfold Db.getKHopNeighborIds, Common.getKHopNeighborIds.
      destruct k; [apply Hnb|].
      destruct (truthy edgeType); [done|]. by rewrite Hnb.
Qed.

(** Of the two unregistered ids 3 and 4 the first is reported. *)
Lemma unregistered_graph_id_fails_witness :
  Parquet.getNeighbors Example.read_edges Example.files [1; 3; 4] "A" None
  = Throw (UnknownGraphId 3).
Proof.
  refine (proj1 (unregistered_graph_id_fails Example.ilike Example.read_nodes
                   Example.read_edges Example.files [1] 3 [4] _ _) "A" None).
  - by apply (bool_decide_unpack _); vm_compute.
  - by vm_compute.
Defined.

(** C6 as stated does not hold: some calls with an unregistered graph id
    return normally, and the relational store never objects to a graph id
    (graph 7 has no rows in the example). *)
Lemma unregistered_graph_id_not_always_rejected :
  3 ∈ [3] ∧ Example.files !! 3 = None
  ∧ Parquet.getNodesByIds Example.read_nodes Example.files [3] [] = Ok []
  ∧ Parquet.getKHopNeighborIds Example.read_edges Example.files [3] "A" K2
      (Some "treats") = Ok []
  ∧ Db.getNeighbors Example.db [7] "A" None = Ok []
  ∧ Db.getNodesByIds Example.db [7] ["A"] = Ok []
  ∧ Db.getEdgesBetweenNodes Example.db [7] "A" "B" = Ok [].
Proof. split; [by left|]. by vm_compute. Qed.

(** ** Path finding *)

Lemma nodesMapOf_foldl_Some (l : list Node.t) (m : gmap string Node.t) x n :
  foldl (fun m n => <[Node.id n := n]> m) m l !! x = Some n →
  (n ∈ l ∧ Node.id n = x) ∨ m !! x = Some n.
Proof.
  revert m. induction l as [|a l IH]; intros m; simpl; [by right|].
  intros [[??]|Hm]%IH.
  - left. split; [by right|done].
  - destruct (decide (Node.id a = x)) as [<-|Hne].
    + rewrite lookup_insert_eq in Hm. injection Hm as <-.
      left. split; [by left|done].
    + rewrite lookup_insert_ne in Hm by done. by right.
Qed.

Lemma nodesMapOf_Some l x n :
  Common.nodesMapOf l !! x = Some n → n ∈ l ∧ Node.id n = x.
Proof.
  intros [?|Hm]%nodesMapOf_foldl_Some; [done|].
  by rewrite lookup_empty in Hm.
Qed.

Lemma nodesMapOf_None l x :
  (∀ n, n ∈ l → Node.id n ≠ x) → Common.nodesMapOf l !! x = None.
Proof.
  intros Hl. destruct (Common.nodesMapOf l !! x) as [n|] eqn:Hn; [|done].
  apply nodesMapOf_Some in Hn as [Hin Hid]. by destruct (Hl n Hin).
Qed.

Lemma pathsFrom_missing_endpoint info nodesInfo a b :
  (∀ n, n ∈ nodesInfo → Node.id n ≠ a)
  ∨ (∀ n, n ∈ nodesInfo → Node.id n ≠ b) →
  Common.pathsFrom info nodesInfo a b = [].
Proof.
  unfold Common.pathsFrom. intros [H|H].
  - by rewrite (nodesMapOf_None _ _ H).
  - rewrite (nodesMapOf_None _ b H). by destruct (_ !! a).
Qed.

Lemma bind_app_pointwise {A B : Type} (f h : A → list B) (l : list A) :
  l ≫= (fun x => f x ++ h x) ≡ₚ (l ≫= f) ++ (l ≫= h).
Proof.
  induction l as [|x l IH]; [done|]. simpl. rewrite IH.
  rewrite <-!(assoc_L (++)). apply Permutation_app_head.
  rewrite !(assoc_L (++)). apply Permutation_app_tail.
  apply Permutation_app_comm.
Qed.

Lemma joinRow_swap (s d : string * option string) :
  Common.swapInfo
    <$> (if decide (s.1 = d.1) then [mkInfo s.1 s.2 d.2] else [])
  = if decide (d.1 = s.1) then [mkInfo d.1 d.2 s.2] else [].
Proof.
  destruct (decide (s.1 = d.1)) as [Heq|Hne].
  - rewrite decide_True by done. simpl. unfold Common.swapInfo. simpl.
    by rewrite Heq.
  - by rewrite decide_False by done.
Qed.

Lemma bind_nil_pointwise {A B : Type} (l : list A) :
  l ≫= (fun _ => @nil B) = [].
Proof. induction l as [|x l IH]; [done|]. by rewrite bind_cons, IH. Qed.

Lemma bind_bind_comm {A B C : Type} (f : A → B → list C) l1 l2 :
  (l1 ≫= fun a => l2 ≫= fun b => f a b)
  ≡ₚ (l2 ≫= fun b => l1 ≫= fun a => f a b).
Proof.
  induction l1 as [|a l1 IH].
  - transitivity (l2 ≫= fun _ => @nil C); [|reflexivity].
    by rewrite bind_nil_pointwise.
  - rewrite bind_cons, IH. symmetry.
    exact (bind_app_pointwise (fun b => f a b)
             (fun b => l1 ≫= fun a => f a b) l2).
Qed.

Lemma fmap_bind_pointwise {A B C : Type} (h : B → C) (f : A → list B) l :
  h <$> (l ≫= f) = l ≫= fun x => h <$> f x.
Proof.
  induction l as [|x l IH]; [done|].
  by rewrite !bind_cons, fmap_app, IH.
Qed.

(** Exchanging the operands of the join exchanges the two edge types of
    every row and permutes the rows. *)
Lemma innerJoin_swap ss ds :
  Common.swapInfo <$> Common.innerJoin ss ds ≡ₚ Common.innerJoin ds ss.
Proof.
  unfold Common.innerJoin. rewrite fmap_bind_pointwise.
  rewrite (list_bind_ext _
    (fun s => ds ≫= fun d =>
       if decide (d.1 = s.1) then [mkInfo d.1 d.2 s.2] else []) ss ss);
    [apply bind_bind_comm| |done].
  intros s. rewrite fmap_bind_pointwise.
  apply list_bind_ext; [|done]. intros d. apply joinRow_swap.
Qed.

Lemma elem_of_nodeIdsToFetch info a b x :
  x ∈ Common.nodeIdsToFetch info a b
  ↔ x = a ∨ x = b ∨ ∃ i, i ∈ info ∧ x = intermediateNodeId i.
Proof.
  unfold Common.nodeIdsToFetch.
  rewrite elem_of_new_Set, !elem_of_cons, list_elem_of_fmap.
  split; (intros [?|[?|(i & ? & ?)]]; [by left|by right; left|]);
    right; right; by exists i.
Qed.

Lemma nodeIdsToFetch_nonempty info a b : Common.nodeIdsToFetch info a b ≠ [].
Proof.
  intros H. assert (a ∈ Common.nodeIdsToFetch info a b) as Ha
    by (apply elem_of_nodeIdsToFetch; by left).
  rewrite H in Ha. by apply elem_of_nil in Ha.
Qed.

Lemma nodeIdsToFetch_swap info info' a b x :
  Common.swapInfo <$> info ≡ₚ info' →
  x ∈ Common.nodeIdsToFetch info a b ↔ x ∈ Common.nodeIdsToFetch info' b a.
Proof.
  intros Hp. rewrite !elem_of_nodeIdsToFetch.
  assert ((∃ i, i ∈ info ∧ x = intermediateNodeId i)
          ↔ (∃ i, i ∈ info' ∧ x = intermediateNodeId i)) as ->; [|tauto].
  split.
  - intros (i & Hi & ->). exists (Common.swapInfo i). split; [|done].
    rewrite <-Hp. by apply list_elem_of_fmap_2.
  - intros (i & Hi & ->). rewrite <-Hp in Hi.
    apply list_elem_of_fmap in Hi as (j & -> & Hj). by exists j.
Qed.

Lemma pathOf_swap m sa sb info :
  Common.pathOf m sb sa (Common.swapInfo info)
  = Common.reversePath <$> Common.pathOf m sa sb info.
Proof.
  unfold Common.pathOf, Common.swapInfo.
  cbn [intermediateNodeId sourceEdgeType destinationEdgeType].
  destruct (m !! intermediateNodeId info) as [n|]; [|done].
  destruct (sourceEdgeType info) as [st|],
           (destinationEdgeType info) as [dt|]; try done.
  rewrite (andb_comm (truthy (Some dt))).
  by destruct (truthy (Some st) && truthy (Some dt)).
Qed.

(** With the same node rows, the paths from [b] to [a] are the paths from
    [a] to [b] walked backwards. *)
Lemma pathsFrom_swap info info' nodesInfo a b :
  Common.swapInfo <$> info ≡ₚ info' →
  Common.reversePath <$> Common.pathsFrom info nodesInfo a b
  ≡ₚ Common.pathsFrom info' nodesInfo b a.
Proof.
  intros Hp. unfold Common.pathsFrom.
  destruct (Common.nodesMapOf nodesInfo !! a) as [sa|],
           (Common.nodesMapOf nodesInfo !! b) as [sb|]; try done.
  rewrite <-Hp, list_fmap_omap.
  rewrite (list_omap_ext _
             (Common.pathOf (Common.nodesMapOf nodesInfo) sb sa)
             info (Common.swapInfo <$> info)); [done|].
  clear. induction info as [|i info IH]; constructor; [|done].
  by rewrite pathOf_swap.
Qed.

Lemma pathsFrom_two_legs info nodesInfo a b p :
  p ∈ Common.pathsFrom info nodesInfo a b → length (legs p) = 2%nat.
Proof.
  unfold Common.pathsFrom.
  destruct (_ !! a) as [sa|]; [|by intros ?%elem_of_nil].
  destruct (_ !! b) as [sb|]; [|by intros ?%elem_of_nil].
  intros (i & _ & Hp)%list_elem_of_omap. unfold Common.pathOf in Hp.
  repeat case_match; by simplify_eq.
Qed.

Lemma filter_no_ids (l : list Node.t) :
  filter (fun n => Node.id n ∈ @nil string) l = [].
Proof.
  induction l as [|n l IH]; [done|].
  rewrite filter_cons_False; [done|]. by intros ?%elem_of_nil.
Qed.

Lemma pathsFrom_nil nodesInfo a b : Common.pathsFrom [] nodesInfo a b = [].
Proof. unfold Common.pathsFrom. by repeat case_match. Qed.

(** The join of the relational [findPaths] refers to [neighborId] by the
    alias alone, and both joined sub-selects have a column of that name:
    the engine rejects the statement, whatever the tables hold. *)
Lemma Db_findPaths_fails (db : Db.Store) (g : list Z) (a b : string) :
  Db.findPaths db g a b = Throw FailedToFindPaths.
Proof. reflexivity. Qed.

Section ParquetFindPaths.
Variable read_nodes : string → list Parquet.NodeRow.
Variable read_edges : string → list Parquet.EdgeRow.
Variable files : gmap Z Parquet.GraphFiles.
Variable g : list Z.

Local Abbreviation pqEdges :=
  (Parquet.unionAll files (Parquet.edgesPart read_edges) g).
Local Abbreviation pqInfo a b :=
  (Common.innerJoin (Common.neighborRows a pqEdges)
                    (Common.neighborRows b pqEdges)).
Local Abbreviation pqNodes a b :=
  (filter (fun n => Node.id n ∈ Common.nodeIdsToFetch (pqInfo a b) a b)
          (Parquet.unionAll files (Parquet.nodesPart read_nodes) g)).

Lemma Parquet_getNodesByIds_known ids :
  Parquet.allKnown files g →
  Parquet.getNodesByIds read_nodes files g ids
  = Ok (filter (fun n => Node.id n ∈ ids)
          (Parquet.unionAll files (Parquet.nodesPart read_nodes) g)).
Proof.
  intros Hk. unfold Parquet.getNodesByIds, Parquet.nodesSource.
  rewrite (sourceOf_known _ _ _ Hk). destruct ids as [|i ids]; [|done].
  by rewrite filter_no_ids.
Qed.

Lemma Parquet_findPaths_known a b :
  Parquet.allKnown files g →
  Parquet.findPaths read_nodes read_edges files g a b
  = Ok (Common.pathsFrom (pqInfo a b) (pqNodes a b) a b).
Proof.
  intros Hk. unfold Parquet.findPaths.
  unfold Parquet.edgesSource, Parquet.nodesSource.
  rewrite !(sourceOf_known _ _ _ Hk). simpl.
  destruct (pqInfo a b) eqn:Hinfo; [by rewrite pathsFrom_nil|].
  by rewrite (Parquet_getNodesByIds_known _ Hk).
Qed.

Lemma Parquet_findPaths_not_known :
  ¬ Parquet.allKnown files g →
  ∃ e, ∀ a b, Parquet.findPaths read_nodes read_edges files g a b = Throw e.
Proof.
  intros Hk. unfold Parquet.findPaths.
  destruct (Parquet.edgesSource read_edges files g) as [src|e] eqn:Hsrc.
  - destruct Hk. by apply sourceOf_Ok_known in Hsrc.
  - by exists e.
Qed.

Lemma pqNodes_swap a b : pqNodes a b = pqNodes b a.
Proof.
  apply list_filter_iff. intros n.
  by rewrite (nodeIdsToFetch_swap _ (pqInfo b a) a b) by apply innerJoin_swap.
Qed.

Lemma Parquet_findPaths_missing a b :
  Parquet.allKnown files g →
  (∀ id f r, id ∈ g → files !! id = Some f →
             r ∈ read_nodes (Parquet.nodesPath f) → Parquet.id r ≠ a)
  ∨ (∀ id f r, id ∈ g → files !! id = Some f →
               r ∈ read_nodes (Parquet.nodesPath f) → Parquet.id r ≠ b) →
  Parquet.findPaths read_nodes read_edges files g a b = Ok [].
Proof.
  intros Hk H. rewrite (Parquet_findPaths_known _ _ Hk). f_equal.
  apply pathsFrom_missing_endpoint.
  destruct H as [H|H]; [left|right];
    intros n [_ (id & f & ? & ? & (r & -> & ?)%list_elem_of_fmap)
               %elem_of_unionAll]%list_elem_of_filter;
    by apply (H id f r).
Qed.

Lemma Parquet_findPaths_swap a b :
  Parquet.allKnown files g →
  ∃ p q, Parquet.findPaths read_nodes read_edges files g a b = Ok p
         ∧ Parquet.findPaths read_nodes read_edges files g b a = Ok q
         ∧ Common.reversePath <$> p ≡ₚ q
         ∧ Forall (fun x => length (legs x) = 2%nat) p.
Proof.
  intros Hk. do 2 eexists.
  split; [by apply Parquet_findPaths_known|].
  split; [by apply Parquet_findPaths_known|]. split.
  - rewrite (pqNodes_swap b a). apply pathsFrom_swap, innerJoin_swap.
  - apply Forall_forall. intros x. apply pathsFrom_two_legs.
Qed.

End ParquetFindPaths.

(** C4, as the code has it.  In the parquet store, when the list of graph
    ids is non-empty and names registered graphs only and one of the two
    endpoints has no node row in these graphs, [findPaths] returns the
    empty list and does not fail.  (With an unregistered graph id the call
    fails before it looks for any node.) *)
Theorem findPaths_missing_endpoint_is_empty
    (read_nodes : string → list Parquet.NodeRow)
    (read_edges : string → list Parquet.EdgeRow)
    (files : gmap Z Parquet.GraphFiles) (g : list Z) (a b : string) :
  Parquet.allKnown files g →
  (∀ id f r, id ∈ g → files !! id = Some f →
             r ∈ read_nodes (Parquet.nodesPath f) → Parquet.id r ≠ a)
  ∨ (∀ id f r, id ∈ g → files !! id = Some f →
               r ∈ read_nodes (Parquet.nodesPath f) → Parquet.id r ≠ b) →
  Parquet.findPaths read_nodes read_edges files g a b = Ok [].
Proof. apply Parquet_findPaths_missing. Qed.

(** In graph 2 of the example, node [A] has an edge but [B] has no row. *)
Lemma findPaths_missing_endpoint_is_empty_witness :
  Parquet.findPaths Example.read_nodes Example.read_edges Example.files
    [2] "A" "B" = Ok [].
Proof.
  apply (findPaths_missing_endpoint_is_empty Example.read_nodes
           Example.read_edges Example.files [2] "A" "B").
  - by apply (bool_decide_unpack _); vm_compute.
  - right. intros id f r ->%list_elem_of_singleton Hf Hr.
    vm_compute in Hf. injection Hf as <-. vm_compute in Hr.
    repeat (apply elem_of_cons in Hr as [->|Hr]);
      try apply elem_of_nil in Hr; done.
Defined.

(** C4 as stated does not hold for every list of graph ids: no node [Z]
    exists anywhere, yet the parquet [findPaths] fails when the list names
    an unregistered graph. *)
Lemma findPaths_missing_endpoint_may_throw :
  (∀ id f r, id ∈ [1; 3] → Example.files !! id = Some f →
             r ∈ Example.read_nodes (Parquet.nodesPath f) →
             Parquet.id r ≠ "Z")
  ∧ Parquet.findPaths Example.read_nodes Example.read_edges Example.files
      [1; 3] "A" "Z" = Throw (UnknownGraphId 3).
Proof.
  split; [|by vm_compute].
  intros id f r Hid Hf Hr.
  apply elem_of_cons in Hid as [->|Hid];
    [|apply list_elem_of_singleton in Hid as ->; by vm_compute in Hf].
  vm_compute in Hf. injection Hf as <-. vm_compute in Hr.
  repeat (apply elem_of_cons in Hr as [->|Hr]);
    try apply elem_of_nil in Hr; done.
Qed.

(** C9. [findPaths] from [b] to [a] yields, up to the order of the list,
    the paths from [a] to [b] walked backwards: the two legs exchanged and
    each leg joining the same two nodes by the same edge type.  Hence both
    calls give the same number of paths.  In the parquet store the two calls
    fail together (with the same error) when the graph ids cannot be read;
    in the relational store both calls fail, with the same error, on every
    input. *)
Theorem findPaths_symmetric
    (db : Db.Store) (read_nodes : string → list Parquet.NodeRow)
    (read_edges : string → list Parquet.EdgeRow)
    (files : gmap Z Parquet.GraphFiles) (g : list Z) (a b : string) :
  (Db.findPaths db g a b = Throw FailedToFindPaths
   ∧ Db.findPaths db g b a = Throw FailedToFindPaths)
  ∧ match Parquet.findPaths read_nodes read_edges files g a b,
          Parquet.findPaths read_nodes read_edges files g b a with
    | Ok p, Ok q =>
        Parquet.allKnown files g ∧ length p = length q
        ∧ Common.reversePath <$> p ≡ₚ q
        ∧ Forall (fun x => length (legs x) = 2%nat) p
    | Throw e, Throw e' => e = e' ∧ ¬ Parquet.allKnown files g
    | _, _ => False
    end.
Proof.
  split.
  - split; apply Db_findPaths_fails.
  - destruct (decide (Parquet.allKnown files g)) as [Hk|Hk].
    + destruct (Parquet_findPaths_swap read_nodes read_edges files g a b Hk)
        as (p & q & -> & -> & Hpq & Hlegs).
      split_and!; [done| |done..].
      by rewrite <-Hpq, length_fmap.
    + destruct (Parquet_findPaths_not_known read_nodes read_edges files g Hk)
        as [e He].
      by rewrite !He.
Qed.

(** ** The stable sort *)

Section ArraySortFacts.
Context {A : Type} (compare : A → A → Z).

Lemma sortInsert_Permutation x l : sortInsert compare x l ≡ₚ x :: l.
Proof.
  induction l as [|y l IH]; [done|]. simpl. case_decide; [done|].
  rewrite IH. apply perm_swap.
Qed.

Lemma Array_sort_Permutation l : Array_sort compare l ≡ₚ l.
Proof.
  induction l as [|x l IH]; [done|]. unfold Array_sort in *. simpl.
  by rewrite sortInsert_Permutation, IH.
Qed.

(** A comparator that orders by a numeric key, larger keys first. *)
Variable key : A → nat.
Hypothesis compare_key : ∀ a b, compare a b ≤ 0 ↔ (key b ≤ key a)%nat.

Lemma sortInsert_sorted x l :
  StronglySorted (fun a b => (key b ≤ key a)%nat) l →
  StronglySorted (fun a b => (key b ≤ key a)%nat) (sortInsert compare x l).
Proof.
  induction 1 as [|y l Hl IH Hy]; simpl.
  - repeat constructor.
  - case_decide as Hc.
    + apply compare_key in Hc. constructor; [by constructor|].
      constructor; [done|].
      eapply Forall_impl; [exact Hy|]. intros z Hz. simpl in Hz. lia.
    + constructor; [done|].
      rewrite sortInsert_Permutation. constructor; [|done].
      rewrite compare_key in Hc. lia.
Qed.

Lemma Array_sort_sorted l :
  StronglySorted (fun a b => (key b ≤ key a)%nat) (Array_sort compare l).
Proof.
  induction l as [|x l IH]; [constructor|]. by apply sortInsert_sorted.
Qed.

Lemma sortInsert_stable k x l :
  filter (fun a => key a = k) (sortInsert compare x l)
  = filter (fun a => key a = k) (x :: l).
Proof.
  induction l as [|y l IH]; [done|]. simpl. case_decide as Hc; [done|].
  rewrite compare_key in Hc.
  rewrite (filter_cons _ y), IH, !filter_cons.
  repeat case_decide; try done; lia.
Qed.

(** Stability: the elements of any one key keep their order. *)
Lemma Array_sort_stable k l :
  filter (fun a => key a = k) (Array_sort compare l)
  = filter (fun a => key a = k) l.
Proof.
  induction l as [|x l IH]; [done|]. unfold Array_sort in *. simpl.
  by rewrite sortInsert_stable, !filter_cons, IH.
Qed.

End ArraySortFacts.

Lemma byRelevance_key a b :
  Tools.byRelevance a b ≤ 0 ↔ (Tools.relevanceOf b ≤ Tools.relevanceOf a)%nat.
Proof. unfold Tools.byRelevance. lia. Qed.

(** ** Ranking *)

Section Ranking.
Variable q : string.
Variable candidates : list Node.t.

(** The candidates that enter the property branch. *)
Local Abbreviation eligible :=
  (fun c : Node.t =>
     (Node.id c ∉ Node.id <$> Tools.candidatesInName q candidates)
     ∧ truthy (Node.properties c) = true).

Local Abbreviation scored :=
  (filter (fun c => (0 < Tools.relevanceOf c)%nat)
     (Tools.withRelevance (Tools.queryWords q) <$> filter eligible candidates)).

Lemma candidatesInProperties_eq :
  Tools.candidatesInProperties q candidates
  = Tools.withExplanation <$> Array_sort Tools.byRelevance scored.
Proof. done. Qed.

Lemma relevanceOf_withExplanation c :
  Tools.relevanceOf (Tools.withExplanation c) = Tools.relevanceOf c.
Proof. done. Qed.

Lemma relevanceOf_withRelevance ws c :
  Tools.relevanceOf (Tools.withRelevance ws c)
  = length (Tools.appearingWordsOf ws c).
Proof. done. Qed.

Lemma filter_fmap_key {A B : Type} (f : A → B) (P : B → Prop)
    `{!∀ x, Decision (P x)} (l : list A) :
  filter P (f <$> l) = f <$> filter (P ∘ f) l.
Proof.
  induction l as [|x l IH]; [done|].
  rewrite fmap_cons, !filter_cons. unfold compose at 1.
  case_decide; by rewrite ?fmap_cons, IH.
Qed.

Lemma node_of_scored ws (l : list Node.t) :
  Tools.node <$> (Tools.withExplanation <$> (Tools.withRelevance ws <$> l))
  = l.
Proof. induction l as [|c l IH]; [done|]. by rewrite !fmap_cons, IH. Qed.

Lemma candidatesInProperties_sorted :
  StronglySorted
    (fun a b => (Tools.relevanceOf b ≤ Tools.relevanceOf a)%nat)
    (Tools.candidatesInProperties q candidates).
Proof.
  rewrite candidatesInProperties_eq.
  pose proof (Array_sort_sorted _ _ byRelevance_key scored) as Hs.
  induction Hs as [|x l Hl IH Hx]; [constructor|].
  simpl. constructor; [done|]. by apply Forall_fmap.
Qed.

Lemma candidatesInProperties_positive :
  Forall (fun c => (0 < Tools.relevanceOf c)%nat)
         (Tools.candidatesInProperties q candidates).
Proof.
  rewrite candidatesInProperties_eq. apply Forall_fmap.
  rewrite (Array_sort_Permutation Tools.byRelevance scored).
  apply Forall_forall. by intros c [? _]%list_elem_of_filter.
Qed.

(** The property matches of relevance [r] are the eligible candidates with
    [r] appearing words, in the order in which they were fetched. *)
Lemma candidatesInProperties_stable r :
  (0 < r)%nat →
  Tools.node
    <$> filter (fun c => Tools.relevanceOf c = r)
          (Tools.candidatesInProperties q candidates)
  = filter (fun c => eligible c
                     ∧ length (Tools.appearingWordsOf (Tools.queryWords q) c)
                       = r)
      candidates.
Proof.
  intros Hr. rewrite candidatesInProperties_eq.
  assert (filter (fun c => Tools.relevanceOf c = r)
            (Tools.withExplanation <$> Array_sort Tools.byRelevance scored)
          = Tools.withExplanation
              <$> filter (fun c => Tools.relevanceOf c = r)
                    (Array_sort Tools.byRelevance scored)) as ->
    by exact (filter_fmap_key Tools.withExplanation
                (fun c => Tools.relevanceOf c = r) _).
  rewrite (Array_sort_stable Tools.byRelevance Tools.relevanceOf
             byRelevance_key r scored).
  rewrite list_filter_filter.
  assert (filter (fun c => Tools.relevanceOf c = r
                           ∧ (0 < Tools.relevanceOf c)%nat)
            (Tools.withRelevance (Tools.queryWords q)
               <$> filter eligible candidates)
          = Tools.withRelevance (Tools.queryWords q)
              <$> filter (fun c =>
                            length (Tools.appearingWordsOf
                                      (Tools.queryWords q) c) = r)
                    (filter eligible candidates)) as ->.
  { rewrite (filter_fmap_key (Tools.withRelevance (Tools.queryWords q))).
    f_equal. apply list_filter_iff. intros c. unfold compose.
    rewrite relevanceOf_withRelevance. lia. }
  rewrite list_filter_filter, node_of_scored.
  apply list_filter_iff. intros c. tauto.
Qed.

Lemma candidatesInProperties_fields :
  Forall (fun c =>
            Tools.appearingWords c
            = Some (Tools.appearingWordsOf (Tools.queryWords q) (Tools.node c))
            ∧ Tools.relevance c
              = Some (length (Tools.appearingWordsOf (Tools.queryWords q)
                                (Tools.node c)))
            ∧ Tools.matchExplanation c = Some (Tools.explanation c)
            ∧ Tools.edgesToCandidate c = None
            ∧ Tools.edgesFromCandidate c = None)
         (Tools.candidatesInProperties q candidates).
Proof.
  rewrite candidatesInProperties_eq. apply Forall_fmap.
  rewrite (Array_sort_Permutation Tools.byRelevance scored).
  apply Forall_forall.
  intros c [_ (n & -> & _)%list_elem_of_fmap]%list_elem_of_filter. done.
Qed.

Lemma rankCandidates_nodes c :
  c ∈ Tools.rankCandidates q candidates → Tools.node c ∈ candidates.
Proof.
  unfold Tools.rankCandidates. rewrite elem_of_app. intros [Hc|Hc].
  - apply list_elem_of_fmap in Hc as (n & -> & Hn).
    by apply list_elem_of_filter in Hn as [_ ?].
  - rewrite candidatesInProperties_eq in Hc.
    apply list_elem_of_fmap in Hc as (c' & -> & Hc').
    rewrite (Array_sort_Permutation Tools.byRelevance scored) in Hc'.
    apply list_elem_of_filter in Hc' as [_ (n & -> & Hn)%list_elem_of_fmap].
    by apply list_elem_of_filter in Hn as [_ ?].
Qed.

End Ranking.

Lemma withQuery_nodes query candidates c :
  c ∈ Tools.withQuery query candidates → Tools.node c ∈ candidates.
Proof.
  unfold Tools.withQuery.
  destruct query as [q|]; [destruct (truthy (Some q))|].
  - apply rankCandidates_nodes.
  - by intros (n & -> & ?)%list_elem_of_fmap.
  - by intros (n & -> & ?)%list_elem_of_fmap.
Qed.

Lemma byNodeType_subset nodeType fetched c :
  c ∈ Tools.byNodeType nodeType fetched → c ∈ fetched.
Proof.
  unfold Tools.byNodeType. destruct (truthy nodeType); [|done].
  by intros [_ ?]%list_elem_of_filter.
Qed.

(** ** What a successful [execute] went through *)

Lemma execute_Ok_inv g queries input resp :
  Tools.execute g queries input = Ok resp →
  let hops := default K1 (Tools.k input) in
  ∃ rest neighborIds fetched,
    Tools.getNodesByIds queries g [Tools.nodeId input]
    = Ok (Tools.mainNode resp :: rest)
    ∧ Tools.getKHopNeighborIds queries g (Tools.nodeId input) hops
        (Tools.edgeType input) = Ok neighborIds
    ∧ Tools.getNodesByIds queries g neighborIds = Ok fetched
    ∧ let ranked :=
        Tools.withQuery (Tools.query input)
          (Tools.byNodeType (Tools.nodeType input) fetched) in
      match hops with
      | K1 =>
          Forall2 (fun c o =>
                     ∃ edges,
                       Tools.getEdgesBetweenNodes queries g
                         (Tools.nodeId input) (Node.id (Tools.node c))
                       = Ok edges
                       ∧ o = Tools.withEdges edges (Tools.nodeId input) c)
                  ranked (Tools.neighbors resp)
      | K2 => Tools.neighbors resp = Tools.nodeFieldsOnly <$> ranked
      end.
Proof.
  unfold Tools.execute. intros H.
  destruct (bool_decide _ && truthy _); [done|].
  destruct (Tools.getNodesByIds queries g [Tools.nodeId input])
    as [[|mainNode rest]|e] eqn:Hmain; [done| |done]. simpl in H.
  destruct (Tools.getKHopNeighborIds _ _ _ _ _) as [neighborIds|e] eqn:Hids;
    [|done]. simpl in H.
  destruct (Tools.getNodesByIds queries g neighborIds) as [fetched|e]
    eqn:Hfetched; [|done]. simpl in H.
  exists rest, neighborIds, fetched.
  destruct (default K1 (Tools.k input)).
  - destruct (mapM _ _) as [out|e] eqn:Hm; [|done]. simpl in H.
    injection H as <-. split_and!; [done..|]. simpl.
    apply mapM_Ok_inv in Hm.
    eapply Forall2_impl; [exact Hm|]. intros c o Ho. simpl in Ho.
    destruct (Tools.getEdgesBetweenNodes _ _ _ _) as [edges|e]; [|done].
    simpl in Ho. injection Ho as <-. by exists edges.
  - injection H as <-. done.
Qed.

(** C8, as the code has it.  When [searchInSurroundings] succeeds on a
    non-empty query, its neighbour list is the name matches, in the order
    in which the candidates were fetched and without a [matchExplanation],
    followed by the property matches.  The candidates for a property match
    are those with properties whose id is not the id of a name match, and
    the relevance of one is the number of query words found in its
    properties, a word that the query repeats counted each time.  The
    property matches all have positive relevance, are in descending order
    of relevance, and those of equal relevance are in fetch order (a
    stable sort). *)
Theorem ranked_neighbors_names_then_properties
    (g : list Z) (queries : Tools.Queries) (input : Tools.Input)
    (resp : Tools.Response) (q : string) :
  Tools.execute g queries input = Ok resp →
  Tools.query input = Some q → q ≠ "" →
  ∃ neighborIds fetched outNamed outProps,
    Tools.getKHopNeighborIds queries g (Tools.nodeId input)
      (default K1 (Tools.k input)) (Tools.edgeType input) = Ok neighborIds
    ∧ Tools.getNodesByIds queries g neighborIds = Ok fetched
    ∧ let candidates := Tools.byNodeType (Tools.nodeType input) fetched in
      let named := filter (fun c => Tools.inName q c = true) candidates in
      let props := Tools.candidatesInProperties q candidates in
      Tools.neighbors resp = outNamed ++ outProps
      ∧ Forall2 (fun n o => Tools.node o = n
                            ∧ Tools.matchExplanation o = None)
                named outNamed
      ∧ Forall2 (fun c o => Tools.node o = Tools.node c) props outProps
      ∧ StronglySorted
          (fun a b => (Tools.relevanceOf b ≤ Tools.relevanceOf a)%nat) props
      ∧ Forall (fun c => (0 < Tools.relevanceOf c)%nat) props
      ∧ ∀ r, (0 < r)%nat →
             Tools.node <$> filter (fun c => Tools.relevanceOf c = r) props
             = filter
                 (fun c =>
                    ((Node.id c ∉ Node.id <$> named)
                     ∧ truthy (Node.properties c) = true)
                    ∧ length (Tools.appearingWordsOf (Tools.queryWords q) c)
                      = r)
                 candidates.
Proof.
  intros Hexec Hq Hne.
  destruct (execute_Ok_inv _ _ _ _ Hexec)
    as (rest & neighborIds & fetched & _ & Hids & Hfetched & Hout).
  simpl in Hout. rewrite Hq in Hout. unfold Tools.withQuery in Hout.
  assert (truthy (Some q) = true) as Ht by (simpl; by case_decide).
  rewrite Ht in Hout. unfold Tools.rankCandidates in Hout.
  set (candidates := Tools.byNodeType (Tools.nodeType input) fetched) in *.
  assert (∃ outNamed outProps,
            Tools.neighbors resp = outNamed ++ outProps
            ∧ Forall2 (fun n o => Tools.node o = n
                                  ∧ Tools.matchExplanation o = None)
                      (Tools.candidatesInName q candidates) outNamed
            ∧ Forall2 (fun c o => Tools.node o = Tools.node c)
                      (Tools.candidatesInProperties q candidates) outProps)
    as (outNamed & outProps & Happ & Hnamed & Hprops).
  { destruct (default K1 (Tools.k input)).
    - apply Forall2_app_inv_l in Hout as (k1 & k2 & H1 & H2 & ->).
      exists k1, k2. split; [done|]. split.
      + apply Forall2_fmap_l in H1.
        eapply Forall2_impl; [exact H1|].
        by intros n o (edges & _ & ->).
      + eapply Forall2_impl; [exact H2|].
        by intros c o (edges & _ & ->).
    - rewrite Hout, fmap_app. do 2 eexists. split; [done|]. split.
      + rewrite <-list_fmap_compose. apply Forall2_fmap_r, Forall_Forall2_diag.
        by apply Forall_forall.
      + apply Forall2_fmap_r, Forall_Forall2_diag. by apply Forall_forall. }
  exists neighborIds, fetched, outNamed, outProps.
  split; [done|]. split; [done|]. simpl. split_and!; [done..| | |].
  - apply candidatesInProperties_sorted.
  - apply candidatesInProperties_positive.
  - apply candidatesInProperties_stable.
Qed.

(** C10. The neighbours of a successful two-hop [searchInSurroundings]
    are the ranked candidates reduced to their five node fields: no
    relevance, no appearing words, no edge lists and no [matchExplanation],
    whatever the ranked candidate carried. *)
Theorem two_hop_neighbors_are_bare
    (g : list Z) (queries : Tools.Queries) (input : Tools.Input)
    (resp : Tools.Response) :
  Tools.execute g queries input = Ok resp →
  Tools.k input = Some K2 →
  ∃ neighborIds fetched,
    Tools.getKHopNeighborIds queries g (Tools.nodeId input) K2
      (Tools.edgeType input) = Ok neighborIds
    ∧ Tools.getNodesByIds queries g neighborIds = Ok fetched
    ∧ Tools.neighbors resp
      = Tools.bare ∘ Tools.node
          <$> Tools.withQuery (Tools.query input)
                (Tools.byNodeType (Tools.nodeType input) fetched)
    ∧ Forall (fun o => Tools.relevance o = None
                       ∧ Tools.appearingWords o = None
                       ∧ Tools.matchExplanation o = None
                       ∧ Tools.edgesToCandidate o = None
                       ∧ Tools.edgesFromCandidate o = None)
             (Tools.neighbors resp).
Proof.
  intros Hexec Hk.
  destruct (execute_Ok_inv _ _ _ _ Hexec)
    as (rest & neighborIds & fetched & _ & Hids & Hfetched & Hout).
  rewrite Hk in Hids, Hout. simpl in Hids, Hout.
  exists neighborIds, fetched. split_and!; [done..|].
  rewrite Hout. apply Forall_fmap, Forall_forall. done.
Qed.

(** Around the hub, for "kinase inhibitor": one name match, then three
    property matches of relevance 2, 1 and 1 - the two of relevance 1 in
    fetch order - while [P4], [P], [Q] and [X] are fetched and left out. *)
Lemma ranked_neighbors_names_then_properties_witness :
  ∃ resp fetched outNamed outProps,
    Tools.execute [1] RankingExample.queries
      (RankingExample.input "kinase inhibitor") = Ok resp
    ∧ Tools.getNodesByIds RankingExample.queries [1]
        ["N"; "P1"; "P2"; "P3"; "P4"; "P"; "Q"; "X"] = Ok fetched
    ∧ Node.id <$> fetched = ["N"; "P1"; "P2"; "P3"; "P4"; "P"; "Q"; "X"]
    ∧ Tools.neighbors resp = outNamed ++ outProps
    ∧ Tools.node <$> outNamed = [Parquet.tagNode 1 RankingExample.rowN]
    ∧ Tools.matchExplanation <$> outNamed = [None]
    ∧ Tools.node <$> outProps
      = Parquet.tagNode 1
          <$> [RankingExample.rowP2; RankingExample.rowP1;
               RankingExample.rowP3]
    ∧ Tools.matchExplanation <$> outProps
      = [Some "2 matches: kinase, inhibitor"; Some "1 match: kinase";
         Some "1 match: inhibitor"].
Proof.
  destruct (Tools.execute [1] RankingExample.queries
              (RankingExample.input "kinase inhibitor"))
    as [resp|e] eqn:Hexec; [|by vm_compute in Hexec].
  destruct (ranked_neighbors_names_then_properties [1] RankingExample.queries
              (RankingExample.input "kinase inhibitor") resp
              "kinase inhibitor" Hexec eq_refl)
    as (ids & fetched & outNamed & outProps & Hids & Hfetched & Happ
        & Hnamed%Forall2_length & _);
    [discriminate|].
  exists resp, fetched, outNamed, outProps. split; [done|].
  vm_compute in Hids. injection Hids as <-.
  split; [done|].
  vm_compute in Hfetched. injection Hfetched as <-.
  split; [by vm_compute|]. split; [done|].
  vm_compute in Hnamed.
  vm_compute in Hexec. injection Hexec as <-. simpl in Happ.
  destruct outNamed as [|o1 [|o2 outNamed]]; simplify_eq/=.
  by vm_compute.
Defined.

(** C8 as stated does not hold of the specification's relevance (the
    number of distinct query tokens found) and property matches (the
    candidates that are no name match themselves).  For
    "x1 x1 x1 y1 z1" the candidate [P], which has the one token [x1], is
    ranked before [Q], which has the two tokens [y1] and [z1]: the code
    counts [x1] three times.  For "kinase" over both graphs the node [X] of
    graph 2 is fetched and is a property match in the specification's
    sense, but is not returned: the node [X] of graph 1 matches by name
    and has the same id. *)
Lemma ranking_is_not_by_distinct_tokens :
  (∃ resp,
     Tools.execute [1] RankingExample.queries
       (RankingExample.input "x1 x1 x1 y1 z1") = Ok resp
     ∧ Tools.node <$> Tools.neighbors resp
       = Parquet.tagNode 1 <$> [RankingExample.rowP; RankingExample.rowQ]
     ∧ Tools.matchExplanation <$> Tools.neighbors resp
       = [Some "3 matches: x1, x1, x1"; Some "2 matches: y1, z1"])
  ∧ relevanceSpec "x1 x1 x1 y1 z1" (Parquet.tagNode 1 RankingExample.rowP)
    = 1%nat
  ∧ relevanceSpec "x1 x1 x1 y1 z1" (Parquet.tagNode 1 RankingExample.rowQ)
    = 2%nat
  ∧ (∃ resp fetched,
       Tools.execute [1; 2] RankingExample.queries
         (RankingExample.input "kinase") = Ok resp
       ∧ Tools.getNodesByIds RankingExample.queries [1; 2]
           ["N"; "P1"; "P2"; "P3"; "P4"; "P"; "Q"; "X"] = Ok fetched
       ∧ Parquet.tagNode 2 RankingExample.rowX2 ∈ fetched
       ∧ propertyMatchSpec "kinase" (Parquet.tagNode 2 RankingExample.rowX2)
       ∧ Parquet.tagNode 2 RankingExample.rowX2
         ∉ Tools.node <$> Tools.neighbors resp).
Proof.
  split_and!.
  - eexists. split; [reflexivity|]. by vm_compute.
  - by vm_compute.
  - by vm_compute.
  - do 2 eexists. split; [reflexivity|]. split; [reflexivity|].
    split_and!.
    + apply (bool_decide_unpack _). by vm_compute.
    + split; [by vm_compute|]. split; [by vm_compute|].
      apply (bool_decide_unpack _). by vm_compute.
    + apply (bool_decide_unpack _). by vm_compute.
Qed.

Lemma two_hop_neighbors_are_bare_witness :
  ∃ resp,
    Tools.execute [1] Example.parquetQueries Example.twoHopInput = Ok resp
    ∧ Tools.matchExplanation
        <$> Tools.withQuery (Tools.query Example.twoHopInput)
              (Parquet.tagNode 1 <$> [Example.rowB; Example.rowC; Example.rowD])
      = [Some "2 matches: glucose, insulin"; Some "1 match: glucose"]
    ∧ Tools.node <$> Tools.neighbors resp
      = Parquet.tagNode 1 <$> [Example.rowC; Example.rowD]
    ∧ Forall (fun o => Tools.relevance o = None
                       ∧ Tools.appearingWords o = None
                       ∧ Tools.matchExplanation o = None
                       ∧ Tools.edgesToCandidate o = None
                       ∧ Tools.edgesFromCandidate o = None)
             (Tools.neighbors resp).
Proof.
  destruct (Tools.execute [1] Example.parquetQueries Example.twoHopInput)
    as [resp|e] eqn:Hexec; [|by vm_compute in Hexec].
  destruct (two_hop_neighbors_are_bare [1] Example.parquetQueries
              Example.twoHopInput resp Hexec eq_refl)
    as (ids & fetched & _ & _ & _ & Hbare).
  exists resp. split; [done|]. split; [by vm_compute|].
  split; [|exact Hbare].
  vm_compute in Hexec. by injection Hexec as <-.
Defined.

(** ** Tokenization *)

Lemma lowerChar_space c : JsString.lowerChar c = " "%char ↔ c = " "%char.
Proof.
  destruct c as [[] [] [] [] [] [] [] []]; vm_compute; split; congruence.
Qed.

Lemma split_toLowerCase s :
  JsString.toLowerCase <$> JsString.split " " s
  = JsString.split " " (JsString.toLowerCase s).
Proof.
  induction s as [|c s IH]; [done|]. simpl.
  destruct (decide (c = " "%char)) as [->|Hc].
  - rewrite decide_True by done. by rewrite fmap_cons, IH.
  - rewrite decide_False by (by rewrite lowerChar_space).
    rewrite <-IH. by destruct (JsString.split " " s).
Qed.

Lemma replaceAll_absent pat rep s :
  JsString.countChar pat s = 0%nat → JsString.replaceAll pat rep s = s.
Proof.
  induction s as [|c s IH]; [done|]. simpl.
  case_decide; [done|]. intros Hs. by rewrite IH.
Qed.

Lemma replace_at_most_one pat rep s :
  (JsString.countChar pat s ≤ 1)%nat →
  JsString.replace pat rep s = JsString.replaceAll pat rep s.
Proof.
  induction s as [|c s IH]; [done|]. simpl.
  case_decide; intros Hs.
  - by rewrite replaceAll_absent by lia.
  - by rewrite IH by lia.
Qed.

(** C7, as the code has it.  For a query with at most one hyphen the
    tokens are obtained by turning the hyphen into a space, lower-casing,
    splitting at every space character (two adjacent spaces give an empty
    token; no other white space separates) and dropping the stop words; the
    appearing words and the relevance of every property match are computed
    from exactly these tokens. *)
Theorem queryWords_tokenization (q : string) (candidates : list Node.t) :
  (JsString.countChar "-" q ≤ 1)%nat →
  let tokens :=
    filter (fun w => w ∉ Tools.STOPWORDS)
      (JsString.split " "
         (JsString.toLowerCase (JsString.replaceAll "-" " " q))) in
  Tools.queryWords q = tokens
  ∧ Forall (fun c =>
              Tools.appearingWords c
              = Some (filter (fun w => Tools.inProperties (Tools.node c) w = true)
                        tokens)
              ∧ Tools.relevance c
                = Some (length
                          (filter (fun w =>
                                     Tools.inProperties (Tools.node c) w = true)
                                  tokens)))
           (Tools.candidatesInProperties q candidates).
Proof.
  intros Hq tokens.
  assert (Tools.queryWords q = tokens) as Htok.
  { unfold Tools.queryWords, tokens.
    by rewrite split_toLowerCase, replace_at_most_one. }
  split; [done|]. rewrite <-Htok.
  eapply Forall_impl; [apply candidatesInProperties_fields|].
  by intros c (? & ? & _).
Qed.

Lemma queryWords_tokenization_witness :
  Tools.queryWords "Heart-attack of the left  side"
  = ["heart"; "attack"; "left"; ""; "side"].
Proof.
  destruct (queryWords_tokenization "Heart-attack of the left  side" [])
    as [-> _]; [vm_compute; lia|].
  by vm_compute.
Defined.

(** C7 as stated does not hold: a tab does not separate two words, and
    only the first hyphen is replaced. *)
Lemma queryWords_is_not_tokenizeSpec :
  Tools.queryWords Example.tabbedQuery = [Example.tabbedQuery]
  ∧ Tools.tokenizeSpec Example.tabbedQuery = ["heart"; "attack"]
  ∧ Tools.queryWords "beta-2-agonist" = ["beta"; "2-agonist"]
  ∧ Tools.tokenizeSpec "beta-2-agonist" = ["beta"; "2"; "agonist"]
  ∧ ¬ (∀ q, Tools.queryWords q = Tools.tokenizeSpec q).
Proof.
  split_and!; try by vm_compute.
  intros H. specialize (H Example.tabbedQuery). by vm_compute in H.
Qed.

(** ** Authorized graphs only *)

Lemma Forall_filter {A : Type} (P Q : A → Prop) `{!∀ x, Decision (Q x)}
    (l : list A) :
  Forall P l → Forall P (filter Q l).
Proof.
  rewrite !Forall_forall. intros Hl x [_ ?]%list_elem_of_filter.
  by apply Hl.
Qed.

Lemma loadFiles_consistent entries :
  Parquet.consistent (Parquet.loadFiles entries).
Proof.
  unfold Parquet.loadFiles, Parquet.consistent.
  assert (∀ m : gmap Z Parquet.GraphFiles,
            map_Forall (fun id f => Parquet.knowledgeGraphId f = id) m →
            map_Forall (fun id f => Parquet.knowledgeGraphId f = id)
              (foldl (fun files e =>
                        <[e.1.1 := Parquet.mkGraphFiles e.1.1 e.1.2 e.2]> files)
                     m entries)) as H.
  { induction entries as [|e entries IH]; intros m Hm; [done|].
    simpl. apply IH. by apply map_Forall_insert_2. }
  apply H, map_Forall_empty.
Qed.

Lemma pathsFrom_authorized g info nodesInfo a b :
  Forall (authorizedNode g) nodesInfo →
  Forall (authorizedPath g) (Common.pathsFrom info nodesInfo a b).
Proof.
  rewrite !Forall_forall. intros Hn p. unfold Common.pathsFrom.
  destruct (Common.nodesMapOf nodesInfo !! a) as [sa|] eqn:Ha;
    [|by intros ?%elem_of_nil].
  destruct (Common.nodesMapOf nodesInfo !! b) as [sb|] eqn:Hb;
    [|by intros ?%elem_of_nil].
  apply nodesMapOf_Some in Ha as [Ha _], Hb as [Hb _].
  intros (i & _ & Hp)%list_elem_of_omap. unfold Common.pathOf in Hp.
  destruct (Common.nodesMapOf nodesInfo !! intermediateNodeId i)
    as [n|] eqn:Hi; [|done].
  apply nodesMapOf_Some in Hi as [Hi _].
  repeat case_match; simplify_eq.
  unfold authorizedPath. simpl. repeat constructor; by apply Hn.
Qed.

Section DbAuthorized.
Variable ilike : option string → string → bool.
Variable db : Db.Store.
Variable g : list Z.

Lemma Db_getNodesByIds_authorized ids l :
  Db.getNodesByIds db g ids = Ok l → Forall (authorizedNode g) l.
Proof.
  unfold Db.getNodesByIds. destruct ids; intros [= <-]; [done|].
  apply Forall_forall. by intros n [[? _] _]%list_elem_of_filter.
Qed.

Lemma Db_getEdgesBetweenNodes_authorized a b l :
  Db.getEdgesBetweenNodes db g a b = Ok l → Forall (authorizedEdge g) l.
Proof.
  intros [= <-]. apply Forall_forall.
  by intros e [[? _] _]%list_elem_of_filter.
Qed.

Lemma Db_searchNodesByName_authorized name limit l :
  g ≠ [] →
  Db.searchNodesByName ilike db name (Some g) limit = Ok l →
  Forall (authorizedNode g) l.
Proof.
  intros Hg [= <-]. apply Forall_take, Forall_forall.
  intros n [[_ Hn] _]%list_elem_of_filter. destruct g; [done|exact Hn].
Qed.

Lemma Db_findPaths_authorized a b l :
  Db.findPaths db g a b = Ok l → Forall (authorizedPath g) l.
Proof. by rewrite Db_findPaths_fails. Qed.

Lemma Db_getNeighbors_authorized n edgeType l x :
  Db.getNeighbors db g n edgeType = Ok l → x ∈ l →
  ∃ e, e ∈ Db.edge db ∧ authorizedEdge g e
       ∧ (Edge.from e = x ∨ Edge.to e = x).
Proof.
  destruct (Db_getNeighbors_spec db g n edgeType) as (l' & -> & _ & Hin).
  intros [= <-] (e & ? & ? & _ & _ & ->)%Hin. exists e.
  split_and!; [done..|].
  destruct (otherEnd_endpoint n e) as [->| ->]; auto.
Qed.

End DbAuthorized.

Section ParquetAuthorized.
Variable ilike : option string → string → bool.
Variable read_nodes : string → list Parquet.NodeRow.
Variable read_edges : string → list Parquet.EdgeRow.
Variable files : gmap Z Parquet.GraphFiles.
Variable g : list Z.
Hypothesis files_consistent : Parquet.consistent files.

Lemma sourceOf_Ok_unionAll {R : Type} (part : Parquet.GraphFiles → list R)
    (ids : list Z) rows :
  Parquet.sourceOf files part ids = Ok rows →
  rows = Parquet.unionAll files part ids.
Proof.
  intros H. pose proof (sourceOf_Ok_known _ _ _ _ H) as Hk.
  rewrite (sourceOf_known _ _ _ Hk) in H. by injection H as <-.
Qed.

Lemma nodesSource_authorized rows :
  Parquet.nodesSource read_nodes files g = Ok rows →
  Forall (authorizedNode g) rows.
Proof.
  intros ->%sourceOf_Ok_unionAll. apply Forall_forall.
  intros n (id & f & Hid & Hf & (r & -> & _)%list_elem_of_fmap)
           %elem_of_unionAll.
  unfold authorizedNode. simpl. by rewrite (files_consistent id f Hf).
Qed.

Lemma edgesSource_authorized rows :
  Parquet.edgesSource read_edges files g = Ok rows →
  Forall (authorizedEdge g) rows.
Proof.
  intros ->%sourceOf_Ok_unionAll. apply Forall_forall.
  intros n (id & f & Hid & Hf & (r & -> & _)%list_elem_of_fmap)
           %elem_of_unionAll.
  unfold authorizedEdge. simpl. by rewrite (files_consistent id f Hf).
Qed.

Lemma Parquet_getNodesByIds_authorized ids l :
  Parquet.getNodesByIds read_nodes files g ids = Ok l →
  Forall (authorizedNode g) l.
Proof.
  unfold Parquet.getNodesByIds. destruct ids; [by intros [= <-]|].
  destruct (Parquet.nodesSource _ _ _) as [src|e] eqn:Hsrc; [|done].
  intros [= <-]. by apply Forall_filter, nodesSource_authorized.
Qed.

Lemma Parquet_getEdgesBetweenNodes_authorized a b l :
  Parquet.getEdgesBetweenNodes read_edges files g a b = Ok l →
  Forall (authorizedEdge g) l.
Proof.
  unfold Parquet.getEdgesBetweenNodes.
  destruct (Parquet.edgesSource _ _ _) as [src|e] eqn:Hsrc; [|done].
  intros [= <-]. by apply Forall_filter, edgesSource_authorized.
Qed.

Lemma Parquet_searchNodesByName_authorized name limit l :
  Parquet.searchNodesByName ilike read_nodes files name (Some g) limit = Ok l →
  Forall (authorizedNode g) l.
Proof.
  unfold Parquet.searchNodesByName. simpl.
  destruct (Parquet.nodesSource _ _ _) as [src|e] eqn:Hsrc.
  - apply nodesSource_authorized in Hsrc.
    destruct g; intros [= <-]; [done|].
    by apply Forall_take, Forall_filter.
  - by destruct g; intros [= <-].
Qed.

Lemma Parquet_findPaths_authorized a b l :
  Parquet.findPaths read_nodes read_edges files g a b = Ok l →
  Forall (authorizedPath g) l.
Proof.
  unfold Parquet.findPaths.
  destruct (Parquet.edgesSource _ _ _) as [esrc|e]; [|done].
  destruct (Parquet.nodesSource _ _ _) as [nsrc|e]; [|done]. simpl.
  destruct (Common.innerJoin _ _) as [|i info]; [by intros [= <-]|].
  destruct (Parquet.getNodesByIds _ _ _ _) as [nodesInfo|e] eqn:Hn; [|done].
  intros [= <-].
  by apply pathsFrom_authorized, (Parquet_getNodesByIds_authorized _ _ Hn).
Qed.

Lemma Parquet_getNeighbors_authorized n edgeType l x :
  Parquet.getNeighbors read_edges files g n edgeType = Ok l → x ∈ l →
  ∃ id f r, id ∈ g ∧ files !! id = Some f
            ∧ r ∈ read_edges (Parquet.edgesPath f)
            ∧ (Parquet.from r = x ∨ Parquet.to r = x).
Proof.
  intros Hl Hx.
  pose proof (Parquet_getNeighbors_spec read_edges files g n edgeType) as H.
  rewrite Hl in H. destruct H as (_ & _ & Hin).
  apply Hin in Hx as (id & f & r & ? & ? & ? & _ & _ & ->).
  exists id, f, r. split_and!; [done..|].
  unfold Common.otherEnd. case_decide; auto.
Qed.

End ParquetAuthorized.

Section KHopElements.
Variable getNeighbors : list Z → string → option string → Result (list string).
Variable g : list Z.

Lemma twoHopLoop_elements n oneHop todo acc r x :
  Common.twoHopLoop getNeighbors g n oneHop todo acc = Ok r → x ∈ r →
  x ∈ acc ∨ ∃ m l, getNeighbors g m None = Ok l ∧ x ∈ l.
Proof.
  revert acc. induction todo as [|m todo IH]; intros acc; simpl.
  - intros [= <-]. by left.
  - destruct (getNeighbors g m None) as [l|e] eqn:Hm; [|done]. simpl.
    intros Hr Hx. destruct (IH _ Hr Hx) as [Hacc|?]; [|by right].
    rewrite addTwoHop_filter in Hacc.
    apply elem_of_foldl_Set_add in Hacc as [?|[_ ?]%list_elem_of_filter];
      [by left|right; eauto].
Qed.

(** Every id of an expansion was returned by some call of [getNeighbors]. *)
Lemma getKHopNeighborIds_elements n k edgeType r x :
  Common.getKHopNeighborIds getNeighbors g n k edgeType = Ok r → x ∈ r →
  ∃ m ty l, getNeighbors g m ty = Ok l ∧ x ∈ l.
Proof.
  unfold Common.getKHopNeighborIds. destruct k.
  - eauto.
  - destruct (truthy edgeType); [by intros [= <-] ?%elem_of_nil|].
    destruct (getNeighbors g n None) as [oneHop|e] eqn:Hn; [|done]. simpl.
    destruct (Common.twoHopLoop _ _ _ _ _ _) as [twoHop|e] eqn:Hloop;
      [|done]. simpl.
    intros [= <-] [?|Hx]%elem_of_app; [eauto|].
    destruct (twoHopLoop_elements _ _ _ _ _ _ Hloop Hx)
      as [?%elem_of_nil|(m & l & ? & ?)]; [done|eauto].
Qed.

End KHopElements.

Lemma execute_authorized g queries input resp :
  (∀ ids l, Tools.getNodesByIds queries g ids = Ok l →
            Forall (authorizedNode g) l) →
  Tools.execute g queries input = Ok resp →
  authorizedResponse g resp.
Proof.
  intros Hq Hexec.
  destruct (execute_Ok_inv _ _ _ _ Hexec)
    as (rest & neighborIds & fetched & Hmain & _ & Hfetched & Hout).
  apply Hq in Hmain, Hfetched. split.
  - by apply Forall_cons in Hmain as [? _].
  - rewrite Forall_forall in Hfetched.
    assert (∀ c, c ∈ Tools.withQuery (Tools.query input)
                       (Tools.byNodeType (Tools.nodeType input) fetched) →
                 authorizedNode g (Tools.node c)) as Hranked.
    { intros c Hc%withQuery_nodes%byNodeType_subset. by apply Hfetched. }
    simpl in Hout. destruct (default K1 (Tools.k input)).
    + apply Forall_forall. intros o Ho.
      apply list_elem_of_lookup in Ho as [i Hi].
      destruct (Forall2_lookup_r _ _ _ _ _ Hout Hi)
        as (c & Hc%list_elem_of_lookup_2 & edges & _ & ->).
      exact (Hranked c Hc).
    + rewrite Hout. apply Forall_fmap, Forall_forall. intros c Hc.
      exact (Hranked c Hc).
Qed.

(** C2, as the code has it.  Under a list [g] of authorized graph ids,
    every node and edge the queries and the tool return belongs to a graph
    of [g]: the nodes of [getNodesByIds], the edges of
    [getEdgesBetweenNodes], the nodes on the legs of every path, the main
    node and the neighbours of [searchInSurroundings], the nodes of the
    name search, and every id of a neighbour expansion is an end of an edge
    of such a graph.  The one exception is the relational name search, which
    applies no graph filter when [g] is empty.  (The parquet file table is
    taken as [GraphLoader] builds it, each entry under its own id.) *)
Theorem results_stay_in_authorized_graphs
    (ilike : option string → string → bool) (db : Db.Store)
    (read_nodes : string → list Parquet.NodeRow)
    (read_edges : string → list Parquet.EdgeRow)
    (files : gmap Z Parquet.GraphFiles) (g : list Z) :
  Parquet.consistent files →
  (∀ queries,
     queries = Tools.dbQueries ilike db
     ∨ queries = Tools.createQueries ilike read_nodes read_edges files →
     (∀ ids l, Tools.getNodesByIds queries g ids = Ok l →
               Forall (authorizedNode g) l)
     ∧ (∀ a b l, Tools.getEdgesBetweenNodes queries g a b = Ok l →
                 Forall (authorizedEdge g) l)
     ∧ (∀ a b l, Tools.findPaths queries g a b = Ok l →
                 Forall (authorizedPath g) l)
     ∧ (∀ input resp, Tools.execute g queries input = Ok resp →
                      authorizedResponse g resp))
  ∧ (∀ name limit l,
       Parquet.searchNodesByName ilike read_nodes files name (Some g) limit
       = Ok l →
       Forall (authorizedNode g) l)
  ∧ (g ≠ [] →
     ∀ name limit l,
       Db.searchNodesByName ilike db name (Some g) limit = Ok l →
       Forall (authorizedNode g) l)
  ∧ (∀ n k edgeType l x,
       Db.getKHopNeighborIds db g n k edgeType = Ok l → x ∈ l →
       ∃ e, e ∈ Db.edge db ∧ authorizedEdge g e
            ∧ (Edge.from e = x ∨ Edge.to e = x))
  ∧ (∀ n k edgeType l x,
       Parquet.getKHopNeighborIds read_edges files g n k edgeType = Ok l →
       x ∈ l →
       ∃ id f r, id ∈ g ∧ files !! id = Some f
                 ∧ r ∈ read_edges (Parquet.edgesPath f)
                 ∧ (Parquet.from r = x ∨ Parquet.to r = x)).
Proof.
  intros Hfiles. split_and!.
  - intros queries [-> | ->].
    + assert (∀ ids l, Db.getNodesByIds db g ids = Ok l →
                       Forall (authorizedNode g) l) as Hn
        by apply Db_getNodesByIds_authorized.
      split_and!; [exact Hn| | |].
      * apply Db_getEdgesBetweenNodes_authorized.
      * apply Db_findPaths_authorized.
      * intros input resp. by apply execute_authorized.
    + assert (∀ ids l, Parquet.getNodesByIds read_nodes files g ids = Ok l →
                       Forall (authorizedNode g) l) as Hn
        by (by apply Parquet_getNodesByIds_authorized).
      split_and!; [exact Hn| | |].
      * by apply Parquet_getEdgesBetweenNodes_authorized.
      * by apply Parquet_findPaths_authorized.
      * intros input resp. by apply execute_authorized.
  - by apply Parquet_searchNodesByName_authorized.
  - intros Hg name limit l. by apply Db_searchNodesByName_authorized.
  - intros n k edgeType l x Hl Hx.
    destruct (getKHopNeighborIds_elements _ _ _ _ _ _ _ Hl Hx)
      as (m & ty & l' & Hl' & Hx').
    by apply (Db_getNeighbors_authorized db g m ty l').
  - intros n k edgeType l x Hl Hx.
    destruct (getKHopNeighborIds_elements _ _ _ _ _ _ _ Hl Hx)
      as (m & ty & l' & Hl' & Hx').
    by apply (Parquet_getNeighbors_authorized read_edges files g m ty l').
Qed.

Lemma results_stay_in_authorized_graphs_witness :
  (∀ input resp,
     Tools.execute [1] Example.parquetQueries input = Ok resp →
     authorizedResponse [1] resp)
  ∧ ∃ l, Tools.findNodesByName [1] Example.dbQueries "met" = Ok l
         ∧ l ≠ [] ∧ Forall (authorizedNode [1]) l.
Proof.
  assert (Parquet.consistent Example.files) as Hfiles
    by (apply (bool_decide_unpack _); by vm_compute).
  destruct (results_stay_in_authorized_graphs Example.ilike Example.db
              Example.read_nodes Example.read_edges Example.files [1] Hfiles)
    as (Hq & _ & Hdb & _).
  split.
  - apply (Hq Example.parquetQueries). by right.
  - destruct (Tools.findNodesByName [1] Example.dbQueries "met")
      as [l|e] eqn:Hl; [|by vm_compute in Hl].
    exists l. split; [done|]. split.
    + vm_compute in Hl. by injection Hl as <-.
    + by apply (Hdb ltac:(done) "met" 10%nat l).
Defined.

(** C2 as stated does not hold for the empty list of graph ids: the
    relational name search then returns nodes of every graph. *)
Lemma name_search_with_no_graph_ids_is_unfiltered :
  ∃ l n, Tools.findNodesByName [] Example.dbQueries "met" = Ok l
         ∧ n ∈ l ∧ ¬ authorizedNode [] n.
Proof.
  eexists _, (Parquet.tagNode 1 Example.rowA). split; [by vm_compute|].
  split; [by left|]. by intros ?%elem_of_nil.
Qed.

(** ** The example store at work *)

Example one_hop_of_looped_node :
  Db.getNeighbors Example.db [1] "C" None = Ok ["B"; "C"]
  ∧ Db.getNeighbors Example.db [1] "A" None = Ok ["B"]
  ∧ Parquet.getNeighbors Example.read_edges Example.files [1] "C" None
    = Ok ["B"; "C"].
Proof. by vm_compute. Qed.

Example findPaths_there_and_back :
  ∃ p q,
    Parquet.findPaths Example.read_nodes Example.read_edges Example.files
      [1] "A" "C" = Ok p
    ∧ Parquet.findPaths Example.read_nodes Example.read_edges Example.files
        [1] "C" "A" = Ok q
    ∧ length p = 2%nat ∧ Common.reversePath <$> p ≡ₚ q
    ∧ Db.findPaths Example.db [1] "A" "C" = Throw FailedToFindPaths.
Proof.
  do 2 eexists. split; [by vm_compute|]. split; [by vm_compute|].
  split; [done|]. split; [by vm_compute|done].
Qed.

(** * Further properties of the code *)

(** ** Edges as undirected connections *)

Lemma touches_otherEnd_joins n e x :
  Common.touches n e ∧ x = Common.otherEnd n (Edge.from e) (Edge.to e)
  ↔ joins e n x.
Proof.
  unfold Common.touches, Common.otherEnd, joins.
  case_decide; intuition congruence.
Qed.

Lemma joins_comm e a b : joins e a b ↔ joins e b a.
Proof. unfold joins. tauto. Qed.

Lemma elem_of_neighbor_ids (E : list Edge.t) n edgeType x :
  x ∈ (fun e => Common.otherEnd n (Edge.from e) (Edge.to e))
        <$> filter (fun e => Common.touches n e
                             ∧ Common.typeFilter edgeType (Edge.type e)) E
  ↔ ∃ e, e ∈ E ∧ Common.typeFilter edgeType (Edge.type e) ∧ joins e n x.
Proof.
  rewrite list_elem_of_fmap. split.
  - intros (e & -> & [[Ht Hty] He]%list_elem_of_filter).
    exists e. split_and!; [done..|]. by apply touches_otherEnd_joins.
  - intros (e & He & Hty & [Ht ->]%touches_otherEnd_joins).
    exists e. split; [done|]. by apply list_elem_of_filter.
Qed.

Section NeighborsByStore.
Variable db : Db.Store.
Variable read_edges : string → list Parquet.EdgeRow.
Variable files : gmap Z Parquet.GraphFiles.
Variable g : list Z.

Lemma elem_of_dbEdges e :
  e ∈ dbEdges db g ↔ e ∈ Db.edge db ∧ Edge.knowledgeGraphId e ∈ g.
Proof. unfold dbEdges. rewrite list_elem_of_filter. tauto. Qed.

Lemma Db_getNeighbors_joins n edgeType :
  ∃ l, Db.getNeighbors db g n edgeType = Ok l ∧ NoDup l
       ∧ ∀ x, x ∈ l ↔ ∃ e, e ∈ dbEdges db g
                           ∧ Common.typeFilter edgeType (Edge.type e)
                           ∧ joins e n x.
Proof.
  destruct (Db_getNeighbors_spec db g n edgeType) as (l & Hl & Hnd & Hin).
  exists l. split; [done|]. split; [done|]. intros x. rewrite Hin. split.
  - intros (e & ? & ? & Ht & ? & Hx). exists e.
    split; [by apply elem_of_dbEdges|]. split; [done|].
    by apply touches_otherEnd_joins.
  - intros (e & [??]%elem_of_dbEdges & ? & [??]%touches_otherEnd_joins).
    exists e. done.
Qed.

(** The parquet [getNeighbors] either answers every request for [g], or
    fails on every request with one and the same error. *)
Lemma Parquet_getNeighbors_cases :
  (Parquet.allKnown files g
   ∧ ∀ n edgeType,
       ∃ l, Parquet.getNeighbors read_edges files g n edgeType = Ok l
            ∧ NoDup l
            ∧ ∀ x, x ∈ l ↔ ∃ e, e ∈ parquetEdges read_edges files g
                                ∧ Common.typeFilter edgeType (Edge.type e)
                                ∧ joins e n x)
  ∨ (¬ Parquet.allKnown files g
     ∧ ∃ err, ∀ n edgeType,
         Parquet.getNeighbors read_edges files g n edgeType = Throw err).
Proof.
  destruct (decide (Parquet.allKnown files g)) as [Hk|Hk].
  - left. split; [done|]. intros n edgeType.
    unfold Parquet.getNeighbors, Parquet.edgesSource.
    rewrite (sourceOf_known _ _ _ Hk). simpl. eexists. split; [done|].
    split; [apply NoDup_new_Set|]. intros x.
    rewrite elem_of_new_Set. apply elem_of_neighbor_ids.
  - right. split; [done|]. unfold Parquet.getNeighbors.
    destruct (Parquet.edgesSource read_edges files g) as [src|err] eqn:Hsrc.
    + destruct Hk. by apply sourceOf_Ok_known in Hsrc.
    + by exists err.
Qed.

End NeighborsByStore.

(** X1. Neighbourhood is symmetric: [b] is listed among the neighbours of
    [a] exactly when [a] is listed among the neighbours of [b], under the
    same edge-type filter.  (In the parquet store the two calls fail
    together when the graph ids cannot be read.) *)
Theorem neighbors_symmetric
    (db : Db.Store) (read_edges : string → list Parquet.EdgeRow)
    (files : gmap Z Parquet.GraphFiles)
    (g : list Z) (a b : string) (edgeType : option string) :
  (∃ la lb, Db.getNeighbors db g a edgeType = Ok la
            ∧ Db.getNeighbors db g b edgeType = Ok lb
            ∧ (b ∈ la ↔ a ∈ lb))
  ∧ match Parquet.getNeighbors read_edges files g a edgeType,
          Parquet.getNeighbors read_edges files g b edgeType with
    | Ok la, Ok lb => b ∈ la ↔ a ∈ lb
    | Throw err, Throw err' => err = err'
    | _, _ => False
    end.
Proof.
  split.
  - destruct (Db_getNeighbors_joins db g a edgeType) as (la & Ha & _ & Hina).
    destruct (Db_getNeighbors_joins db g b edgeType) as (lb & Hb & _ & Hinb).
    exists la, lb. split; [done|]. split; [done|].
    rewrite Hina, Hinb. by setoid_rewrite (joins_comm _ a b).
  - destruct (Parquet_getNeighbors_cases read_edges files g)
      as [[_ H]|[_ [err H]]].
    + destruct (H a edgeType) as (la & -> & _ & Hina).
      destruct (H b edgeType) as (lb & -> & _ & Hinb).
      rewrite Hina, Hinb. by setoid_rewrite (joins_comm _ a b).
    + by rewrite !H.
Qed.

(** The two parquet sources are readable together or fail together, with
    the same error. *)
Lemma parquet_sources_cases
    (read_nodes : string → list Parquet.NodeRow)
    (read_edges : string → list Parquet.EdgeRow)
    (files : gmap Z Parquet.GraphFiles) (g : list Z) :
  (Parquet.allKnown files g
   ∧ Parquet.edgesSource read_edges files g
     = Ok (parquetEdges read_edges files g)
   ∧ Parquet.nodesSource read_nodes files g
     = Ok (parquetNodes read_nodes files g))
  ∨ (¬ Parquet.allKnown files g
     ∧ ∃ err, Parquet.edgesSource read_edges files g = Throw err
              ∧ Parquet.nodesSource read_nodes files g = Throw err).
Proof.
  destruct (decide (Parquet.allKnown files g)) as [Hk|Hk].
  - left. split; [done|]. split; by apply sourceOf_known.
  - right. split; [done|].
    destruct (list_find (fun id => files !! id = None) g) as [[i id]|] eqn:Hf.
    + exists (UnknownGraphId id).
      split; by apply (sourceOf_unknown _ _ _ i).
    + destruct g as [|id g]; [by exists EmptyFromClause|].
      destruct Hk. split; [done|]. apply Forall_forall. intros x Hx.
      destruct (files !! x) as [f|] eqn:Hfx; [done|].
      destruct (list_find_elem_of (fun id => files !! id = None) _ x Hx Hfx)
        as [? Hsome].
      by rewrite Hf in Hsome.
Qed.

Lemma nonempty_elem_of {A : Type} (l : list A) : l ≠ [] ↔ ∃ x, x ∈ l.
Proof.
  destruct l as [|x l].
  - split; [done|]. by intros [x ?%elem_of_nil].
  - split; [|done]. intros _. exists x. by left.
Qed.

Section KHopNoDup.
Variable getNeighbors : list Z → string → option string → Result (list string).
Variable g : list Z.
Hypothesis getNeighbors_NoDup :
  ∀ m ty l, getNeighbors g m ty = Ok l → NoDup l.

Lemma twoHopLoop_NoDup n oneHop todo acc r :
  NoDup acc → Forall (Common.isNew n oneHop) acc →
  Common.twoHopLoop getNeighbors g n oneHop todo acc = Ok r →
  NoDup r ∧ Forall (Common.isNew n oneHop) r.
Proof.
  revert acc. induction todo as [|m todo IH]; intros acc Hnd Hnew; simpl.
  - by intros [= <-].
  - destruct (getNeighbors g m None) as [l|e]; [|done]. simpl.
    apply IH; rewrite addTwoHop_filter.
    + by apply NoDup_foldl_Set_add.
    + rewrite Forall_forall in Hnew. apply Forall_forall. intros x.
      rewrite elem_of_foldl_Set_add, list_elem_of_filter.
      intros [?|[? _]]; [by apply Hnew|done].
Qed.

Lemma getKHopNeighborIds_NoDup n k edgeType l :
  Common.getKHopNeighborIds getNeighbors g n k edgeType = Ok l → NoDup l.
Proof.
  unfold Common.getKHopNeighborIds. destruct k.
  - apply getNeighbors_NoDup.
  - destruct (truthy edgeType); [intros [= <-]; constructor|].
    destruct (getNeighbors g n None) as [oneHop|e] eqn:Hn; [|done]. simpl.
    destruct (Common.twoHopLoop _ _ _ _ _ _) as [twoHop|e] eqn:Hloop;
      [|done]. simpl. intros [= <-].
    destruct (twoHopLoop_NoDup _ _ _ _ _ (NoDup_nil_2) (Forall_nil_2 _) Hloop)
      as [Hnd Hnew].
    apply NoDup_app. split; [by eapply getNeighbors_NoDup|]. split; [|done].
    intros x Hx Hx2. rewrite Forall_forall in Hnew.
    by destruct (Hnew x Hx2) as [_ ?].
Qed.

End KHopNoDup.

(** X2. A neighbour expansion never lists an id twice, whatever the hop
    count and the edge-type filter.  The relational store always answers;
    the parquet store fails only when the graph ids cannot be read. *)
Theorem expansion_has_no_duplicates
    (db : Db.Store) (read_edges : string → list Parquet.EdgeRow)
    (files : gmap Z Parquet.GraphFiles)
    (g : list Z) (n : string) (k : Hops) (edgeType : option string) :
  (∃ l, Db.getKHopNeighborIds db g n k edgeType = Ok l ∧ NoDup l)
  ∧ match Parquet.getKHopNeighborIds read_edges files g n k edgeType with
    | Ok l => NoDup l
    | Throw _ => ¬ Parquet.allKnown files g
    end.
Proof.
  split.
  - assert (∃ l, Db.getKHopNeighborIds db g n k edgeType = Ok l) as [l Hl].
    { destruct k; [by eexists|].
      destruct (truthy edgeType) eqn:Hty.
      - exists []. unfold Db.getKHopNeighborIds, Common.getKHopNeighborIds.
        by rewrite Hty.
      - destruct (Db_getNeighbors_total db g) as [nb Hnb]. eexists.
        by apply (getKHopNeighborIds_two_hops _ _ _ _ nb). }
    exists l. split; [done|].
    eapply getKHopNeighborIds_NoDup; [|exact Hl].
    intros m ty l' Hl'.
    destruct (Db_getNeighbors_joins db g m ty) as (l'' & Hl'' & Hnd & _).
    rewrite Hl' in Hl''. by injection Hl'' as <-.
  - destruct (Parquet.getKHopNeighborIds read_edges files g n k edgeType)
      as [l|err] eqn:Hl.
    + eapply getKHopNeighborIds_NoDup; [|exact Hl].
      intros m ty l' Hl'.
      destruct (Parquet_getNeighbors_cases read_edges files g)
        as [[_ H]|[_ [err H]]].
      * destruct (H m ty) as (l'' & Hl'' & Hnd & _).
        rewrite Hl' in Hl''. by injection Hl'' as <-.
      * by rewrite H in Hl'.
    + intros Hk.
      destruct (Parquet_getNeighbors_total read_edges files g Hk) as [nb Hnb].
      unfold Parquet.getKHopNeighborIds in Hl. destruct k.
      * simpl in Hl.
        destruct (Parquet_getNeighbors_cases read_edges files g)
          as [[_ H]|[Hnk _]]; [|done].
        destruct (H n edgeType) as (l' & Hl' & _). by rewrite Hl' in Hl.
      * destruct (truthy edgeType) eqn:Hty.
        -- unfold Common.getKHopNeighborIds in Hl. by rewrite Hty in Hl.
        -- by rewrite (getKHopNeighborIds_two_hops _ _ _ _ nb) in Hl.
Qed.

Lemma Db_getEdgesBetweenNodes_eq (db : Db.Store) (g : list Z) a b :
  Db.getEdgesBetweenNodes db g a b
  = Ok (filter (fun e => joins e a b) (dbEdges db g)).
Proof.
  unfold Db.getEdgesBetweenNodes, dbEdges. f_equal.
  rewrite list_filter_filter. apply list_filter_iff. intros e.
  unfold joins. tauto.
Qed.

Lemma Parquet_getEdgesBetweenNodes_known
    (read_edges : string → list Parquet.EdgeRow)
    (files : gmap Z Parquet.GraphFiles) (g : list Z) a b :
  Parquet.allKnown files g →
  Parquet.getEdgesBetweenNodes read_edges files g a b
  = Ok (filter (fun e => joins e a b) (parquetEdges read_edges files g)).
Proof.
  intros Hk. unfold Parquet.getEdgesBetweenNodes, Parquet.edgesSource.
  by rewrite (sourceOf_known _ _ _ Hk).
Qed.

Lemma filter_joins_comm (E : list Edge.t) a b :
  filter (fun e => joins e a b) E = filter (fun e => joins e b a) E.
Proof. apply list_filter_iff. intros e. apply joins_comm. Qed.

Lemma filter_joins_nonempty (E : list Edge.t) a b :
  filter (fun e => joins e a b) E ≠ []
  ↔ ∃ e, e ∈ E ∧ Common.typeFilter None (Edge.type e) ∧ joins e a b.
Proof.
  rewrite nonempty_elem_of. split.
  - intros (e & [??]%list_elem_of_filter). by exists e.
  - intros (e & ? & _ & ?). exists e. by apply list_elem_of_filter.
Qed.

(** X3. [getEdgesBetweenNodes] does not depend on the order of its two
    node ids, returns only edges that run between them, and returns at
    least one edge exactly when the second node is an (unfiltered) neighbour
    of the first. *)
Theorem edges_between_iff_neighbor
    (db : Db.Store) (read_edges : string → list Parquet.EdgeRow)
    (files : gmap Z Parquet.GraphFiles) (g : list Z) (a b : string) :
  (∃ es l, Db.getEdgesBetweenNodes db g a b = Ok es
           ∧ Db.getEdgesBetweenNodes db g b a = Ok es
           ∧ Db.getNeighbors db g a None = Ok l
           ∧ Forall (fun e => joins e a b) es
           ∧ (es ≠ [] ↔ b ∈ l))
  ∧ match Parquet.getEdgesBetweenNodes read_edges files g a b,
          Parquet.getEdgesBetweenNodes read_edges files g b a,
          Parquet.getNeighbors read_edges files g a None with
    | Ok es, Ok es', Ok l =>
        es = es' ∧ Forall (fun e => joins e a b) es ∧ (es ≠ [] ↔ b ∈ l)
    | Throw err, Throw err', Throw err'' => err = err' ∧ err = err''
    | _, _, _ => False
    end.
Proof.
  split.
  - destruct (Db_getNeighbors_joins db g a None) as (l & Hl & _ & Hin).
    exists (filter (fun e => joins e a b) (dbEdges db g)), l.
    split; [apply Db_getEdgesBetweenNodes_eq|].
    split; [by rewrite Db_getEdgesBetweenNodes_eq, filter_joins_comm|].
    split; [done|]. split.
    + apply Forall_forall. by intros e [? _]%list_elem_of_filter.
    + by rewrite filter_joins_nonempty, Hin.
  - destruct (Parquet_getNeighbors_cases read_edges files g)
      as [[Hk H]|[Hk [err H]]].
    + rewrite !(Parquet_getEdgesBetweenNodes_known _ _ _ _ _ Hk).
      destruct (H a None) as (l & -> & _ & Hin).
      split; [apply filter_joins_comm|]. split.
      * apply Forall_forall. by intros e [? _]%list_elem_of_filter.
      * by rewrite filter_joins_nonempty, Hin.
    + rewrite H. unfold Parquet.getEdgesBetweenNodes.
      specialize (H a None). unfold Parquet.getNeighbors in H.
      destruct (Parquet.edgesSource read_edges files g) as [src|err'];
        simpl in *; [done|]. by injection H as ->.
Qed.

(** ** The paths that [findPaths] returns *)

Lemma elem_of_neighborRows (E : list Edge.t) n x t :
  (x, t) ∈ Common.neighborRows n E
  ↔ ∃ e, e ∈ E ∧ joins e n x ∧ t = Edge.type e.
Proof.
  unfold Common.neighborRows. rewrite list_elem_of_fmap. split.
  - intros (e & [= -> ->] & [Ht He]%list_elem_of_filter).
    exists e. split; [done|]. split; [|done].
    by apply touches_otherEnd_joins.
  - intros (e & He & [Ht ->]%touches_otherEnd_joins & ->).
    exists e. split; [done|]. by apply list_elem_of_filter.
Qed.

Lemma elem_of_innerJoin ss ds i :
  i ∈ Common.innerJoin ss ds
  ↔ ∃ s d, s ∈ ss ∧ d ∈ ds ∧ s.1 = d.1 ∧ i = mkInfo s.1 s.2 d.2.
Proof.
  unfold Common.innerJoin. rewrite list_elem_of_bind. split.
  - intros (s & (d & Hi & Hd)%list_elem_of_bind & Hs).
    case_decide; [|by apply elem_of_nil in Hi].
    apply list_elem_of_singleton in Hi. by exists s, d.
  - intros (s & d & Hs & Hd & Heq & ->). exists s. split; [|done].
    apply list_elem_of_bind. exists d. split; [|done].
    rewrite decide_True by done. by left.
Qed.

Lemma nodesMapOf_snoc l n :
  Common.nodesMapOf (l ++ [n]) = <[Node.id n := n]> (Common.nodesMapOf l).
Proof. unfold Common.nodesMapOf. by rewrite foldl_app. Qed.

Lemma nodesMapOf_is_Some l x :
  (∃ n, n ∈ l ∧ Node.id n = x) → is_Some (Common.nodesMapOf l !! x).
Proof.
  induction l as [|n l IH] using rev_ind.
  - by intros (n & ?%elem_of_nil & _).
  - intros (n' & Hn' & Hid). rewrite nodesMapOf_snoc.
    destruct (decide (Node.id n = x)) as [<-|Hne].
    + rewrite lookup_insert_eq. by eexists.
    + rewrite lookup_insert_ne by done. apply IH.
      apply elem_of_app in Hn' as [?|Hn']; [by exists n'|].
      apply list_elem_of_singleton in Hn' as ->. done.
Qed.

Section TwoLegPaths.
Variable E : list Edge.t.
Variable N : list Node.t.
Variables a b : string.

Lemma twoLegPaths_sound p :
  p ∈ twoLegPaths E N a b →
  ∃ sa m sb t1 t2 e1 e2,
    p = mkPath [mkLeg sa t1 m; mkLeg m t2 sb]
    ∧ sa ∈ N ∧ Node.id sa = a ∧ sb ∈ N ∧ Node.id sb = b ∧ m ∈ N
    ∧ t1 ≠ "" ∧ t2 ≠ ""
    ∧ e1 ∈ E ∧ joins e1 a (Node.id m) ∧ Edge.type e1 = Some t1
    ∧ e2 ∈ E ∧ joins e2 b (Node.id m) ∧ Edge.type e2 = Some t2.
Proof.
  unfold twoLegPaths, Common.pathsFrom. cbv zeta.
  destruct (Common.nodesMapOf _ !! a) as [sa|] eqn:Ha;
    [|by intros ?%elem_of_nil].
  destruct (Common.nodesMapOf _ !! b) as [sb|] eqn:Hb;
    [|by intros ?%elem_of_nil].
  intros (i & Hi & Hp)%list_elem_of_omap. unfold Common.pathOf in Hp.
  destruct (Common.nodesMapOf _ !! intermediateNodeId i) as [m|] eqn:Hm;
    [|done].
  destruct (sourceEdgeType i) as [t1|] eqn:Ht1; [|done].
  destruct (destinationEdgeType i) as [t2|] eqn:Ht2; [|done].
  unfold truthy in Hp.
  destruct (decide (t1 = "")) as [|Hne1]; [done|].
  destruct (decide (t2 = "")) as [|Hne2]; [done|].
  simpl in Hp. injection Hp as <-.
  apply nodesMapOf_Some in Ha as [[_ Ha]%list_elem_of_filter Hida].
  apply nodesMapOf_Some in Hb as [[_ Hb]%list_elem_of_filter Hidb].
  apply nodesMapOf_Some in Hm as [[_ Hm]%list_elem_of_filter Hidm].
  apply elem_of_innerJoin in Hi as ([x s] & [y d] & Hs & Hd & Hxy & ->).
  simpl in *. subst y. simplify_eq.
  apply elem_of_neighborRows in Hs as (e1 & He1 & Hj1 & Hty1).
  apply elem_of_neighborRows in Hd as (e2 & He2 & Hj2 & Hty2).
  exists sa, m, sb, t1, t2, e1, e2. split_and!; done.
Qed.

Lemma twoLegPaths_complete x t1 t2 e1 e2 :
  e1 ∈ E → joins e1 a x → Edge.type e1 = Some t1 → t1 ≠ "" →
  e2 ∈ E → joins e2 b x → Edge.type e2 = Some t2 → t2 ≠ "" →
  (∃ n, n ∈ N ∧ Node.id n = a) → (∃ n, n ∈ N ∧ Node.id n = b) →
  (∃ n, n ∈ N ∧ Node.id n = x) →
  ∃ sa m sb,
    Node.id sa = a ∧ Node.id m = x ∧ Node.id sb = b
    ∧ mkPath [mkLeg sa t1 m; mkLeg m t2 sb] ∈ twoLegPaths E N a b.
Proof.
  intros He1 Hj1 Hty1 Hne1 He2 Hj2 Hty2 Hne2 Hna Hnb Hnx.
  unfold twoLegPaths, Common.pathsFrom. cbv zeta.
  set (info := Common.innerJoin _ _).
  assert (mkInfo x (Some t1) (Some t2) ∈ info) as Hi.
  { apply elem_of_innerJoin. exists (x, Some t1), (x, Some t2).
    split_and!; try done; apply elem_of_neighborRows; eauto. }
  set (fetched := filter _ N).
  assert (∀ y, (∃ n, n ∈ N ∧ Node.id n = y) →
               y ∈ Common.nodeIdsToFetch info a b →
               ∃ n, Common.nodesMapOf fetched !! y = Some n ∧ Node.id n = y)
    as Hlook.
  { intros y (n & Hn & Hid) Hy.
    destruct (nodesMapOf_is_Some fetched y) as [n' Hn'].
    - exists n. split; [|done]. apply list_elem_of_filter. by rewrite Hid.
    - exists n'. split; [done|]. by apply nodesMapOf_Some in Hn' as [_ ?]. }
  destruct (Hlook a Hna) as (sa & Hsa & Hida).
  { apply elem_of_nodeIdsToFetch. by left. }
  destruct (Hlook b Hnb) as (sb & Hsb & Hidb).
  { apply elem_of_nodeIdsToFetch. right. by left. }
  destruct (Hlook x Hnx) as (m & Hm & Hidm).
  { apply elem_of_nodeIdsToFetch. right. right. by eexists. }
  exists sa, m, sb. split_and!; [done..|].
  rewrite Hsa, Hsb. apply list_elem_of_omap.
  exists (mkInfo x (Some t1) (Some t2)). split; [done|].
  unfold Common.pathOf. simpl. rewrite Hm.
  by rewrite !decide_False by done.
Qed.

End TwoLegPaths.

Lemma Parquet_findPaths_core
    (read_nodes : string → list Parquet.NodeRow)
    (read_edges : string → list Parquet.EdgeRow)
    (files : gmap Z Parquet.GraphFiles) (g : list Z) a b :
  Parquet.allKnown files g →
  Parquet.findPaths read_nodes read_edges files g a b
  = Ok (twoLegPaths (parquetEdges read_edges files g)
          (parquetNodes read_nodes files g) a b).
Proof. apply Parquet_findPaths_known. Qed.

Lemma elem_of_dbNodes (db : Db.Store) (g : list Z) n :
  n ∈ dbNodes db g ↔ n ∈ Db.node db ∧ Node.knowledgeGraphId n ∈ g.
Proof. unfold dbNodes. rewrite list_elem_of_filter. tauto. Qed.

(** X4. Every path that the parquet [findPaths] returns has two legs that
    meet in one intermediate node: the first leg starts at a node row with
    the source id, the second ends at a node row with the destination id,
    each leg carries the non-empty type of an edge of the requested graphs
    that runs between its two nodes (in either direction), and all three
    node rows come from the requested graphs. *)
Theorem findPaths_paths_are_real
    (read_nodes : string → list Parquet.NodeRow)
    (read_edges : string → list Parquet.EdgeRow)
    (files : gmap Z Parquet.GraphFiles) (g : list Z) (a b : string) :
  let real (E : list Edge.t) (N : list Node.t) (p : Path) :=
    ∃ sa m sb t1 t2 e1 e2,
      p = mkPath [mkLeg sa t1 m; mkLeg m t2 sb]
      ∧ sa ∈ N ∧ Node.id sa = a ∧ sb ∈ N ∧ Node.id sb = b ∧ m ∈ N
      ∧ t1 ≠ "" ∧ t2 ≠ ""
      ∧ e1 ∈ E ∧ joins e1 a (Node.id m) ∧ Edge.type e1 = Some t1
      ∧ e2 ∈ E ∧ joins e2 b (Node.id m) ∧ Edge.type e2 = Some t2 in
  match Parquet.findPaths read_nodes read_edges files g a b with
  | Ok l =>
      Forall (real (parquetEdges read_edges files g)
                (parquetNodes read_nodes files g)) l
  | Throw _ => ¬ Parquet.allKnown files g
  end.
Proof.
  intros real.
  destruct (decide (Parquet.allKnown files g)) as [Hk|Hk].
  - rewrite (Parquet_findPaths_core _ _ _ _ _ _ Hk).
    apply Forall_forall. intros p. apply twoLegPaths_sound.
  - destruct (Parquet_findPaths_not_known read_nodes read_edges files g Hk)
      as [err ->]. done.
Qed.

Lemma has_node_row (N : list Node.t) x :
  x ∈ Node.id <$> N → ∃ n, n ∈ N ∧ Node.id n = x.
Proof. intros (n & -> & ?)%list_elem_of_fmap. by exists n. Qed.

(** X5. The parquet [findPaths] misses no connection: for every pair of
    typed edges of the requested graphs, one between the source and a node
    [x] and one between the destination and [x], it returns a path through
    a node row with id [x] that carries exactly these two edge types -
    provided the graph ids are registered and the three ids have node rows.
    Two edge types on one side give two paths. *)
Theorem findPaths_finds_every_connection
    (read_nodes : string → list Parquet.NodeRow)
    (read_edges : string → list Parquet.EdgeRow)
    (files : gmap Z Parquet.GraphFiles) (g : list Z)
    (a b x t1 t2 : string) (e1 e2 : Edge.t) :
  Parquet.allKnown files g →
  e1 ∈ parquetEdges read_edges files g → joins e1 a x →
  Edge.type e1 = Some t1 → t1 ≠ "" →
  e2 ∈ parquetEdges read_edges files g → joins e2 b x →
  Edge.type e2 = Some t2 → t2 ≠ "" →
  a ∈ Node.id <$> parquetNodes read_nodes files g →
  b ∈ Node.id <$> parquetNodes read_nodes files g →
  x ∈ Node.id <$> parquetNodes read_nodes files g →
  ∃ l sa m sb,
    Parquet.findPaths read_nodes read_edges files g a b = Ok l
    ∧ Node.id sa = a ∧ Node.id m = x ∧ Node.id sb = b
    ∧ mkPath [mkLeg sa t1 m; mkLeg m t2 sb] ∈ l.
Proof.
  intros Hk ???????? Ha Hb Hx.
  destruct (twoLegPaths_complete (parquetEdges read_edges files g)
              (parquetNodes read_nodes files g)
              a b x t1 t2 e1 e2) as (sa & m & sb & ? & ? & ? & ?);
    try done; try by apply has_node_row.
  eexists _, sa, m, sb. split; [by apply Parquet_findPaths_core|]. done.
Qed.

(** Closed, decidable side conditions are settled by evaluation. *)
Ltac by_evaluation := apply (bool_decide_unpack _); by vm_compute.

Lemma findPaths_finds_every_connection_witness :
  ∃ l sa m sb,
    Parquet.findPaths Example.read_nodes Example.read_edges Example.files
      [1] "A" "C" = Ok l
    ∧ Node.id sa = "A" ∧ Node.id m = "B" ∧ Node.id sb = "C"
    ∧ mkPath [mkLeg sa "affects" m; mkLeg m "involves" sb] ∈ l.
Proof.
  apply (findPaths_finds_every_connection Example.read_nodes
           Example.read_edges Example.files [1] "A" "C" "B"
           "affects" "involves"
           (Parquet.tagEdge 1 Example.edgeAB')
           (Parquet.tagEdge 1 Example.edgeBC)).
  - by_evaluation.
  - by_evaluation.
  - by_evaluation.
  - reflexivity.
  - discriminate.
  - by_evaluation.
  - by_evaluation.
  - reflexivity.
  - discriminate.
  - by_evaluation.
  - by_evaluation.
  - by_evaluation.
Defined.

Lemma joins_endpoints_exist (E : list Edge.t) (N : list Node.t) e a b :
  endpointsExist E N → e ∈ E → joins e a b →
  (∃ n, n ∈ N ∧ Node.id n = a) ∧ (∃ n, n ∈ N ∧ Node.id n = b).
Proof.
  unfold endpointsExist. rewrite Forall_forall. intros HE He Hj.
  destruct (HE e He) as [Hf Ht].
  apply has_node_row in Hf, Ht. by destruct Hj as [[<- <-]|[<- <-]].
Qed.

Lemma typed_edge (E : list Edge.t) e :
  typed E → e ∈ E → ∃ t, Edge.type e = Some t ∧ t ≠ "".
Proof.
  unfold typed. rewrite Forall_forall. intros HE He.
  specialize (HE e He). unfold truthy in HE.
  destruct (Edge.type e) as [t|]; [|done]. exists t. split; [done|].
  by case_decide.
Qed.

(** X6. Whatever the two-hop expansion adds to the one-hop neighbours can
    be reached by [findPaths], over parquet files: if every edge of the
    requested graphs has a non-empty type and node rows for both ends, then
    for an id [x] of the two-hop list of [n] that is not a one-hop
    neighbour, [findPaths] from [n] to [x] returns at least one path. *)
Theorem two_hop_only_ids_have_paths
    (read_nodes : string → list Parquet.NodeRow)
    (read_edges : string → list Parquet.EdgeRow)
    (files : gmap Z Parquet.GraphFiles) (g : list Z)
    (n x : string) (l1 l2 : list string) :
  typed (parquetEdges read_edges files g) →
  endpointsExist (parquetEdges read_edges files g)
                 (parquetNodes read_nodes files g) →
  Parquet.getKHopNeighborIds read_edges files g n K1 None = Ok l1 →
  Parquet.getKHopNeighborIds read_edges files g n K2 None = Ok l2 →
  x ∈ l2 → x ∉ l1 →
  ∃ paths,
    Parquet.findPaths read_nodes read_edges files g n x = Ok paths
    ∧ paths ≠ [].
Proof.
  intros Htyped Hfk Hl1 Hl2 Hx Hnx.
  destruct (Parquet_getNeighbors_cases read_edges files g)
    as [[Hk Hcase]|[_ [err Herr]]].
  2:{ unfold Parquet.getKHopNeighborIds in Hl1. simpl in Hl1.
      by rewrite Herr in Hl1. }
  destruct (Parquet_getNeighbors_total read_edges files g Hk) as [nb Hnb].
  unfold Parquet.getKHopNeighborIds in Hl1, Hl2.
  rewrite (getKHopNeighborIds_two_hops _ g n None nb eq_refl Hnb) in Hl2.
  simpl in Hl1. rewrite Hnb in Hl1.
  injection Hl1 as <-. injection Hl2 as <-.
  apply elem_of_app in Hx as [?|Hx]; [done|].
  apply elem_of_new_Set, list_elem_of_filter in Hx as [_ Hx].
  apply list_elem_of_bind in Hx as (m & Hxm & Hm).
  destruct (Hcase n None) as (ln & Hln & _ & Hinn).
  destruct (Hcase m None) as (lm & Hlm & _ & Hinm).
  rewrite Hnb in Hln, Hlm. injection Hln as <-. injection Hlm as <-.
  apply Hinn in Hm as (e1 & He1 & _ & Hj1).
  apply Hinm in Hxm as (e2 & He2 & _ & Hj2%joins_comm).
  destruct (typed_edge _ _ Htyped He1) as (t1 & Ht1 & Hne1).
  destruct (typed_edge _ _ Htyped He2) as (t2 & Ht2 & Hne2).
  destruct (joins_endpoints_exist _ _ _ _ _ Hfk He1 Hj1) as [Hn Hmn].
  destruct (joins_endpoints_exist _ _ _ _ _ Hfk He2 Hj2) as [Hxn _].
  destruct (twoLegPaths_complete (parquetEdges read_edges files g)
              (parquetNodes read_nodes files g)
              n x m t1 t2 e1 e2) as (sa & sm & sb & _ & _ & _ & Hp);
    try done.
  eexists. split; [by apply Parquet_findPaths_core|].
  apply nonempty_elem_of. eauto.
Qed.

Lemma two_hop_only_ids_have_paths_witness :
  ∃ paths,
    Parquet.findPaths Example.read_nodes Example.read_edges Example.files
      [1] "A" "C" = Ok paths
    ∧ paths ≠ [].
Proof.
  apply (two_hop_only_ids_have_paths Example.read_nodes Example.read_edges
           Example.files [1] "A" "C" ["B"] ["B"; "C"; "D"]).
  - by_evaluation.
  - by_evaluation.
  - by vm_compute.
  - by vm_compute.
  - by_evaluation.
  - by_evaluation.
Defined.

(** ** The two stores against one another

    No query orders its rows, so two reads, or two engines, may return the
    same rows in different orders: what the stores have in common is stated
    up to the order of the lists. *)

Lemma Db_getNodesByIds_eq (db : Db.Store) (g : list Z) ids :
  Db.getNodesByIds db g ids
  = Ok (filter (fun n => Node.id n ∈ ids) (dbNodes db g)).
Proof.
  unfold Db.getNodesByIds, dbNodes. destruct ids as [|i ids].
  - by rewrite filter_no_ids.
  - f_equal. rewrite list_filter_filter. apply list_filter_iff.
    intros n. tauto.
Qed.

(** Two [getNeighbors] that answer with the same ids give expansions with
    the same ids. *)
Lemma getKHopNeighborIds_same_ids gn1 gn2 (g : list Z) :
  (∀ m ty, ∃ l1 l2, gn1 g m ty = Ok l1 ∧ gn2 g m ty = Ok l2
                    ∧ NoDup l1 ∧ NoDup l2 ∧ ∀ x, x ∈ l1 ↔ x ∈ l2) →
  ∀ n k ty, ∃ r1 r2,
    Common.getKHopNeighborIds gn1 g n k ty = Ok r1
    ∧ Common.getKHopNeighborIds gn2 g n k ty = Ok r2
    ∧ r1 ≡ₚ r2.
Proof.
  intros Hgn n k ty. destruct k.
  - destruct (Hgn n ty) as (l1 & l2 & H1 & H2 & Hnd1 & Hnd2 & Hin).
    exists l1, l2. split; [exact H1|]. split; [exact H2|].
    apply list.NoDup_Permutation; [done|done|exact Hin].
  - destruct (truthy ty) eqn:Hty.
    { exists [], []. unfold Common.getKHopNeighborIds. by rewrite Hty. }
    set (nb1 m := match gn1 g m None with Ok l => l | Throw _ => [] end).
    set (nb2 m := match gn2 g m None with Ok l => l | Throw _ => [] end).
    assert (Hnb1 : ∀ m, gn1 g m None = Ok (nb1 m)).
    { intros m. unfold nb1. by destruct (Hgn m None) as (l1 & _ & -> & _). }
    assert (Hnb2 : ∀ m, gn2 g m None = Ok (nb2 m)).
    { intros m. unfold nb2.
      by destruct (Hgn m None) as (_ & l2 & _ & -> & _). }
    assert (Hsame : ∀ m x, x ∈ nb1 m ↔ x ∈ nb2 m).
    { intros m x. destruct (Hgn m None) as (l1 & l2 & H1 & H2 & _ & _ & Hin).
      rewrite Hnb1 in H1. rewrite Hnb2 in H2.
      injection H1 as ->. injection H2 as ->. apply Hin. }
    assert (Hnd : ∀ m, NoDup (nb1 m) ∧ NoDup (nb2 m)).
    { intros m. destruct (Hgn m None) as (l1 & l2 & H1 & H2 & ? & ? & _).
      rewrite Hnb1 in H1. rewrite Hnb2 in H2.
      injection H1 as ->. injection H2 as ->. done. }
    rewrite (getKHopNeighborIds_two_hops gn1 g n ty nb1 Hty Hnb1).
    rewrite (getKHopNeighborIds_two_hops gn2 g n ty nb2 Hty Hnb2).
    do 2 eexists. split; [done|]. split; [done|].
    assert (Hmem : ∀ nb x,
              x ∈ nb n ++ new_Set (filter (Common.isNew n (nb n)) (nb n ≫= nb))
              ↔ x ∈ nb n
                ∨ (x ≠ n ∧ (x ∉ nb n) ∧ ∃ m, m ∈ nb n ∧ x ∈ nb m)).
    { intros nb x.
      rewrite elem_of_app, elem_of_new_Set, list_elem_of_filter,
        list_elem_of_bind.
      unfold Common.isNew. split.
      - intros [?|[[??] (m & ? & ?)]]; [by left|right]. eauto.
      - intros [?|(? & ? & m & ? & ?)]; [by left|right]. eauto. }
    assert (Hnodup : ∀ nb, NoDup (nb n) →
              NoDup (nb n ++ new_Set (filter (Common.isNew n (nb n))
                                        (nb n ≫= nb)))).
    { intros nb Hn. apply NoDup_app. split; [done|].
      split; [|apply NoDup_new_Set].
      intros x Hx [[_ ?] _]%elem_of_new_Set%list_elem_of_filter. done. }
    apply list.NoDup_Permutation.
    + apply Hnodup, Hnd.
    + apply Hnodup, Hnd.
    + intros x. rewrite !Hmem. rewrite !Hsame.
      split; (intros [?|(? & ? & m & Hm & Hx)]; [by left|right]);
        split_and!; try done; exists m.
      * by rewrite <-!Hsame.
      * by rewrite !Hsame.
Qed.

Section StoresAgree.
Variable db : Db.Store.
Variable read_nodes : string → list Parquet.NodeRow.
Variable read_edges : string → list Parquet.EdgeRow.
Variable files : gmap Z Parquet.GraphFiles.
Variable g : list Z.
Hypothesis known : Parquet.allKnown files g.
Hypothesis same_edges : dbEdges db g ≡ₚ parquetEdges read_edges files g.
Hypothesis same_nodes : dbNodes db g ≡ₚ parquetNodes read_nodes files g.

Lemma agree_getNodesByIds ids :
  ∃ l1 l2, Db.getNodesByIds db g ids = Ok l1
           ∧ Parquet.getNodesByIds read_nodes files g ids = Ok l2
           ∧ l1 ≡ₚ l2.
Proof using known same_nodes.
  rewrite Db_getNodesByIds_eq, (Parquet_getNodesByIds_known _ _ _ _ known).
  do 2 eexists. split; [done|]. split; [done|].
  unfold parquetNodes in same_nodes. by rewrite same_nodes.
Qed.

Lemma agree_getEdgesBetweenNodes a b :
  ∃ l1 l2, Db.getEdgesBetweenNodes db g a b = Ok l1
           ∧ Parquet.getEdgesBetweenNodes read_edges files g a b = Ok l2
           ∧ l1 ≡ₚ l2.
Proof using known same_edges.
  rewrite Db_getEdgesBetweenNodes_eq,
    (Parquet_getEdgesBetweenNodes_known _ _ _ _ _ known).
  do 2 eexists. split; [done|]. split; [done|]. by rewrite same_edges.
Qed.

Lemma agree_getNeighbors_ids n edgeType :
  ∃ l1 l2, Db.getNeighbors db g n edgeType = Ok l1
           ∧ Parquet.getNeighbors read_edges files g n edgeType = Ok l2
           ∧ NoDup l1 ∧ NoDup l2 ∧ ∀ x, x ∈ l1 ↔ x ∈ l2.
Proof using known same_edges.
  destruct (Db_getNeighbors_joins db g n edgeType) as (l1 & H1 & Hnd1 & Hin1).
  destruct (Parquet_getNeighbors_cases read_edges files g)
    as [[_ Hcase]|[Hnk _]]; [|done].
  destruct (Hcase n edgeType) as (l2 & H2 & Hnd2 & Hin2).
  exists l1, l2. split_and!; [done..|].
  intros x. rewrite Hin1, Hin2.
  split; intros (e & He & ? & ?); exists e; split_and!; try done.
  - by rewrite <-same_edges.
  - by rewrite same_edges.
Qed.

Lemma agree_getNeighbors n edgeType :
  ∃ l1 l2, Db.getNeighbors db g n edgeType = Ok l1
           ∧ Parquet.getNeighbors read_edges files g n edgeType = Ok l2
           ∧ l1 ≡ₚ l2.
Proof using known same_edges.
  destruct (agree_getNeighbors_ids n edgeType)
    as (l1 & l2 & ? & ? & ? & ? & ?).
  exists l1, l2. split_and!; [done..|]. apply list.NoDup_Permutation; auto.
Qed.

Lemma agree_getKHopNeighborIds n k edgeType :
  ∃ l1 l2, Db.getKHopNeighborIds db g n k edgeType = Ok l1
           ∧ Parquet.getKHopNeighborIds read_edges files g n k edgeType
             = Ok l2
           ∧ l1 ≡ₚ l2.
Proof using known same_edges.
  apply getKHopNeighborIds_same_ids. apply agree_getNeighbors_ids.
Qed.

End StoresAgree.

(** X7. When the parquet files of the requested graphs hold the rows that
    the relational tables hold for these graphs, in whatever order, the
    two stores answer alike up to the order of the answer:
    [getNodesByIds] and [getEdgesBetweenNodes] return the same rows,
    [getNeighbors] and [getKHopNeighborIds] the same ids.  The graph ids
    are registered and fit 32 bits, so that both engines hand them back as
    numbers. *)
Theorem stores_agree
    (db : Db.Store)
    (read_nodes : string → list Parquet.NodeRow)
    (read_edges : string → list Parquet.EdgeRow)
    (files : gmap Z Parquet.GraphFiles) (g : list Z) :
  Parquet.allKnown files g →
  Forall fitsInt32 g →
  dbEdges db g ≡ₚ parquetEdges read_edges files g →
  dbNodes db g ≡ₚ parquetNodes read_nodes files g →
  (∀ ids, ∃ l1 l2,
     Db.getNodesByIds db g ids = Ok l1
     ∧ Parquet.getNodesByIds read_nodes files g ids = Ok l2
     ∧ l1 ≡ₚ l2)
  ∧ (∀ a b, ∃ l1 l2,
       Db.getEdgesBetweenNodes db g a b = Ok l1
       ∧ Parquet.getEdgesBetweenNodes read_edges files g a b = Ok l2
       ∧ l1 ≡ₚ l2)
  ∧ (∀ n edgeType, ∃ l1 l2,
       Db.getNeighbors db g n edgeType = Ok l1
       ∧ Parquet.getNeighbors read_edges files g n edgeType = Ok l2
       ∧ l1 ≡ₚ l2)
  ∧ (∀ n k edgeType, ∃ l1 l2,
       Db.getKHopNeighborIds db g n k edgeType = Ok l1
       ∧ Parquet.getKHopNeighborIds read_edges files g n k edgeType = Ok l2
       ∧ l1 ≡ₚ l2).
Proof.
  intros Hk _ HE HN. split_and!; intros.
  - by apply agree_getNodesByIds.
  - by apply agree_getEdgesBetweenNodes.
  - by apply agree_getNeighbors.
  - by apply agree_getKHopNeighborIds.
Qed.

(** The example stores hold the same rows; asked for graph 2 before
    graph 1, they list the neighbours of [A] in different orders. *)
Lemma stores_agree_witness :
  ∃ l1 l2,
    Db.getNeighbors Example.db [2; 1] "A" None = Ok l1
    ∧ Parquet.getNeighbors Example.read_edges Example.files [2; 1] "A" None
      = Ok l2
    ∧ l1 ≡ₚ l2.
Proof.
  refine (proj1 (proj2 (proj2
    (stores_agree Example.db Example.read_nodes Example.read_edges
       Example.files [2; 1] _ _ _ _))) "A" None).
  - by_evaluation.
  - apply (bool_decide_unpack _). by vm_compute.
  - symmetry.
    exact (Permutation_cons_append (Parquet.tagEdge 1 <$> Example.edges1)
             (Parquet.tagEdge 2 Example.edgeEA)).
  - exact (Permutation_app_comm (Parquet.tagNode 1 <$> Example.nodes1)
             (Parquet.tagNode 2 <$> Example.nodes2)).
Defined.

(** ** The export to parquet files *)

Lemma tag_exportedEdges (db : Db.Store) (id : Z) :
  Parquet.tagEdge id <$> ExportData.exportedEdges db id = dbEdges db [id].
Proof.
  unfold ExportData.exportedEdges, dbEdges.
  induction (Db.edge db) as [|e l IH]; [done|].
  rewrite !filter_cons. destruct (decide (Edge.knowledgeGraphId e = id)) as [He|He].
  - rewrite decide_True by (rewrite list_elem_of_singleton; done).
    rewrite !fmap_cons, IH. f_equal. destruct e. simpl in He. by subst.
  - rewrite decide_False by (rewrite list_elem_of_singleton; done). done.
Qed.

Lemma tag_exportedNodes (db : Db.Store) (id : Z) :
  Parquet.tagNode id <$> ExportData.exportedNodes db id = dbNodes db [id].
Proof.
  unfold ExportData.exportedNodes, dbNodes.
  induction (Db.node db) as [|n l IH]; [done|].
  rewrite !filter_cons. destruct (decide (Node.knowledgeGraphId n = id)) as [Hn|Hn].
  - rewrite decide_True by (rewrite list_elem_of_singleton; done).
    rewrite !fmap_cons, IH. f_equal. destruct n. simpl in Hn. by subst.
  - rewrite decide_False by (rewrite list_elem_of_singleton; done). done.
Qed.

Lemma exportGraph_fresh (db : Db.Store) graph dir :
  ExportData.nodesComplete (ExportData.loadProgress dir) = false →
  ExportData.edgesComplete (ExportData.loadProgress dir) = false →
  ExportData.exportGraph db graph dir
  = ExportData.mkGraphDir
      (Some (ExportData.mkProgress true true)) (Some graph)
      (Some (ExportData.exportedNodes db (ExportData.id graph)))
      (Some (ExportData.exportedEdges db (ExportData.id graph))).
Proof.
  intros Hn He. unfold ExportData.exportGraph. cbv zeta.
  by rewrite Hn, He.
Qed.

(** X9. A graph exported into a directory without progress, whose two
    files are then registered under the graph's id and read back with their
    rows in whatever order, is answered from the files as from the
    database, up to the order of the answer: [getNodesByIds] and
    [getEdgesBetweenNodes] return the same rows, [getNeighbors] and
    [getKHopNeighborIds] the same ids, when that graph alone is asked for.
    The graph id fits 32 bits. *)
Theorem export_then_query_round_trip
    (db : Db.Store)
    (read_nodes : string → list Parquet.NodeRow)
    (read_edges : string → list Parquet.EdgeRow)
    (files : gmap Z Parquet.GraphFiles)
    (graph : ExportData.KnowledgeGraph) (dir : ExportData.GraphDir)
    (f : Parquet.GraphFiles)
    (nodeRows : list Parquet.NodeRow) (edgeRows : list Parquet.EdgeRow) :
  ExportData.loadProgress dir = ExportData.emptyProgress →
  files !! ExportData.id graph = Some f →
  Parquet.knowledgeGraphId f = ExportData.id graph →
  fitsInt32 (ExportData.id graph) →
  ExportData.nodesParquet (ExportData.exportGraph db graph dir)
  = Some nodeRows →
  read_nodes (Parquet.nodesPath f) ≡ₚ nodeRows →
  ExportData.edgesParquet (ExportData.exportGraph db graph dir)
  = Some edgeRows →
  read_edges (Parquet.edgesPath f) ≡ₚ edgeRows →
  let g := [ExportData.id graph] in
  (∀ ids, ∃ l1 l2,
     Db.getNodesByIds db g ids = Ok l1
     ∧ Parquet.getNodesByIds read_nodes files g ids = Ok l2
     ∧ l1 ≡ₚ l2)
  ∧ (∀ a b, ∃ l1 l2,
       Db.getEdgesBetweenNodes db g a b = Ok l1
       ∧ Parquet.getEdgesBetweenNodes read_edges files g a b = Ok l2
       ∧ l1 ≡ₚ l2)
  ∧ (∀ n edgeType, ∃ l1 l2,
       Db.getNeighbors db g n edgeType = Ok l1
       ∧ Parquet.getNeighbors read_edges files g n edgeType = Ok l2
       ∧ l1 ≡ₚ l2)
  ∧ (∀ n k edgeType, ∃ l1 l2,
       Db.getKHopNeighborIds db g n k edgeType = Ok l1
       ∧ Parquet.getKHopNeighborIds read_edges files g n k edgeType = Ok l2
       ∧ l1 ≡ₚ l2).
Proof.
  intros Hp Hf Hid _ Hnodes Hnperm Hedges Heperm g.
  rewrite exportGraph_fresh in Hnodes, Hedges by (by rewrite Hp).
  simpl in Hnodes, Hedges. simplify_eq.
  assert (Hk : Parquet.allKnown files g).
  { split; [done|]. repeat constructor. by rewrite Hf. }
  assert (HE : dbEdges db g ≡ₚ parquetEdges read_edges files g).
  { unfold parquetEdges, Parquet.unionAll, g. simpl. rewrite Hf. simpl.
    rewrite app_nil_r. unfold Parquet.edgesPart.
    by rewrite Hid, Heperm, tag_exportedEdges. }
  assert (HN : dbNodes db g ≡ₚ parquetNodes read_nodes files g).
  { unfold parquetNodes, Parquet.unionAll, g. simpl. rewrite Hf. simpl.
    rewrite app_nil_r. unfold Parquet.nodesPart.
    by rewrite Hid, Hnperm, tag_exportedNodes. }
  split_and!; intros.
  - by apply agree_getNodesByIds.
  - by apply agree_getEdgesBetweenNodes.
  - by apply agree_getNeighbors.
  - by apply agree_getKHopNeighborIds.
Qed.

Lemma export_then_query_round_trip_witness :
  ∃ l1 l2,
    Db.getKHopNeighborIds Example.db [1] "A" K2 None = Ok l1
    ∧ Parquet.getKHopNeighborIds Example.read_edges Example.files
        [1] "A" K2 None = Ok l2
    ∧ l1 ≡ₚ l2.
Proof.
  refine (proj2 (proj2 (proj2
    (export_then_query_round_trip Example.db Example.read_nodes
       Example.read_edges Example.files
       (ExportData.mkKnowledgeGraph 1 "Graph One" "")
       ExportData.emptyDir
       (Parquet.mkGraphFiles 1 "data/g1/nodes.parquet"
          "data/g1/edges.parquet")
       Example.nodes1 Example.edges1 _ _ _ _ _ _ _ _))) "A" K2 None).
  - reflexivity.
  - by vm_compute.
  - reflexivity.
  - by vm_compute.
  - by vm_compute.
  - reflexivity.
  - by vm_compute.
  - reflexivity.
Defined.

Lemma exportGraph_complete (db : Db.Store) graph dir :
  ExportData.loadProgress (ExportData.exportGraph db graph dir)
  = ExportData.mkProgress true true.
Proof.
  by destruct dir as [[[[] []]|] gj np ep].
Qed.

Lemma exportGraph_skips (db : Db.Store) graph dir :
  ExportData.loadProgress dir = ExportData.mkProgress true true →
  ExportData.exportGraph db graph dir = dir.
Proof. intros Hp. unfold ExportData.exportGraph. by rewrite Hp. Qed.

(** X10. One pass over a graph always ends with both steps recorded as
    complete; a step recorded as complete is not run again, so its file is
    left as it was; and a directory that went through a pass is never
    written again, whatever the database and the graph row hold by then. *)
Theorem exportGraph_resumes_and_never_refreshes
    (db db' : Db.Store) (graph graph' : ExportData.KnowledgeGraph)
    (dir : ExportData.GraphDir) :
  let out := ExportData.exportGraph db graph dir in
  ExportData.loadProgress out = ExportData.mkProgress true true
  ∧ ExportData.nodesParquet out
    = (if ExportData.nodesComplete (ExportData.loadProgress dir)
       then ExportData.nodesParquet dir
       else Some (ExportData.exportedNodes db (ExportData.id graph)))
  ∧ ExportData.edgesParquet out
    = (if ExportData.edgesComplete (ExportData.loadProgress dir)
       then ExportData.edgesParquet dir
       else Some (ExportData.exportedEdges db (ExportData.id graph)))
  ∧ ExportData.exportGraph db' graph' out = out.
Proof.
  intros out. split_and!.
  - apply exportGraph_complete.
  - unfold out. by destruct dir as [[[[] []]|] gj np ep].
  - unfold out. by destruct dir as [[[[] []]|] gj np ep].
  - apply exportGraph_skips, exportGraph_complete.
Qed.

Lemma exportAll_keeps_complete (db : Db.Store) graphs data data' slug dir :
  ExportData.exportAll db graphs data = Some data' →
  data !! slug = Some dir →
  ExportData.loadProgress dir = ExportData.mkProgress true true →
  data' !! slug = Some dir.
Proof.
  revert data. induction graphs as [|graph rest IH]; intros data Hrun Hd Hp.
  - simpl in Hrun. by simplify_eq.
  - simpl in Hrun. case_decide as Hs; [done|].
    apply (IH _ Hrun); [|done].
    destruct (decide (ExportData.slugify (ExportData.name graph) = slug))
      as [->|Hne].
    + rewrite lookup_insert_eq, Hd. simpl. by rewrite exportGraph_skips.
    + by rewrite lookup_insert_ne.
Qed.

Lemma exportAll_allExported (db : Db.Store) graphs data data' :
  ExportData.exportAll db graphs data = Some data' →
  allExported graphs data'.
Proof.
  revert data. induction graphs as [|graph rest IH]; intros data Hrun.
  - constructor.
  - simpl in Hrun. case_decide as Hs; [done|].
    constructor; [|by eapply IH].
    split; [done|]. eexists. split.
    + eapply exportAll_keeps_complete; [done| |].
      * apply lookup_insert_eq.
      * apply exportGraph_complete.
    + apply exportGraph_complete.
Qed.

Lemma exportAll_noop (db : Db.Store) graphs data :
  allExported graphs data →
  ExportData.exportAll db graphs data = Some data.
Proof.
  induction 1 as [|graph rest (Hs & dir & Hd & Hp) _ IH]; [done|].
  simpl. rewrite decide_False by done. rewrite Hd. simpl.
  rewrite exportGraph_skips by done. by rewrite insert_id.
Qed.

(** X11. A run of the export that went through leaves a data directory
    on which any later run over the same graph names changes nothing, even
    with other rows in the database. *)
Theorem exportAll_second_run_changes_nothing
    (db db' : Db.Store) (graphs : list ExportData.KnowledgeGraph)
    (data data' : gmap string ExportData.GraphDir) :
  ExportData.exportAll db graphs data = Some data' →
  ExportData.exportAll db' graphs data' = Some data'.
Proof. intros Hrun. by eapply exportAll_noop, exportAll_allExported. Qed.

(** X12. Of two graphs whose names give the same slug only the first is
    exported: the second finds the directory complete and is skipped. *)
Theorem exportAll_slug_collision_keeps_first
    (db : Db.Store) (first second : ExportData.KnowledgeGraph)
    (rest : list ExportData.KnowledgeGraph)
    (data : gmap string ExportData.GraphDir) :
  ExportData.slugify (ExportData.name second)
  = ExportData.slugify (ExportData.name first) →
  ExportData.exportAll db (first :: second :: rest) data
  = ExportData.exportAll db (first :: rest) data.
Proof.
  intros Hslug. simpl. rewrite Hslug. case_decide as Hs; [done|].
  rewrite lookup_insert_eq. simpl.
  rewrite exportGraph_skips by apply exportGraph_complete.
  by rewrite insert_insert_eq.
Qed.

Lemma exportAll_second_run_changes_nothing_witness :
  ∃ data',
    ExportData.exportAll Example.db
      [ExportData.mkKnowledgeGraph 1 "Graph One" "";
       ExportData.mkKnowledgeGraph 2 "Graph Two" ""] ∅ = Some data'
    ∧ ExportData.exportAll (Db.mkStore [] [])
        [ExportData.mkKnowledgeGraph 1 "Graph One" "";
         ExportData.mkKnowledgeGraph 2 "Graph Two" ""] data' = Some data'.
Proof.
  eexists. split; [reflexivity|].
  apply (exportAll_second_run_changes_nothing Example.db (Db.mkStore [] [])
           [ExportData.mkKnowledgeGraph 1 "Graph One" "";
            ExportData.mkKnowledgeGraph 2 "Graph Two" ""] ∅).
  reflexivity.
Defined.

Lemma exportAll_slug_collision_keeps_first_witness :
  ExportData.exportAll Example.db
    [ExportData.mkKnowledgeGraph 1 "Prime KG" "";
     ExportData.mkKnowledgeGraph 2 "prime-kg!" ""] ∅
  = ExportData.exportAll Example.db
      [ExportData.mkKnowledgeGraph 1 "Prime KG" ""] ∅.
Proof.
  apply (exportAll_slug_collision_keeps_first Example.db
           (ExportData.mkKnowledgeGraph 1 "Prime KG" "")
           (ExportData.mkKnowledgeGraph 2 "prime-kg!" "") [] ∅).
  by vm_compute.
Defined.

(** ** Slugs *)

Lemma hyphenated_hyphenate inRun s :
  hyphenated inRun (ExportData.hyphenate inRun s) = true.
Proof.
  revert inRun. induction s as [|c s IH]; intros inRun; [done|].
  simpl. destruct (ExportData.isAlnum c) eqn:Hc.
  - simpl. by rewrite Hc.
  - destruct inRun; [apply IH|]. simpl. apply IH.
Qed.

Lemma hyphenated_dropLeadingHyphens b s :
  hyphenated b s = true →
  hyphenated false (ExportData.dropLeadingHyphens s) = true
  ∧ (ExportData.dropLeadingHyphens s = EmptyString
     ∨ ∃ c r, ExportData.dropLeadingHyphens s = String c r
              ∧ ExportData.isAlnum c = true).
Proof.
  revert b. induction s as [|c s IH]; intros b Hs; [by auto|].
  simpl in *. destruct (decide (c = "-"%char)) as [->|Hc].
  - simpl in Hs. apply andb_prop in Hs as [_ Hs]. by apply (IH true).
  - destruct (ExportData.isAlnum c) eqn:Ha.
    + simpl. rewrite Ha. split; [done|]. right. by exists c, s.
    + by rewrite bool_decide_false in Hs.
Qed.

Lemma slugFrom_dropTrailingHyphens a s :
  hyphenated a s = true →
  ExportData.dropTrailingHyphens s = EmptyString
  ∨ ExportData.slugFrom (negb a) (ExportData.dropTrailingHyphens s) = true.
Proof.
  revert a. induction s as [|c s IH]; intros a Hs; [by left|].
  simpl in *. destruct (ExportData.isAlnum c) eqn:Ha.
  - rewrite bool_decide_false by (by intros ->). simpl. right. rewrite Ha.
    by destruct (IH false Hs) as [->|?].
  - apply andb_prop in Hs as [Hs1 Hs]. apply andb_prop in Hs1 as [Hc Hb].
    apply bool_decide_eq_true in Hc as ->. destruct a; [done|].
    rewrite bool_decide_true by done. simpl.
    destruct (decide (ExportData.dropTrailingHyphens s = EmptyString))
      as [->|Hne]; [by left|].
    rewrite bool_decide_false by done. right. simpl.
    by destruct (IH true Hs).
Qed.

Lemma isSlug_slugify name : ExportData.isSlug (ExportData.slugify name) = true.
Proof.
  unfold ExportData.slugify, ExportData.isSlug.
  set (t := ExportData.trim (JsString.toLowerCase name)).
  destruct (hyphenated_dropLeadingHyphens false
              (ExportData.hyphenate false t) (hyphenated_hyphenate false t))
    as [Hh Hd].
  destruct Hd as [Hd|(c & r & Hd & Hc)]; rewrite Hd in *; [done|].
  destruct (slugFrom_dropTrailingHyphens false _ Hh) as [->|Hs]; [done|].
  apply orb_true_intro. right.
  simpl in *. rewrite bool_decide_false in * by (by intros ->).
  simpl in *. by rewrite Hc in *.
Qed.

Lemma isAlnum_lowerChar c :
  ExportData.isAlnum c = true → JsString.lowerChar c = c.
Proof. destruct c as [[] [] [] [] [] [] [] []]; vm_compute; congruence. Qed.

Lemma isAlnum_not_whitespace c :
  ExportData.isAlnum c = true → Tools.isWhitespace c = false.
Proof. destruct c as [[] [] [] [] [] [] [] []]; vm_compute; congruence. Qed.

(** Either kind of character of a slug. *)
Lemma slugFrom_head b c s :
  ExportData.slugFrom b (String c s) = true →
  (ExportData.isAlnum c = true ∧ ExportData.slugFrom true s = true)
  ∨ (c = "-"%char ∧ b = true ∧ ExportData.slugFrom false s = true).
Proof.
  simpl. destruct (ExportData.isAlnum c); [by left|].
  intros H. apply andb_prop in H as [H1 H]. apply andb_prop in H1 as [Hc Hb].
  apply bool_decide_eq_true in Hc. by right.
Qed.

Lemma slugFrom_toLowerCase b s :
  ExportData.slugFrom b s = true → JsString.toLowerCase s = s.
Proof.
  revert b. induction s as [|c s IH]; intros b Hs; [done|].
  apply slugFrom_head in Hs as [[Hc Hs]|(-> & _ & Hs)]; simpl.
  - by rewrite (isAlnum_lowerChar c Hc), (IH _ Hs).
  - by rewrite (IH _ Hs).
Qed.

Lemma slugFrom_trimEnd b s :
  ExportData.slugFrom b s = true → ExportData.trimEnd s = s.
Proof.
  revert b. induction s as [|c s IH]; intros b Hs; [done|].
  apply slugFrom_head in Hs as [[Hc Hs]|(-> & _ & Hs)]; simpl.
  - by rewrite (isAlnum_not_whitespace c Hc), (IH _ Hs).
  - by rewrite (IH _ Hs).
Qed.

Lemma slugFrom_hyphenate b s :
  ExportData.slugFrom b s = true → ExportData.hyphenate (negb b) s = s.
Proof.
  revert b. induction s as [|c s IH]; intros b Hs; [done|].
  apply slugFrom_head in Hs as [[Hc Hs]|(-> & -> & Hs)]; simpl.
  - rewrite Hc. f_equal. apply (IH true Hs).
  - f_equal. apply (IH false Hs).
Qed.

Lemma slugFrom_dropTrailing b s :
  ExportData.slugFrom b s = true → ExportData.dropTrailingHyphens s = s.
Proof.
  revert b. induction s as [|c s IH]; intros b Hs; [done|].
  apply slugFrom_head in Hs as [[Hc Hs]|(-> & _ & Hs)]; simpl.
  - rewrite bool_decide_false by (by intros ->). simpl. by rewrite (IH _ Hs).
  - rewrite (IH _ Hs). rewrite (bool_decide_false (s = EmptyString)).
    + by rewrite ?andb_false_r.
    + by intros ->.
Qed.

Lemma slugify_slug s : ExportData.isSlug s = true → ExportData.slugify s = s.
Proof.
  unfold ExportData.isSlug. intros H. apply orb_prop in H as [H|H].
  - by apply bool_decide_eq_true in H as ->.
  - unfold ExportData.slugify, ExportData.trim.
    rewrite (slugFrom_toLowerCase _ _ H).
    destruct s as [|c s]; [done|].
    pose proof H as Hh.
    apply slugFrom_head in Hh as [[Hc Hs]|(_ & ? & _)]; [|done].
    assert (ExportData.trimStart (String c s) = String c s) as ->.
    { simpl. by rewrite (isAlnum_not_whitespace c Hc). }
    rewrite (slugFrom_trimEnd _ _ H).
    assert (ExportData.hyphenate false (String c s) = String c s) as ->.
    { apply (slugFrom_hyphenate true). simpl. by rewrite Hc. }
    assert (ExportData.dropLeadingHyphens (String c s) = String c s) as ->.
    { simpl. rewrite decide_False; [done|]. by intros ->. }
    by apply (slugFrom_dropTrailing false).
Qed.

(** X13. A slug is empty or made of groups of lower-case letters and
    digits that single hyphens separate, and these texts are exactly the
    ones [slugify] leaves as they are; so slugifying twice is slugifying
    once. *)
Theorem slugify_gives_slugs (name : string) :
  ExportData.isSlug (ExportData.slugify name) = true
  ∧ (ExportData.isSlug name = true ↔ ExportData.slugify name = name)
  ∧ ExportData.slugify (ExportData.slugify name) = ExportData.slugify name.
Proof.
  split_and!.
  - apply isSlug_slugify.
  - split; [apply slugify_slug|]. intros <-. apply isSlug_slugify.
  - apply slugify_slug, isSlug_slugify.
Qed.

Lemma whitespace_not_alnum c :
  Tools.isWhitespace c = true → ExportData.isAlnum c = false.
Proof.
  intros Hw. destruct (ExportData.isAlnum c) eqn:Hc; [|done].
  by rewrite (isAlnum_not_whitespace c Hc) in Hw.
Qed.

Lemma containsAlnum_trimStart s :
  containsAlnum (ExportData.trimStart s) = containsAlnum s.
Proof.
  induction s as [|c s IH]; [done|]. simpl.
  destruct (Tools.isWhitespace c) eqn:Hw; [|done].
  by rewrite (whitespace_not_alnum c Hw).
Qed.

Lemma containsAlnum_trimEnd s :
  containsAlnum (ExportData.trimEnd s) = containsAlnum s.
Proof.
  induction s as [|c s IH]; [done|]. simpl.
  destruct (Tools.isWhitespace c) eqn:Hw; simpl; [|by rewrite IH].
  case_bool_decide as Hr; simpl; [|by rewrite IH].
  rewrite (whitespace_not_alnum c Hw), <-IH, Hr. done.
Qed.

Lemma containsAlnum_hyphenate inRun s :
  containsAlnum (ExportData.hyphenate inRun s) = containsAlnum s.
Proof.
  revert inRun. induction s as [|c s IH]; intros inRun; [done|]. simpl.
  destruct (ExportData.isAlnum c) eqn:Hc; simpl.
  - by rewrite Hc.
  - destruct inRun; simpl; apply IH.
Qed.

Lemma containsAlnum_dropLeadingHyphens s :
  containsAlnum (ExportData.dropLeadingHyphens s) = containsAlnum s.
Proof.
  induction s as [|c s IH]; [done|]. simpl.
  by destruct (decide (c = "-"%char)) as [->|Hc].
Qed.

Lemma containsAlnum_dropTrailingHyphens s :
  containsAlnum (ExportData.dropTrailingHyphens s) = containsAlnum s.
Proof.
  induction s as [|c s IH]; [done|]. simpl.
  case_bool_decide as Hc; simpl; [|by rewrite IH].
  case_bool_decide as Hr; simpl; [|by rewrite IH].
  subst c. by rewrite <-IH, Hr.
Qed.

Lemma slugify_empty_iff name :
  ExportData.slugify name = EmptyString
  ↔ containsAlnum (JsString.toLowerCase name) = false.
Proof.
  rewrite <-(containsAlnum_trimStart (JsString.toLowerCase name)).
  rewrite <-containsAlnum_trimEnd.
  rewrite <-(containsAlnum_hyphenate false).
  rewrite <-containsAlnum_dropLeadingHyphens.
  rewrite <-containsAlnum_dropTrailingHyphens.
  change (ExportData.dropTrailingHyphens _) with (ExportData.slugify name).
  pose proof (isSlug_slugify name) as Hs.
  destruct (ExportData.slugify name) as [|c r]; [done|].
  split; [done|]. intros Hc. exfalso.
  unfold ExportData.isSlug in Hs. simpl in Hs, Hc.
  destruct (ExportData.isAlnum c); [done|]. simpl in Hs.
  by rewrite andb_false_r in Hs.
Qed.

(** X14. The export stops with the error for an empty slug exactly when
    the lower-cased name of some graph has no character of [[a-z0-9]];
    otherwise it goes through. *)
Theorem exportAll_fails_iff_some_name_has_no_letter_or_digit
    (db : Db.Store) (graphs : list ExportData.KnowledgeGraph)
    (data : gmap string ExportData.GraphDir) :
  ExportData.exportAll db graphs data = None
  ↔ Exists (fun graph =>
              containsAlnum (JsString.toLowerCase (ExportData.name graph))
              = false) graphs.
Proof.
  revert data. induction graphs as [|graph rest IH]; intros data.
  - simpl. split; [done|]. by intros ?%Exists_nil.
  - simpl. rewrite Exists_cons, <-slugify_empty_iff.
    case_decide as Hs.
    + split; [by left|done].
    + rewrite IH. split; [by right|]. by intros [?|?].
Qed.

(** ** Quoting for SQL *)

(** X15. A text escaped and put between single quotes is read back by SQL
    as that text, and the reading stops at the closing quote, provided
    what follows the closing quote does not begin with a quote. *)
Theorem escapeSQL_literal_round_trip (s rest : string) :
  String.prefix "'" rest = false →
  ExportData.readLiteral (ExportData.escapeSQL s +:+ String "'" rest)
  = Some (s, rest).
Proof.
  intros Hrest. induction s as [|c s IH].
  - simpl. destruct rest as [|c' r]; [done|].
    simpl in Hrest. destruct (decide (c' = "'"%char)) as [->|Hc]; [|done].
    by destruct r.
  - simpl. destruct (decide (c = "'"%char)) as [->|Hc].
    + simpl. by rewrite IH.
    + simpl. rewrite decide_False by done. by rewrite IH.
Qed.

Lemma escapeSQL_literal_round_trip_witness :
  ExportData.readLiteral
    (ExportData.escapeSQL "x' OR '1'='1" +:+ String "'" " LIMIT 10")
  = Some ("x' OR '1'='1", " LIMIT 10").
Proof.
  apply (escapeSQL_literal_round_trip "x' OR '1'='1" " LIMIT 10").
  reflexivity.
Defined.

(** ** How the tools fail *)



Lemma twoHopLoop_Throw getNeighbors (g : list Z) n oneHop todo acc e :
  Common.twoHopLoop getNeighbors g n oneHop todo acc = Throw e →
  ∃ m, getNeighbors g m None = Throw e.
Proof.
  revert acc. induction todo as [|m todo IH]; intros acc; [done|]. simpl.
  destruct (getNeighbors g m None) as [l|e'] eqn:Hm; simpl.
  - apply IH.
  - intros [= ->]. by exists m.
Qed.



Section ParquetFailures.
Variable ilike : option string → string → bool.
Variable read_nodes : string → list Parquet.NodeRow.
Variable read_edges : string → list Parquet.EdgeRow.
Variable files : gmap Z Parquet.GraphFiles.
Variable g : list Z.
Hypothesis some_graph : g ≠ [].





End ParquetFailures.



(** ** [searchInSurroundings] over the relational store *)

Lemma Db_getKHopNeighborIds_total (db : Db.Store) (g : list Z) n k edgeType :
  ∃ ids, Db.getKHopNeighborIds db g n k edgeType = Ok ids.
Proof.
  destruct k; [by eexists|].
  destruct (truthy edgeType) eqn:Hty.
  - exists []. unfold Db.getKHopNeighborIds, Common.getKHopNeighborIds.
    by rewrite Hty.
  - destruct (Db_getNeighbors_total db g) as [nb Hnb]. eexists.
    by apply (getKHopNeighborIds_two_hops _ _ _ _ nb).
Qed.

(** [execute] with the reads of the relational store written out. *)
Lemma Db_execute_eq ilike (db : Db.Store) (g : list Z) input ids :
  Db.getKHopNeighborIds db g (Tools.nodeId input)
    (default K1 (Tools.k input)) (Tools.edgeType input) = Ok ids →
  Tools.execute g (Tools.dbQueries ilike db) input
  = let hops := default K1 (Tools.k input) in
    let n := Tools.nodeId input in
    if bool_decide (hops = K2) && truthy (Tools.edgeType input)
    then Throw EdgeTypeWithK2
    else
      match filter (fun x => Node.id x ∈ [n]) (dbNodes db g) with
      | [] => Throw (NodeNotFound n)
      | mainNode :: _ =>
          let ranked :=
            Tools.withQuery (Tools.query input)
              (Tools.byNodeType (Tools.nodeType input)
                 (filter (fun x => Node.id x ∈ ids) (dbNodes db g))) in
          Ok (Tools.mkResponse mainNode
                match hops with
                | K1 =>
                    (fun c =>
                       Tools.withEdges
                         (filter (fun e => joins e n (Node.id (Tools.node c)))
                                 (dbEdges db g)) n c) <$> ranked
                | K2 => Tools.nodeFieldsOnly <$> ranked
                end)
      end.
Proof.
  intros Hids. unfold Tools.execute. cbv zeta.
  destruct (bool_decide _ && truthy _); [done|].
  cbn [Tools.getNodesByIds Tools.getKHopNeighborIds Tools.getEdgesBetweenNodes
       Tools.dbQueries].
  rewrite Db_getNodesByIds_eq.
  destruct (filter _ (dbNodes db g)) as [|mainNode rest]; [done|].
  cbn [mbind Result_bind]. rewrite Hids.
  cbn [mbind Result_bind]. rewrite Db_getNodesByIds_eq.
  cbn [mbind Result_bind].
  destruct (default K1 (Tools.k input)); [|done].
  erewrite mapM_Ok; [done|].
  intros c _. by rewrite Db_getEdgesBetweenNodes_eq.
Qed.

(** X17. Over the relational store [searchInSurroundings] fails in two
    ways only: on an edge type together with two hops, before anything is
    read, and otherwise when the requested graphs hold no node row with the
    given id.  In every other case it answers, and the main node is a
    row of the requested graphs with that id. *)
Theorem db_searchInSurroundings_outcomes
    (ilike : option string → string → bool) (db : Db.Store) (g : list Z)
    (input : Tools.Input) :
  let rejected :=
    Tools.k input = Some K2 ∧ truthy (Tools.edgeType input) = true in
  let rows :=
    filter (fun x => Node.id x = Tools.nodeId input) (dbNodes db g) in
  match Tools.execute g (Tools.dbQueries ilike db) input with
  | Throw e =>
      (e = EdgeTypeWithK2 ∧ rejected)
      ∨ (e = NodeNotFound (Tools.nodeId input) ∧ ¬ rejected ∧ rows = [])
  | Ok resp => ¬ rejected ∧ Tools.mainNode resp ∈ rows
  end.
Proof.
  intros rejected rows.
  destruct (Db_getKHopNeighborIds_total db g (Tools.nodeId input)
              (default K1 (Tools.k input)) (Tools.edgeType input))
    as [ids Hids].
  rewrite (Db_execute_eq ilike db g input ids Hids). cbv zeta.
  assert (Hrows : filter (fun x => Node.id x ∈ [Tools.nodeId input])
                    (dbNodes db g) = rows).
  { apply list_filter_iff. intros x. apply list_elem_of_singleton. }
  rewrite Hrows.
  assert (Hrej : bool_decide (default K1 (Tools.k input) = K2)
                 && truthy (Tools.edgeType input) = true ↔ rejected).
  { unfold rejected. rewrite andb_true_iff, bool_decide_eq_true.
    destruct (Tools.k input) as [[]|]; simpl; intuition congruence. }
  destruct (bool_decide _ && truthy _).
  - left. split; [done|]. by apply Hrej.
  - assert (¬ rejected) by (intros ?%Hrej; done).
    destruct rows as [|mainNode rest]; [by right|].
    split; [done|]. by left.
Qed.

Lemma filter_from_joins (E : list Edge.t) n c :
  filter (fun e => Edge.from e = n) (filter (fun e => joins e n c) E)
  = filter (fun e => Edge.from e = n ∧ Edge.to e = c) E.
Proof.
  rewrite list_filter_filter. apply list_filter_iff. intros e.
  unfold joins. intuition congruence.
Qed.

Lemma filter_to_joins (E : list Edge.t) n c :
  filter (fun e => Edge.to e = n) (filter (fun e => joins e n c) E)
  = filter (fun e => Edge.from e = c ∧ Edge.to e = n) E.
Proof.
  rewrite list_filter_filter. apply list_filter_iff. intros e.
  unfold joins. intuition congruence.
Qed.

Lemma byNodeType_type nodeType fetched c :
  c ∈ Tools.byNodeType nodeType fetched →
  truthy nodeType = true → Node.type c = nodeType.
Proof.
  unfold Tools.byNodeType. intros Hc Hty. rewrite Hty in Hc.
  by apply list_elem_of_filter in Hc as [? _].
Qed.

(** X18. In an answer of [searchInSurroundings] over the relational store
    every neighbour is a node row of the requested graphs, of the requested
    node type if one was given.  With one hop, some edge of these graphs
    that passes the edge-type filter joins it to the main node;
    [edgesToCandidate] lists the types of all edges from the main node to
    it and [edgesFromCandidate] those of all edges from it to the main
    node, in table order and whatever the filter, so the two lists are
    never both empty. *)
Theorem db_surroundings_neighbours_are_joined
    (ilike : option string → string → bool) (db : Db.Store) (g : list Z)
    (input : Tools.Input) :
  let n := Tools.nodeId input in
  match Tools.execute g (Tools.dbQueries ilike db) input with
  | Ok resp =>
      Forall
        (fun c =>
           Tools.node c ∈ dbNodes db g
           ∧ (truthy (Tools.nodeType input) = true →
              Node.type (Tools.node c) = Tools.nodeType input)
           ∧ (default K1 (Tools.k input) = K1 →
              (∃ e, e ∈ dbEdges db g
                    ∧ Common.typeFilter (Tools.edgeType input) (Edge.type e)
                    ∧ joins e n (Node.id (Tools.node c)))
              ∧ Tools.edgesToCandidate c
                = Some (Edge.type
                          <$> filter (fun e => Edge.from e = n
                                               ∧ Edge.to e
                                                 = Node.id (Tools.node c))
                                     (dbEdges db g))
              ∧ Tools.edgesFromCandidate c
                = Some (Edge.type
                          <$> filter (fun e => Edge.from e
                                               = Node.id (Tools.node c)
                                               ∧ Edge.to e = n)
                                     (dbEdges db g))
              ∧ (Tools.edgesToCandidate c ≠ Some []
                 ∨ Tools.edgesFromCandidate c ≠ Some [])))
        (Tools.neighbors resp)
  | Throw _ => True
  end.
Proof.
  intros n.
  destruct (Db_getKHopNeighborIds_total db g n
              (default K1 (Tools.k input)) (Tools.edgeType input))
    as [ids Hids].
  rewrite (Db_execute_eq ilike db g input ids Hids). cbv zeta.
  destruct (bool_decide _ && truthy _); [done|].
  destruct (filter _ (dbNodes db g)) as [|mainNode rest]; [done|].
  cbn [Tools.neighbors].
  set (ranked := Tools.withQuery _ _).
  assert (Hranked : ∀ c, c ∈ ranked →
            Tools.node c ∈ dbNodes db g
            ∧ Node.id (Tools.node c) ∈ ids
            ∧ (truthy (Tools.nodeType input) = true →
               Node.type (Tools.node c) = Tools.nodeType input)).
  { intros c Hc%withQuery_nodes.
    pose proof (byNodeType_type _ _ _ Hc) as Hty.
    apply byNodeType_subset, list_elem_of_filter in Hc as [? ?]. done. }
  destruct (default K1 (Tools.k input)) eqn:Hk.
  - apply Forall_fmap, Forall_forall. intros c Hc.
    destruct (Hranked c Hc) as (Hnode & Hid & Hty).
    unfold compose. fold n.
    cbn [Tools.node Tools.withEdges Tools.edgesToCandidate
         Tools.edgesFromCandidate].
    split; [done|]. split; [done|]. intros _.
    destruct (Db_getNeighbors_joins db g n (Tools.edgeType input))
      as (l & Hl & _ & Hin).
    unfold Db.getKHopNeighborIds, Common.getKHopNeighborIds in Hids.
    fold n in Hids. rewrite Hl in Hids. injection Hids as <-.
    apply Hin in Hid as (e & He & Hfilter & Hj).
    split; [by exists e|].
    rewrite filter_from_joins, filter_to_joins.
    split; [done|]. split; [done|].
    destruct Hj as [[Hf Ht]|[Hf Ht]].
    + left. intros [= Hnil]. apply fmap_nil_inv in Hnil.
      assert (e ∈ filter (fun e => Edge.from e = n
                                   ∧ Edge.to e = Node.id (Tools.node c))
                         (dbEdges db g)) as Hin'
        by (by apply list_elem_of_filter).
      rewrite Hnil in Hin'. by apply elem_of_nil in Hin'.
    + right. intros [= Hnil]. apply fmap_nil_inv in Hnil.
      assert (e ∈ filter (fun e => Edge.from e = Node.id (Tools.node c)
                                   ∧ Edge.to e = n)
                         (dbEdges db g)) as Hin'
        by (by apply list_elem_of_filter).
      rewrite Hnil in Hin'. by apply elem_of_nil in Hin'.
  - apply Forall_fmap, Forall_forall. intros c Hc.
    destruct (Hranked c Hc) as (Hnode & Hid & Hty).
    unfold compose. cbn [Tools.node Tools.nodeFieldsOnly Tools.bare]. done.
Qed.

(** X19. Without a query - none, or the empty text - the neighbours are,
    up to their order, the node rows of the requested graphs whose id is
    among the expanded ids and whose type is the requested one: one
    neighbour per row, so an id that two graphs use is listed twice. *)
Theorem db_surroundings_without_query_lists_rows
    (ilike : option string → string → bool) (db : Db.Store) (g : list Z)
    (input : Tools.Input) (resp : Tools.Response) (ids : list string) :
  truthy (Tools.query input) = false →
  Tools.execute g (Tools.dbQueries ilike db) input = Ok resp →
  Db.getKHopNeighborIds db g (Tools.nodeId input)
    (default K1 (Tools.k input)) (Tools.edgeType input) = Ok ids →
  Tools.node <$> Tools.neighbors resp
  ≡ₚ filter (fun x => Node.id x ∈ ids
                      ∧ (truthy (Tools.nodeType input) = true →
                         Node.type x = Tools.nodeType input))
            (dbNodes db g).
Proof.
  intros Hq Hexec Hids.
  rewrite (Db_execute_eq ilike db g input ids Hids) in Hexec.
  cbv zeta in Hexec.
  destruct (bool_decide _ && truthy _); [done|].
  destruct (filter _ (dbNodes db g)) as [|mainNode rest]; [done|].
  injection Hexec as <-. cbn [Tools.neighbors].
  assert (Tools.withQuery (Tools.query input)
            (Tools.byNodeType (Tools.nodeType input)
               (filter (fun x => Node.id x ∈ ids) (dbNodes db g)))
          = Tools.bare
              <$> filter (fun x => Node.id x ∈ ids
                                   ∧ (truthy (Tools.nodeType input) = true →
                                      Node.type x = Tools.nodeType input))
                         (dbNodes db g)) as ->.
  { unfold Tools.withQuery.
    assert (Tools.byNodeType (Tools.nodeType input)
              (filter (fun x => Node.id x ∈ ids) (dbNodes db g))
            = filter (fun x => Node.id x ∈ ids
                               ∧ (truthy (Tools.nodeType input) = true →
                                  Node.type x = Tools.nodeType input))
                     (dbNodes db g)) as ->.
    { unfold Tools.byNodeType. destruct (truthy (Tools.nodeType input)).
      - rewrite list_filter_filter. apply list_filter_iff. intros x.
        intuition.
      - apply list_filter_iff. intros x. intuition congruence. }
    destruct (Tools.query input) as [q|]; [|done]. by rewrite Hq. }
  destruct (default K1 (Tools.k input)); rewrite <-!list_fmap_compose;
    by rewrite list_fmap_id.
Qed.

Lemma db_surroundings_without_query_lists_rows_witness :
  ∃ resp,
    Tools.execute [1; 2] Example.dbQueries
      (Tools.mkInput "B" None (Some "drug") None None) = Ok resp
    ∧ Tools.node <$> Tools.neighbors resp
      ≡ₚ [Parquet.tagNode 1 Example.rowA; Parquet.tagNode 1 Example.rowD;
          Parquet.tagNode 2 Example.rowA].
Proof.
  eexists. split; [reflexivity|].
  apply (db_surroundings_without_query_lists_rows Example.ilike
           Example.db [1; 2]
           (Tools.mkInput "B" None (Some "drug") None None) _
           ["A"; "C"; "D"]).
  - reflexivity.
  - reflexivity.
  - by vm_compute.
Defined.

(** ** Empty query words *)

Lemma includes_empty s : JsString.includes s EmptyString = true.
Proof. by destruct s. Qed.

Lemma replace_snoc_space s :
  JsString.replace "-" " " (s +:+ " ") = JsString.replace "-" " " s +:+ " ".
Proof.
  induction s as [|c s IH]; [done|]. simpl.
  case_decide; [done|]. by rewrite IH.
Qed.

Lemma split_snoc_sep sep s :
  ∃ p l, JsString.split sep (s +:+ String sep EmptyString)
         = p :: l ++ [EmptyString].
Proof.
  induction s as [|c s (p & l & IH)]; simpl.
  - rewrite decide_True by done. by exists EmptyString, [].
  - case_decide.
    + exists EmptyString, (p :: l). by rewrite IH.
    + rewrite IH. by exists (String c p), l.
Qed.

(** X20. Every query that ends in a space yields an empty query word. *)
Lemma queryWords_trailing_space q :
  EmptyString ∈ Tools.queryWords (q +:+ " ").
Proof.
  unfold Tools.queryWords. rewrite replace_snoc_space.
  destruct (split_snoc_sep " " (JsString.replace "-" " " q)) as (p & l & ->).
  rewrite fmap_cons, fmap_app, filter_cons, filter_app.
  assert (EmptyString ∈ filter (fun w => w ∉ Tools.STOPWORDS)
                          (JsString.toLowerCase <$> [EmptyString])) as Hlast
    by by_evaluation.
  case_decide; rewrite ?elem_of_cons, elem_of_app; auto.
Qed.

Lemma empty_word_scores (ws : list string) (c : Node.t) :
  EmptyString ∈ ws → truthy (Node.properties c) = true →
  (0 < Tools.relevanceOf (Tools.withRelevance ws c))%nat.
Proof.
  intros Hw Hp. rewrite relevanceOf_withRelevance.
  assert (EmptyString ∈ Tools.appearingWordsOf ws c) as Hin.
  { apply list_elem_of_filter. split; [|done].
    unfold Tools.inProperties. destruct (Node.properties c); [|done].
    apply includes_empty. }
  destruct (Tools.appearingWordsOf ws c); [by apply elem_of_nil in Hin|].
  simpl. lia.
Qed.

Lemma node_bare (l : list Node.t) : Tools.node <$> (Tools.bare <$> l) = l.
Proof. induction l as [|c l IH]; [done|]. by rewrite !fmap_cons, IH. Qed.

(** X21. A query that yields an empty word selects every candidate that
    has properties: its id is among the ranked neighbours' ids, whatever
    its properties say. *)
Theorem query_with_empty_word_selects_all
    (q : string) (candidates : list Node.t) (c : Node.t) :
  EmptyString ∈ Tools.queryWords q →
  c ∈ candidates → truthy (Node.properties c) = true →
  Node.id c ∈ Node.id <$> (Tools.node <$> Tools.rankCandidates q candidates).
Proof.
  intros Hw Hc Hp. unfold Tools.rankCandidates. rewrite !fmap_app.
  apply elem_of_app.
  destruct (decide (Node.id c
                    ∈ Node.id <$> Tools.candidatesInName q candidates))
    as [Hnamed|Hnamed].
  - left. by rewrite node_bare.
  - right. apply list_elem_of_fmap_2.
    rewrite candidatesInProperties_eq.
    apply list_elem_of_fmap.
    exists (Tools.withExplanation
              (Tools.withRelevance (Tools.queryWords q) c)).
    split; [done|]. apply list_elem_of_fmap_2.
    rewrite (Array_sort_Permutation Tools.byRelevance).
    apply list_elem_of_filter. split; [by apply empty_word_scores|].
    apply list_elem_of_fmap_2, list_elem_of_filter. done.
Qed.

Lemma query_with_empty_word_selects_all_witness :
  "B" ∈ Node.id
        <$> (Tools.node
               <$> Tools.rankCandidates "zzz "
                     (Parquet.tagNode 1 <$> Example.nodes1)).
Proof.
  apply (query_with_empty_word_selects_all "zzz "
           (Parquet.tagNode 1 <$> Example.nodes1)
           (Parquet.tagNode 1 Example.rowB)).
  - by_evaluation.
  - by_evaluation.
  - reflexivity.
Defined.

(** X22. Over parquet files, a neighbour of a neighbour is always
    connected by a path - the last check of the smoke test: if every edge
    of the requested graphs has a non-empty type and node rows for both
    ends, [m] is a neighbour of [n] and [x] one of [m], then [findPaths]
    from [n] to [x] returns at least one path. *)
Theorem parquet_neighbour_of_neighbour_has_path
    (read_nodes : string → list Parquet.NodeRow)
    (read_edges : string → list Parquet.EdgeRow)
    (files : gmap Z Parquet.GraphFiles) (g : list Z)
    (n m x : string) (ln lm : list string) :
  typed (parquetEdges read_edges files g) →
  endpointsExist (parquetEdges read_edges files g)
                 (parquetNodes read_nodes files g) →
  Parquet.getNeighbors read_edges files g n None = Ok ln → m ∈ ln →
  Parquet.getNeighbors read_edges files g m None = Ok lm → x ∈ lm →
  ∃ paths,
    Parquet.findPaths read_nodes read_edges files g n x = Ok paths
    ∧ paths ≠ [].
Proof.
  intros Htyped Hfk Hln Hm Hlm Hx.
  destruct (Parquet_getNeighbors_cases read_edges files g)
    as [[Hk Hnb]|[_ [err Herr]]]; [|by rewrite Herr in Hln].
  destruct (Hnb n None) as (ln' & Hln' & _ & Hinn).
  destruct (Hnb m None) as (lm' & Hlm' & _ & Hinm).
  rewrite Hln in Hln'. rewrite Hlm in Hlm'.
  injection Hln' as <-. injection Hlm' as <-.
  apply Hinn in Hm as (e1 & He1 & _ & Hj1).
  apply Hinm in Hx as (e2 & He2 & _ & Hj2%joins_comm).
  destruct (typed_edge _ _ Htyped He1) as (t1 & Ht1 & Hne1).
  destruct (typed_edge _ _ Htyped He2) as (t2 & Ht2 & Hne2).
  destruct (joins_endpoints_exist _ _ _ _ _ Hfk He1 Hj1) as [Hn Hmn].
  destruct (joins_endpoints_exist _ _ _ _ _ Hfk He2 Hj2) as [Hxn _].
  destruct (twoLegPaths_complete (parquetEdges read_edges files g)
              (parquetNodes read_nodes files g)
              n x m t1 t2 e1 e2) as (sa & sm & sb & _ & _ & _ & Hp);
    try done.
  eexists. split; [by apply Parquet_findPaths_core|].
  apply nonempty_elem_of. eauto.
Qed.

Lemma parquet_neighbour_of_neighbour_has_path_witness :
  ∃ paths,
    Parquet.findPaths Example.read_nodes Example.read_edges Example.files
      [1; 2] "E" "B" = Ok paths
    ∧ paths ≠ [].
Proof.
  apply (parquet_neighbour_of_neighbour_has_path Example.read_nodes
           Example.read_edges Example.files [1; 2] "E" "A" "B"
           ["A"] ["B"; "E"]).
  - by_evaluation.
  - by_evaluation.
  - by vm_compute.
  - by_evaluation.
  - by vm_compute.
  - by_evaluation.
Defined.

(** ** The tools over the two stores *)

Lemma Permutation_of_eq {A : Type} (l k : list A) : l = k → l ≡ₚ k.
Proof. by intros ->. Qed.

Lemma rankCandidates_node_rows q candidates :
  Tools.node <$> Tools.rankCandidates q candidates
  ≡ₚ filter (fun c => Tools.inName q c = true) candidates
     ++ filter (fun c =>
                  (Node.id c ∉ Node.id <$> Tools.candidatesInName q candidates)
                  ∧ truthy (Node.properties c) = true
                  ∧ (0 < length (Tools.appearingWordsOf
                                   (Tools.queryWords q) c))%nat)
               candidates.
Proof.
  unfold Tools.rankCandidates. rewrite fmap_app, node_bare.
  apply Permutation_app; [done|].
  rewrite candidatesInProperties_eq, <-list_fmap_compose.
  rewrite (Array_sort_Permutation Tools.byRelevance).
  rewrite (filter_fmap_key (Tools.withRelevance (Tools.queryWords q))).
  rewrite list_fmap_compose, node_of_scored, list_filter_filter.
  apply Permutation_of_eq, list_filter_iff. intros c. unfold compose.
  rewrite relevanceOf_withRelevance. tauto.
Qed.

Lemma withQuery_Permutation query l1 l2 :
  l1 ≡ₚ l2 →
  Tools.node <$> Tools.withQuery query l1
  ≡ₚ Tools.node <$> Tools.withQuery query l2.
Proof.
  intros Hl. unfold Tools.withQuery.
  destruct query as [q|]; [destruct (truthy (Some q))|];
    rewrite ?node_bare; try done.
  rewrite !rankCandidates_node_rows.
  apply Permutation_app; [by rewrite Hl|].
  rewrite <-Hl. apply Permutation_of_eq, list_filter_iff. intros c.
  unfold Tools.candidatesInName. by rewrite Hl.
Qed.

Lemma byNodeType_Permutation nodeType l1 l2 :
  l1 ≡ₚ l2 → Tools.byNodeType nodeType l1 ≡ₚ Tools.byNodeType nodeType l2.
Proof.
  intros Hl. unfold Tools.byNodeType. destruct (truthy nodeType); [|done].
  by rewrite Hl.
Qed.

(** [execute] with the reads of the parquet store written out. *)
Lemma Parquet_execute_eq ilike read_nodes read_edges files (g : list Z)
    input ids :
  Parquet.allKnown files g →
  Parquet.getKHopNeighborIds read_edges files g (Tools.nodeId input)
    (default K1 (Tools.k input)) (Tools.edgeType input) = Ok ids →
  Tools.execute g (Tools.createQueries ilike read_nodes read_edges files) input
  = let hops := default K1 (Tools.k input) in
    let n := Tools.nodeId input in
    if bool_decide (hops = K2) && truthy (Tools.edgeType input)
    then Throw EdgeTypeWithK2
    else
      match filter (fun x => Node.id x ∈ [n])
                   (parquetNodes read_nodes files g) with
      | [] => Throw (NodeNotFound n)
      | mainNode :: _ =>
          let ranked :=
            Tools.withQuery (Tools.query input)
              (Tools.byNodeType (Tools.nodeType input)
                 (filter (fun x => Node.id x ∈ ids)
                         (parquetNodes read_nodes files g))) in
          Ok (Tools.mkResponse mainNode
                match hops with
                | K1 =>
                    (fun c =>
                       Tools.withEdges
                         (filter (fun e => joins e n (Node.id (Tools.node c)))
                                 (parquetEdges read_edges files g)) n c)
                      <$> ranked
                | K2 => Tools.nodeFieldsOnly <$> ranked
                end)
      end.
Proof.
  intros Hk Hids. unfold Tools.execute. cbv zeta.
  destruct (bool_decide _ && truthy _); [done|].
  cbn [Tools.getNodesByIds Tools.getKHopNeighborIds Tools.getEdgesBetweenNodes
       Tools.createQueries].
  rewrite (Parquet_getNodesByIds_known _ _ _ _ Hk). fold (parquetNodes read_nodes files g).
  destruct (filter _ (parquetNodes read_nodes files g)) as [|mainNode rest];
    [done|].
  cbn [mbind Result_bind]. rewrite Hids.
  cbn [mbind Result_bind]. rewrite (Parquet_getNodesByIds_known _ _ _ _ Hk).
  cbn [mbind Result_bind].
  destruct (default K1 (Tools.k input)); [|done].
  erewrite mapM_Ok; [done|].
  intros c _. by rewrite (Parquet_getEdgesBetweenNodes_known _ _ _ _ _ Hk).
Qed.

(** X8. When the parquet files of the requested graphs hold the rows of
    the relational tables, in whatever order, [searchInSurroundings] fails
    over both stores with the same error or answers over both: then the
    main nodes have the requested id and the neighbours are the same node
    rows up to their order.  [getNeighborsByNodeId] returns the same ids
    up to their order. *)
Theorem tools_agree_across_stores
    (ilike : option string → string → bool) (db : Db.Store)
    (read_nodes : string → list Parquet.NodeRow)
    (read_edges : string → list Parquet.EdgeRow)
    (files : gmap Z Parquet.GraphFiles) (g : list Z) :
  Parquet.allKnown files g →
  Forall fitsInt32 g →
  dbEdges db g ≡ₚ parquetEdges read_edges files g →
  dbNodes db g ≡ₚ parquetNodes read_nodes files g →
  let overDb := Tools.dbQueries ilike db in
  let overParquet := Tools.createQueries ilike read_nodes read_edges files in
  (∀ input,
     match Tools.execute g overDb input, Tools.execute g overParquet input with
     | Ok r1, Ok r2 =>
         Node.id (Tools.mainNode r1) = Tools.nodeId input
         ∧ Node.id (Tools.mainNode r2) = Tools.nodeId input
         ∧ Tools.node <$> Tools.neighbors r1
           ≡ₚ Tools.node <$> Tools.neighbors r2
     | Throw e1, Throw e2 => e1 = e2
     | Ok _, Throw _ => False
     | Throw _, Ok _ => False
     end)
  ∧ (∀ nodeId edgeType, ∃ l1 l2,
       Tools.getNeighborsByNodeId g overDb nodeId edgeType = Ok l1
       ∧ Tools.getNeighborsByNodeId g overParquet nodeId edgeType = Ok l2
       ∧ l1 ≡ₚ l2).
Proof.
  intros Hk _ HE HN overDb overParquet. split.
  - intros input.
    destruct (agree_getKHopNeighborIds db read_edges files g Hk HE
                (Tools.nodeId input) (default K1 (Tools.k input))
                (Tools.edgeType input)) as (ids1 & ids2 & H1 & H2 & Hids).
    unfold overDb, overParquet.
    rewrite (Db_execute_eq ilike db g input ids1 H1),
      (Parquet_execute_eq ilike read_nodes read_edges files g input ids2 Hk H2).
    cbv zeta. destruct (bool_decide _ && truthy _); [done|].
    assert (Hmain : filter (fun x => Node.id x ∈ [Tools.nodeId input])
                      (dbNodes db g)
                    ≡ₚ filter (fun x => Node.id x ∈ [Tools.nodeId input])
                         (parquetNodes read_nodes files g))
      by (by rewrite HN).
    destruct (filter _ (dbNodes db g)) as [|m1 rest1] eqn:Hm1;
      destruct (filter _ (parquetNodes read_nodes files g))
        as [|m2 rest2] eqn:Hm2.
    + done.
    + by apply Permutation_nil_cons in Hmain.
    + symmetry in Hmain. by apply Permutation_nil_cons in Hmain.
    + cbn [Tools.mainNode Tools.neighbors].
      assert (m1 ∈ m1 :: rest1) as Hin1 by left.
      assert (m2 ∈ m2 :: rest2) as Hin2 by left.
      rewrite <-Hm1 in Hin1. rewrite <-Hm2 in Hin2.
      apply list_elem_of_filter in Hin1 as [Hid1%list_elem_of_singleton _].
      apply list_elem_of_filter in Hin2 as [Hid2%list_elem_of_singleton _].
      split; [done|]. split; [done|].
      assert (Tools.node
                <$> Tools.withQuery (Tools.query input)
                      (Tools.byNodeType (Tools.nodeType input)
                         (filter (fun x => Node.id x ∈ ids1) (dbNodes db g)))
              ≡ₚ Tools.node
                   <$> Tools.withQuery (Tools.query input)
                         (Tools.byNodeType (Tools.nodeType input)
                            (filter (fun x => Node.id x ∈ ids2)
                                    (parquetNodes read_nodes files g))))
        as Hranked.
      { apply withQuery_Permutation, byNodeType_Permutation.
        rewrite <-HN. apply Permutation_of_eq, list_filter_iff.
        intros x. by rewrite Hids. }
      by destruct (default K1 (Tools.k input));
        rewrite <-!list_fmap_compose.
  - intros nodeId edgeType.
    by apply (agree_getNeighbors db read_edges files g Hk HE).
Qed.

(** Both example stores, asked for graph 2 before graph 1, answer for the
    surroundings of [B]. *)
Lemma tools_agree_across_stores_witness :
  let input := Tools.mkInput "B" None None None None in
  match Tools.execute [2; 1] Example.dbQueries input,
        Tools.execute [2; 1] Example.parquetQueries input with
  | Ok r1, Ok r2 =>
      Node.id (Tools.mainNode r1) = "B"
      ∧ Node.id (Tools.mainNode r2) = "B"
      ∧ Tools.node <$> Tools.neighbors r1 ≡ₚ Tools.node <$> Tools.neighbors r2
  | Throw e1, Throw e2 => e1 = e2
  | Ok _, Throw _ => False
  | Throw _, Ok _ => False
  end.
Proof.
  refine (proj1 (tools_agree_across_stores Example.ilike Example.db
                   Example.read_nodes Example.read_edges Example.files
                   [2; 1] _ _ _ _)
            (Tools.mkInput "B" None None None None)).
  - by_evaluation.
  - apply (bool_decide_unpack _). by vm_compute.
  - symmetry.
    exact (Permutation_cons_append (Parquet.tagEdge 1 <$> Example.edges1)
             (Parquet.tagEdge 2 Example.edgeEA)).
  - exact (Permutation_app_comm (Parquet.tagNode 1 <$> Example.nodes1)
             (Parquet.tagNode 2 <$> Example.nodes2)).
Defined.

(** ** Naming the graph of a node *)





(** ** The checks of the smoke test *)

(** X25. The assertions of [scripts/smoke-test-parquet.ts] that do not
    depend on the data hold over any parquet files: a name search returns
    at most [limit] nodes; [getNodesByIds] with no id returns nothing, even
    for graph ids without files; the nodes it returns for one id carry that
    id; the one-hop expansion has the ids of [getNeighbors], as many of
    them, and fails when it fails; the two-hop expansion has every id of
    the one-hop expansion and is at least as long; and there is an edge
    between a node and each of its neighbours. *)
Theorem smoke_test_assertions_hold
    (ilike : option string → string → bool)
    (read_nodes : string → list Parquet.NodeRow)
    (read_edges : string → list Parquet.EdgeRow)
    (files : gmap Z Parquet.GraphFiles) (g : list Z)
    (name sample : string) (limit : nat) :
  let queries := Tools.createQueries ilike read_nodes read_edges files in
  match Tools.searchNodesByName queries name (Some g) limit with
  | Ok nodes => (length nodes ≤ limit)%nat
  | Throw _ => True
  end
  ∧ Tools.getNodesByIds queries g [] = Ok []
  ∧ match Tools.getNodesByIds queries g [sample] with
    | Ok nodes => Forall (fun n => Node.id n = sample) nodes
    | Throw _ => True
    end
  ∧ match Tools.getKHopNeighborIds queries g sample K1 None,
          Tools.getNeighbors queries g sample None with
    | Ok kHopIds, Ok neighborIds =>
        kHopIds ≡ₚ neighborIds ∧ length kHopIds = length neighborIds
    | Ok _, Throw _ => False
    | Throw _, Ok _ => False
    | Throw e1, Throw e2 => e1 = e2
    end
  ∧ match Tools.getKHopNeighborIds queries g sample K1 None,
          Tools.getKHopNeighborIds queries g sample K2 None with
    | Ok l1, Ok l2 => l1 ⊆ l2 ∧ (length l1 ≤ length l2)%nat
    | Ok _, Throw _ => False
    | Throw _, Ok _ => False
    | Throw e1, Throw e2 => e1 = e2
    end
  ∧ match Tools.getNeighbors queries g sample None with
    | Ok neighborIds =>
        Forall (fun x =>
                  match Tools.getEdgesBetweenNodes queries g sample x with
                  | Ok edges => edges ≠ []
                  | Throw _ => False
                  end) neighborIds
    | Throw _ => True
    end.
Proof.
  intros queries. unfold queries.
  cbn [Tools.searchNodesByName Tools.getNodesByIds Tools.getKHopNeighborIds
       Tools.getNeighbors Tools.getEdgesBetweenNodes Tools.createQueries].
  split_and!.
  - unfold Parquet.searchNodesByName. simpl.
    destruct g as [|i g']; [simpl; lia|].
    destruct (Parquet.nodesSource _ _ _) as [src|e]; [|done].
    cbn [mbind Result_bind]. rewrite length_take. lia.
  - done.
  - unfold Parquet.getNodesByIds.
    destruct (Parquet.nodesSource _ _ _) as [src|e]; [|done].
    cbn [mbind Result_bind]. apply Forall_forall.
    by intros n [?%list_elem_of_singleton _]%list_elem_of_filter.
  - change (Parquet.getKHopNeighborIds read_edges files g sample K1 None)
      with (Parquet.getNeighbors read_edges files g sample None).
    by destruct (Parquet.getNeighbors read_edges files g sample None).
  - unfold Parquet.getKHopNeighborIds, Common.getKHopNeighborIds.
    cbn [truthy].
    destruct (Parquet.getNeighbors read_edges files g sample None)
      as [l1|e1] eqn:Hl1; [|done].
    cbn [mbind Result_bind].
    destruct (Common.twoHopLoop _ _ _ _ _ _) as [twoHop|e2] eqn:Hloop.
    + cbn [mbind Result_bind]. split.
      * intros x Hx. apply elem_of_app. by left.
      * rewrite length_app. lia.
    + apply twoHopLoop_Throw in Hloop as [m Hm].
      destruct (Parquet_getNeighbors_cases read_edges files g)
        as [[_ Hnb]|[_ [err Herr]]].
      * destruct (Hnb m None) as (l & Hl & _). by rewrite Hl in Hm.
      * by rewrite Herr in Hl1.
  - destruct (Parquet_getNeighbors_cases read_edges files g)
      as [[Hk Hnb]|[_ [err Herr]]]; [|by rewrite Herr].
    destruct (Hnb sample None) as (l & -> & _ & Hin).
    apply Forall_forall. intros x Hx.
    rewrite (Parquet_getEdgesBetweenNodes_known _ _ _ _ _ Hk).
    apply filter_joins_nonempty. apply Hin in Hx as (e & ? & ? & ?).
    by exists e.
Qed.
